(** * DynamoRIO: a shallow embedding of core/win32/os.c, of the drwrap
    extension's interface and of its test client, with the properties the
    specification states about them.

    Part I holds the definitions, one module per piece of the program:
    - [Macros]     the bit-test macros (TEST, TESTANY, TESTALL);
    - [Prot]       memprot_to_osprot / osprot_to_memprot  (core/win32/os.c);
    - [Inject]     should_inject_into_process             (core/win32/os.c);
    - [SafeRead]   safe_read_ex / safe_read               (core/win32/os.c);
    - [Detach]     detach_helper                          (core/win32/os.c);
    - [Drwrap]     the wrap / replace layer that drwrap.h declares;
    - [DrwrapTest] suite/tests/client-interface/drwrap-test.dll.c;
    and, all of core/win32/os.c:
    - [Writecopy]  prot_string, prot_is_copyonwrite, osprot_add_writecopy,
                   osprot_replace_memprot;
    - [Mem]        MEMORY_BASIC_INFORMATION and a sample address space;
    - [ChangeProtection] internal_change_protection and its callers;
    - [Query]      get_allocation_base, get_allocation_size, get_memory_info,
                   query_is_readable_without_exception,
                   get_current_protection, not_readable;
    - [DetachInternal] detach_internal;
    - [InjectChild] inject_into_process, maybe_inject_into_process;
    - [NtPath]     convert_to_NT_file_path;
    - [OptionCompatibility] os_check_option_compatibility;
    - [Profile]    create_profile, sum_profile_range, reset_profile;
    - [WindowsVersion] windows_version_init;
    - [HeapReserve] os_heap_reserve, os_heap_reserve_in_region.
    Part II holds the theorems, in the same order.

    Unsigned C integers are [Z] values; the places where a width matters
    say so.  Routines and constants that live in files which are not among
    the sources are parameters of the code that uses them. *)

From Stdlib Require Import ZArith Bool List Lia DecimalString Sorted Ascii.
From stdpp Require Import gmap strings.
Import ListNotations.

Local Open Scope Z_scope.

(* ===================================================================== *)
(** * Part I: definitions *)
(* ===================================================================== *)

(** ** Bit-test macros *)

Module Macros.

(** [#define TESTANY(mask, var) (((mask) & (var)) != 0)] *)
Definition TESTANY (mask var : Z) : bool := negb (Z.land mask var =? 0).

(** [#define TESTALL(mask, var) (((mask) & (var)) == (mask))] *)
Definition TESTALL (mask var : Z) : bool := Z.land mask var =? mask.

(** [#define TEST TESTANY] *)
Definition TEST : Z -> Z -> bool := TESTANY.

(** [~x] on a 32-bit [uint]. *)
Definition uint_not (x : Z) : Z := Z.lnot x mod 2 ^ 32.

End Macros.

(** ** Page protections: core/win32/os.c, lines 1427-1509 *)

Module Prot.
Import Macros.

(** The MEMPROT_ bits come from the engine's shared header and the PAGE_
    values from the Windows SDK; neither file is among the sources, so the
    functions take them as a parameter. *)
Record constants : Type := {
  MEMPROT_READ : Z;
  MEMPROT_WRITE : Z;
  MEMPROT_EXEC : Z;
  PAGE_NOACCESS : Z;
  PAGE_READONLY : Z;
  PAGE_READWRITE : Z;
  PAGE_WRITECOPY : Z;
  PAGE_EXECUTE : Z;
  PAGE_EXECUTE_READ : Z;
  PAGE_EXECUTE_READWRITE : Z;
  PAGE_EXECUTE_WRITECOPY : Z;
  PAGE_PROTECTION_QUALIFIERS : Z
}.

Section WithConstants.
Variable c : constants.

(** [prot &= ~PAGE_PROTECTION_QUALIFIERS] *)
Definition strip_qualifiers (prot : Z) : Z :=
  Z.land prot (uint_not c.(PAGE_PROTECTION_QUALIFIERS)).

(** [switch (v) { case l1: ... case ln: return true; } return false;] *)
Definition is_case (v : Z) (labels : list Z) : bool :=
  existsb (Z.eqb v) labels.

Definition prot_is_readable (prot : Z) : bool :=
  let prot := strip_qualifiers prot in
  is_case prot [c.(PAGE_READONLY); c.(PAGE_READWRITE); c.(PAGE_WRITECOPY);
                c.(PAGE_EXECUTE); c.(PAGE_EXECUTE_READ);
                c.(PAGE_EXECUTE_READWRITE); c.(PAGE_EXECUTE_WRITECOPY)].

Definition prot_is_writable (prot : Z) : bool :=
  let prot := strip_qualifiers prot in
  (prot =? c.(PAGE_READWRITE)) || (prot =? c.(PAGE_WRITECOPY)) ||
  (prot =? c.(PAGE_EXECUTE_READWRITE)) || (prot =? c.(PAGE_EXECUTE_WRITECOPY)).

Definition prot_is_executable (prot : Z) : bool :=
  let prot := strip_qualifiers prot in
  (prot =? c.(PAGE_EXECUTE)) || (prot =? c.(PAGE_EXECUTE_READ)) ||
  (prot =? c.(PAGE_EXECUTE_READWRITE)) || (prot =? c.(PAGE_EXECUTE_WRITECOPY)).

(** translate platform independent protection bits to native flags *)
Definition memprot_to_osprot (prot : Z) : Z :=
  if TEST c.(MEMPROT_EXEC) prot then
    (* ASSERT(TEST(MEMPROT_READ, prot)): see [memprot_to_osprot_asserts] *)
    if TEST c.(MEMPROT_WRITE) prot then c.(PAGE_EXECUTE_READWRITE)
    else c.(PAGE_EXECUTE_READ)
  else if TEST c.(MEMPROT_READ) prot then
    if TEST c.(MEMPROT_WRITE) prot then c.(PAGE_READWRITE)
    else c.(PAGE_READONLY)
  else c.(PAGE_NOACCESS).

(** The debug-build assertion inside [memprot_to_osprot]; it is evaluated on
    the MEMPROT_EXEC branch only. *)
Definition memprot_to_osprot_asserts (prot : Z) : bool :=
  if TEST c.(MEMPROT_EXEC) prot then TEST c.(MEMPROT_READ) prot else true.

(** translate native flags to platform independent protection bits *)
Definition osprot_to_memprot (prot : Z) : Z :=
  let mem_prot := 0 in
  let mem_prot :=
    if prot_is_readable prot then Z.lor mem_prot c.(MEMPROT_READ)
    else mem_prot in
  let mem_prot :=
    if prot_is_writable prot then Z.lor mem_prot c.(MEMPROT_WRITE)
    else mem_prot in
  let mem_prot :=
    if prot_is_executable prot then Z.lor mem_prot c.(MEMPROT_EXEC)
    else mem_prot in
  mem_prot.

(** A protection value composed of the three bits: the bit-or of those
    chosen. *)
Definition memprot_of (r w x : bool) : Z :=
  Z.lor (Z.lor (if r then c.(MEMPROT_READ) else 0)
               (if w then c.(MEMPROT_WRITE) else 0))
        (if x then c.(MEMPROT_EXEC) else 0).

(** The eight protections a page can have, qualifiers apart. *)
Definition page_values : list Z :=
  [c.(PAGE_NOACCESS); c.(PAGE_READONLY); c.(PAGE_READWRITE);
   c.(PAGE_WRITECOPY); c.(PAGE_EXECUTE); c.(PAGE_EXECUTE_READ);
   c.(PAGE_EXECUTE_READWRITE); c.(PAGE_EXECUTE_WRITECOPY)].

(** What the code relies on: the three MEMPROT_ bits are set and disjoint,
    the eight PAGE_ values are an enumeration, and none of them carries a
    qualifier bit. *)
Record constants_ok : Prop := {
  read_set : c.(MEMPROT_READ) <> 0;
  write_set : c.(MEMPROT_WRITE) <> 0;
  exec_set : c.(MEMPROT_EXEC) <> 0;
  read_write : Z.land c.(MEMPROT_READ) c.(MEMPROT_WRITE) = 0;
  read_exec : Z.land c.(MEMPROT_READ) c.(MEMPROT_EXEC) = 0;
  write_exec : Z.land c.(MEMPROT_WRITE) c.(MEMPROT_EXEC) = 0;
  page_distinct : NoDup page_values;
  page_unqualified : Forall (fun v => strip_qualifiers v = v) page_values
}.

End WithConstants.

(** The values the engine's header (MEMPROT_) and winnt.h (PAGE_) give. *)
Definition win32 : constants := {|
  MEMPROT_READ := 0x1;
  MEMPROT_WRITE := 0x2;
  MEMPROT_EXEC := 0x4;
  PAGE_NOACCESS := 0x01;
  PAGE_READONLY := 0x02;
  PAGE_READWRITE := 0x04;
  PAGE_WRITECOPY := 0x08;
  PAGE_EXECUTE := 0x10;
  PAGE_EXECUTE_READ := 0x20;
  PAGE_EXECUTE_READWRITE := 0x40;
  PAGE_EXECUTE_WRITECOPY := 0x80;
  (* PAGE_GUARD | PAGE_NOCACHE | PAGE_WRITECOMBINE *)
  PAGE_PROTECTION_QUALIFIERS := Z.lor (Z.lor 0x100 0x200) 0x400
|}.

(** Try [tac] at each index of the list of PAGE_ values. *)
Ltac at_index tac :=
  first [ tac 0%nat | tac 1%nat | tac 2%nat | tac 3%nat
        | tac 4%nat | tac 5%nat | tac 6%nat | tac 7%nat ].

End Prot.

(** ** Following child processes: core/win32/os.c, lines 1638-1710 *)

Module Inject.
Import Macros.

(** The follow-children family of [DYNAMO_OPTION]s. *)
Record options : Type := {
  follow_children : bool;
  follow_explicit_children : bool;
  follow_systemwide : bool
}.

(** The bits of [inject_setting_mask_t]; their header is not among the
    sources. *)
Record constants : Type := {
  INJECT_TRUE : Z;
  INJECT_EXPLICIT : Z;
  INJECT_EXCLUDED : Z
}.

(** What [should_inject_into_process] reads from outside: the options as
    they are after [synchronize_dynamic_options()], the answer of
    [systemwide_should_inject(process_handle, rununder_mask)] (which also
    fills [*rununder_mask]; the caller never reads it here), and the answer
    of [systemwide_inject_enabled()]. *)
Record environment : Type := {
  dynamo_options : options;
  systemwide_should_inject : Z -> Z;
  systemwide_inject_enabled : bool
}.

Section WithEnvironment.
Variable k : constants.
Variable env : environment.

(** The returned [bool], and the value stored through [inject_settings]
    when one is stored ([inject_settings_given]: the pointer is not NULL).
    LOG and DODEBUG lines have no effect on either. *)
Definition should_inject_into_process
    (process_handle : Z) (inject_settings_given : bool) : bool * option Z :=
  let opt := env.(dynamo_options) in
  let inject := false in
  if opt.(follow_children) || opt.(follow_explicit_children) ||
     opt.(follow_systemwide) then
    let should_inject := env.(systemwide_should_inject) process_handle in
    let inject :=
      if opt.(follow_systemwide) && TEST k.(INJECT_TRUE) should_inject
      then true else inject in
    let inject :=
      if negb inject && opt.(follow_explicit_children) &&
         TESTALL (Z.lor k.(INJECT_EXPLICIT) k.(INJECT_TRUE)) should_inject
      then true else inject in
    let inject :=
      if negb inject && opt.(follow_children) then
        (* -follow_children defaults to inject *)
        let inject := true in
        (* check if child should be excluded from running under dr *)
        let inject :=
          if TEST k.(INJECT_EXCLUDED) should_inject then false else inject in
        (* check if we should leave injection to preinjector *)
        let inject :=
          if TEST k.(INJECT_TRUE) should_inject &&
             env.(systemwide_inject_enabled) &&
             negb (TEST k.(INJECT_EXPLICIT) should_inject)
          then false else inject in
        inject
      else inject in
    (inject,
     if inject && inject_settings_given then Some should_inject else None)
  else (inject, None).

(** The child is marked excluded. *)
Definition child_excluded (process_handle : Z) : bool :=
  TEST k.(INJECT_EXCLUDED) (env.(systemwide_should_inject) process_handle).

(** Injection is left to the systemwide preinjector. *)
Definition left_to_preinjector (process_handle : Z) : bool :=
  let should_inject := env.(systemwide_should_inject) process_handle in
  TEST k.(INJECT_TRUE) should_inject && env.(systemwide_inject_enabled) &&
  negb (TEST k.(INJECT_EXPLICIT) should_inject).

End WithEnvironment.

(** Sample values for the mask bits, and a process run with -follow_children
    alone whose child is neither excluded nor configured. *)
Definition sample_constants : constants :=
  {| INJECT_TRUE := 1; INJECT_EXCLUDED := 2; INJECT_EXPLICIT := 4 |}.

Definition sample_environment : environment :=
  {| dynamo_options :=
       {| follow_children := true;
          follow_explicit_children := false;
          follow_systemwide := false |};
     systemwide_should_inject := fun _ => 0;
     systemwide_inject_enabled := true |}.

End Inject.

(** ** Safe reads: core/win32/os.c, lines 3727-3750 *)

Module SafeRead.

(** What one call of [nt_read_virtual_memory(process, base, buffer, size,
    bytes_read)] does: the [bool] it returns, the count it stores through
    [bytes_read] (when it stores one), and the bytes it copies to [buffer].
    The routine is in ntdll.c, which is not among the sources. *)
Record nt_read_result : Type := {
  nt_success : bool;
  nt_bytes_read : option Z;
  nt_copied : list Z
}.

(** What a caller of [safe_read_ex] sees afterwards. *)
Record read_outcome : Type := {
  ret : bool;
  bytes_read_cell : option Z;
  out_buf : list Z
}.

Section WithKernel.
Variable NT_CURRENT_PROCESS : Z.
Variable nt_read_virtual_memory : Z -> Z -> Z -> nt_read_result.

(** [bytes_read_given]: the [bytes_read] pointer is not NULL; then
    [bytes_read_cell] is the value of [*bytes_read] on return. *)
Definition safe_read_ex (base size : Z) (bytes_read_given : bool)
    : read_outcome :=
  (* if (bytes_read != NULL) *bytes_read = 0; *)
  let cell := if bytes_read_given then Some 0 else None in
  (* STATS_INC(num_safe_reads); *)
  let r := nt_read_virtual_memory NT_CURRENT_PROCESS base size in
  {| ret := r.(nt_success);
     bytes_read_cell :=
       match cell with
       | Some before => Some (default before r.(nt_bytes_read))
       | None => None
       end;
     out_buf := r.(nt_copied) |}.

(** [size_t bytes_read = 0;
     return (safe_read_ex(base, size, out_buf, &bytes_read) &&
             bytes_read == size);] *)
Definition safe_read (base size : Z) : bool * list Z :=
  let r := safe_read_ex base size true in
  (r.(ret) && (default 0 r.(bytes_read_cell) =? size), r.(out_buf)).

(** The count the kernel call leaves in [safe_read]'s local [bytes_read]. *)
Definition bytes_read_by_os (base size : Z) : Z :=
  default 0 (nt_read_virtual_memory NT_CURRENT_PROCESS base size).(nt_bytes_read).

(** Some byte of [base, base+size) is not readable. *)
Definition unreadable (readable : Z -> bool) (base size : Z) : Prop :=
  exists a, base <= a < base + size /\ readable a = false.

(** The kernel does not fault on an unreadable source: the call returns
    failure. *)
Definition fails_on_unreadable (readable : Z -> bool) : Prop :=
  forall process base size,
    unreadable readable base size ->
    (nt_read_virtual_memory process base size).(nt_success) = false.

End WithKernel.

(** A kernel to run the code on: memory is a partial map from addresses to
    bytes, and a read copies upwards from [base] until it has [size] bytes
    or meets an address that is not mapped. *)
Fixpoint copy_bytes (m : Z -> option Z) (base : Z) (n : nat) : list Z :=
  match n with
  | O => []
  | S n' =>
      match m base with
      | Some b => b :: copy_bytes m (base + 1) n'
      | None => []
      end
  end.

Definition kernel_read (m : Z -> option Z) (process base size : Z)
    : nt_read_result :=
  let got := copy_bytes m base (Z.to_nat size) in
  let n := Z.of_nat (length got) in
  {| nt_success := n =? size; nt_bytes_read := Some n; nt_copied := got |}.

(** Four mapped bytes at 0x1000..0x1003. *)
Definition small_memory (a : Z) : option Z :=
  if (0x1000 <=? a) && (a <? 0x1004) then Some (a - 0x1000 + 0xA0) else None.

End SafeRead.

(** ** Detach: core/win32/os.c, lines 5570-5660 *)

Module Detach.

(** The calls [detach_helper] makes to routines and macros defined
    elsewhere, in the order it makes them. *)
Inductive event : Type :=
| ENTERING_DR
| EXITING_DR
| SELF_UNPROTECT_DATASEC
| SELF_PROTECT_DATASEC
| SYSLOG_INTERNAL_ERROR (msg : string)
| SYSLOG_INFO_DETACHING
| enter_threadexit
| thread_yield
| wait_for_outstanding_nudges
| synch_with_all_threads.

(** The globals [detach_helper] reads and writes before it starts to
    suspend threads.  [my_dcontext] is what
    [get_thread_private_dcontext()] returns (0 for NULL); [allow_detach] is
    what [SYNCHRONIZE_DYNAMIC_OPTION(allow_detach)] evaluates to. *)
Record engine : Type := {
  dynamo_initialized : bool;
  dynamo_exited : bool;
  my_dcontext : Z;
  dynamo_detaching_flag : Z;
  doing_detach : bool;
  internal_detach : bool;
  allow_detach : bool;
  init_apc_go_native_pause : bool;
  init_apc_go_native : bool;
  calls : list event
}.

Definition call (e : event) (s : engine) : engine :=
  {| dynamo_initialized := s.(dynamo_initialized);
     dynamo_exited := s.(dynamo_exited);
     my_dcontext := s.(my_dcontext);
     dynamo_detaching_flag := s.(dynamo_detaching_flag);
     doing_detach := s.(doing_detach);
     internal_detach := s.(internal_detach);
     allow_detach := s.(allow_detach);
     init_apc_go_native_pause := s.(init_apc_go_native_pause);
     init_apc_go_native := s.(init_apc_go_native);
     calls := s.(calls) ++ [e] |}.

Definition set_dynamo_detaching_flag (v : Z) (s : engine) : engine :=
  {| dynamo_initialized := s.(dynamo_initialized);
     dynamo_exited := s.(dynamo_exited);
     my_dcontext := s.(my_dcontext);
     dynamo_detaching_flag := v;
     doing_detach := s.(doing_detach);
     internal_detach := s.(internal_detach);
     allow_detach := s.(allow_detach);
     init_apc_go_native_pause := s.(init_apc_go_native_pause);
     init_apc_go_native := s.(init_apc_go_native);
     calls := s.(calls) |}.

Definition set_doing_detach (v : bool) (s : engine) : engine :=
  {| dynamo_initialized := s.(dynamo_initialized);
     dynamo_exited := s.(dynamo_exited);
     my_dcontext := s.(my_dcontext);
     dynamo_detaching_flag := s.(dynamo_detaching_flag);
     doing_detach := v;
     internal_detach := s.(internal_detach);
     allow_detach := s.(allow_detach);
     init_apc_go_native_pause := s.(init_apc_go_native_pause);
     init_apc_go_native := s.(init_apc_go_native);
     calls := s.(calls) |}.

Definition set_init_apc_go_native (pause native : bool) (s : engine) : engine :=
  {| dynamo_initialized := s.(dynamo_initialized);
     dynamo_exited := s.(dynamo_exited);
     my_dcontext := s.(my_dcontext);
     dynamo_detaching_flag := s.(dynamo_detaching_flag);
     doing_detach := s.(doing_detach);
     internal_detach := s.(internal_detach);
     allow_detach := s.(allow_detach);
     init_apc_go_native_pause := pause;
     init_apc_go_native := native;
     calls := s.(calls) |}.

Section WithRemainder.
(** [LOCK_FREE_STATE] and [LOCK_SET_STATE] are defined in a header that is
    not among the sources. *)
Variables LOCK_FREE_STATE LOCK_SET_STATE : Z.
(** Built with CLIENT_INTERFACE or not. *)
Variable CLIENT_INTERFACE : bool.
(** Everything [detach_helper] does once the threads are suspended (from
    the hot-patch cleanup on line 5666 to the end of the function). *)
Variable detach_remainder : Z -> engine -> engine.

(** [atomic_compare_exchange(&dynamo_detaching_flag, exp, newval)] *)
Definition atomic_compare_exchange (exp newval : Z) (s : engine)
    : bool * engine :=
  if s.(dynamo_detaching_flag) =? exp
  then (true, set_dynamo_detaching_flag newval s)
  else (false, s).

Definition detach_helper (detach_type : Z) (s : engine) : engine :=
  if negb s.(dynamo_initialized) || s.(dynamo_exited) ||
     (s.(my_dcontext) =? 0)
  then s
  else
    let s := call ENTERING_DR s in
    let '(won, s) := atomic_compare_exchange LOCK_FREE_STATE LOCK_SET_STATE s in
    if negb won then call EXITING_DR s
    else
      let s := call SELF_UNPROTECT_DATASEC s in
      let s := set_doing_detach true s in
      if negb s.(internal_detach) && negb s.(allow_detach) then
        let s := set_doing_detach false s in
        let s := call SELF_PROTECT_DATASEC s in
        let s := set_dynamo_detaching_flag LOCK_FREE_STATE s in
        let s := call (SYSLOG_INTERNAL_ERROR
                         "Detach called without the allow_detach option set") s in
        call EXITING_DR s
      else
        let s := call SYSLOG_INFO_DETACHING s in
        (* synch with flush *)
        let s := if s.(my_dcontext) =? 0 then s else call enter_threadexit s in
        (* note to avoid races these must be set in this order! *)
        let s := set_init_apc_go_native true s.(init_apc_go_native) s in
        let s := set_init_apc_go_native s.(init_apc_go_native_pause) true s in
        let s := call thread_yield s in
        let s := if CLIENT_INTERFACE
                 then call wait_for_outstanding_nudges s else s in
        (* suspend all dynamo controlled threads at safe locations *)
        let s := call synch_with_all_threads s in
        detach_remainder detach_type s.

(** The calls that belong to detaching proper: made only past the
    allow_detach gate. *)
Definition detaches (e : event) : bool :=
  match e with
  | SYSLOG_INFO_DETACHING | enter_threadexit | thread_yield
  | wait_for_outstanding_nudges | synch_with_all_threads => true
  | _ => false
  end.

End WithRemainder.

(** An engine that is up and idle, with detach not allowed. *)
Definition running_engine : engine :=
  {| dynamo_initialized := true;
     dynamo_exited := false;
     my_dcontext := 0x7ff0;
     dynamo_detaching_flag := -1;
     doing_detach := false;
     internal_detach := false;
     allow_detach := false;
     init_apc_go_native_pause := false;
     init_apc_go_native := false;
     calls := [] |}.

(** A stand-in for the rest of [detach_helper]: it marks the engine as
    exited. *)
Definition tear_down (detach_type : Z) (s : engine) : engine :=
  {| dynamo_initialized := false;
     dynamo_exited := true;
     my_dcontext := 0;
     dynamo_detaching_flag := s.(dynamo_detaching_flag);
     doing_detach := s.(doing_detach);
     internal_detach := s.(internal_detach);
     allow_detach := s.(allow_detach);
     init_apc_go_native_pause := s.(init_apc_go_native_pause);
     init_apc_go_native := s.(init_apc_go_native);
     calls := s.(calls) |}.

End Detach.

(** ** The wrap / replace layer: drwrap.h (src/unnamed/part_003) *)

Module Drwrap.

(** drwrap.c, the file that implements the routines drwrap.h declares, is
    not among the sources.  The routines, the two tables, the wrap-stack and
    the steps of the engine around a wrapped call are therefore modelled
    from section 4.11 of the specification and from the documentation of
    each routine in drwrap.h.  The order in which the callbacks of one
    address run is the one section 4.11 states: "registration order defines
    the pre-call order; the reverse order defines the post-call order". *)

(** Application addresses, function pointers and [void *] data are [Z];
    [NULL] is 0. *)
Definition NULL : Z := 0.

(** One wrap request: the arguments of
    [drwrap_wrap_ex(func, pre_func_cb, post_func_cb, user_data)]. *)
Record wrap_entry : Type := {
  pre_cb : Z;
  post_cb : Z;
  user_data : Z
}.

Definition entry_eqb (a b : wrap_entry) : bool :=
  (a.(pre_cb) =? b.(pre_cb)) && (a.(post_cb) =? b.(post_cb)) &&
  (a.(user_data) =? b.(user_data)).

Definition has_pre (e : wrap_entry) : bool := negb (e.(pre_cb) =? NULL).
Definition has_post (e : wrap_entry) : bool := negb (e.(post_cb) =? NULL).

(** Which callback a wrap context is handed to. *)
Inductive where_t : Type := in_pre | in_post.

(** Modelled from the spec: drwrap.c's wrap context, the struct behind the
    opaque [wrapcxt] pointer, is missing; these are the parts of it that
    the routines of drwrap.h read and write.  [wc_skip] records a call of
    [drwrap_skip_call(wrapcxt, retval, stdcall_args_size)]. *)
Record wrapcxt_t : Type := {
  wc_func : Z;
  wc_where : where_t;
  wc_args : list Z;
  wc_retaddr : Z;
  wc_retval : Z;
  wc_skip : option (Z * Z)
}.

(** Modelled from the spec: drwrap.c's [drwrap_get_func] is missing.
    "Returns the address of the wrapped function represented by wrapcxt";
    for a NULL [wrapcxt] it returns NULL, which wrap_unwindtest_post of the
    test relies on when it is called on an abnormal unwind. *)
Definition drwrap_get_func (wrapcxt : option wrapcxt_t) : Z :=
  match wrapcxt with
  | Some wc => wc.(wc_func)
  | None => NULL
  end.

(** Modelled from the spec: drwrap.c's [drwrap_get_arg] is missing.
    "Returns the value of the arg-th argument (0-based)"; "May only be
    called from a drwrap_wrap pre-function callback." *)
Definition drwrap_get_arg (wrapcxt : option wrapcxt_t) (arg : nat) : Z :=
  match wrapcxt with
  | Some wc =>
      match wc.(wc_where) with
      | in_pre => nth arg wc.(wc_args) NULL
      | in_post => NULL
      end
  | None => NULL
  end.

(** Modelled from the spec: drwrap.c's [drwrap_set_arg] is missing.
    Misuse (a post-callback, a NULL context, an argument the call does not
    have) is refused with [false] and changes nothing: "Wrap callback misuse
    (e.g., set_arg in a post-callback): ignored and flagged; not fatal." *)
Definition drwrap_set_arg (wrapcxt : option wrapcxt_t) (arg : nat) (val : Z)
    : bool * option wrapcxt_t :=
  match wrapcxt with
  | Some wc =>
      match wc.(wc_where) with
      | in_pre =>
          if (arg <? length wc.(wc_args))%nat then
            (true,
             Some {| wc_func := wc.(wc_func);
                     wc_where := wc.(wc_where);
                     wc_args := <[arg := val]> wc.(wc_args);
                     wc_retaddr := wc.(wc_retaddr);
                     wc_retval := wc.(wc_retval);
                     wc_skip := wc.(wc_skip) |})
          else (false, wrapcxt)
      | in_post => (false, wrapcxt)
      end
  | None => (false, wrapcxt)
  end.

(** Modelled from the spec: drwrap.c's [drwrap_get_retval] is missing.
    "May only be called from a drwrap_wrap post-function callback." *)
Definition drwrap_get_retval (wrapcxt : option wrapcxt_t) : Z :=
  match wrapcxt with
  | Some wc =>
      match wc.(wc_where) with
      | in_post => wc.(wc_retval)
      | in_pre => NULL
      end
  | None => NULL
  end.

(** Modelled from the spec: drwrap.c's [drwrap_set_retval] is missing.
    "Sets the return value of the wrapped function"; post-callbacks only. *)
Definition drwrap_set_retval (wrapcxt : option wrapcxt_t) (val : Z)
    : bool * option wrapcxt_t :=
  match wrapcxt with
  | Some wc =>
      match wc.(wc_where) with
      | in_post =>
          (true,
           Some {| wc_func := wc.(wc_func);
                   wc_where := wc.(wc_where);
                   wc_args := wc.(wc_args);
                   wc_retaddr := wc.(wc_retaddr);
                   wc_retval := val;
                   wc_skip := wc.(wc_skip) |})
      | in_pre => (false, wrapcxt)
      end
  | None => (false, wrapcxt)
  end.

(** Modelled from the spec: drwrap.c's [drwrap_skip_call] is missing.
    "May only be called from a drwrap_wrap pre-function callback.  Skips
    execution of the original function and returns to the function's caller
    with a return value of retval."  The routine marks the context; the
    engine acts on the mark when the pre-callback returns (see [enter]). *)
Definition drwrap_skip_call (wrapcxt : option wrapcxt_t)
    (retval stdcall_args_size : Z) : bool * option wrapcxt_t :=
  match wrapcxt with
  | Some wc =>
      match wc.(wc_where) with
      | in_pre =>
          (true,
           Some {| wc_func := wc.(wc_func);
                   wc_where := wc.(wc_where);
                   wc_args := wc.(wc_args);
                   wc_retaddr := wc.(wc_retaddr);
                   wc_retval := wc.(wc_retval);
                   wc_skip := Some (retval, stdcall_args_size) |})
      | in_post => (false, wrapcxt)
      end
  | None => (false, wrapcxt)
  end.

Section WithClient.
(** The client's own state (its globals, its TLS slot, what it printed). *)
Variable C : Type.

(** Modelled from the spec: drwrap.c's global tables are missing.  What a
    callback can reach besides its arguments: the wrap table and the
    replace table (through drwrap_wrap, drwrap_unwrap, drwrap_replace), the
    fragments the code cache holds, and the client's own state. *)
Record world : Type := {
  wrap_table : gmap Z (list wrap_entry);
  replace_table : gmap Z Z;
  code_cache : gmap Z Z;
  client : C
}.

Definition set_wrap_table (t : gmap Z (list wrap_entry)) (w : world) : world :=
  {| wrap_table := t;
     replace_table := w.(replace_table);
     code_cache := w.(code_cache);
     client := w.(client) |}.

Definition set_client (c : C) (w : world) : world :=
  {| wrap_table := w.(wrap_table);
     replace_table := w.(replace_table);
     code_cache := w.(code_cache);
     client := c |}.

(** The wrap requests registered for [func], in the order in which they
    were registered. *)
Definition wraps_of (w : world) (func : Z) : list wrap_entry :=
  default [] (w.(wrap_table) !! func).

(** Modelled from the spec: drwrap.c's [drwrap_wrap_ex] is missing.  "One
    of the callbacks can be NULL, but not both."  "Multiple wraps on the
    same address are ordered: registration order defines the pre-call
    order": a new request goes to the end of the list of its address. *)
Definition drwrap_wrap_ex (func pre_func_cb post_func_cb user_data : Z)
    (w : world) : bool * world :=
  if (pre_func_cb =? NULL) && (post_func_cb =? NULL) then (false, w)
  else
    let e := {| pre_cb := pre_func_cb; post_cb := post_func_cb;
                user_data := user_data |} in
    (true,
     set_wrap_table (<[func := wraps_of w func ++ [e]]> w.(wrap_table)) w).

(** Modelled from the spec: drwrap.c's [drwrap_wrap] is missing.
    [drwrap_wrap_ex] is "identical to drwrap_wrap(), but takes an additional
    user_data parameter": [drwrap_wrap] is the one without initial datum. *)
Definition drwrap_wrap (func pre_func_cb post_func_cb : Z) (w : world)
    : bool * world :=
  drwrap_wrap_ex func pre_func_cb post_func_cb NULL w.

Definition same_pair (pre_func_cb post_func_cb : Z) (e : wrap_entry) : bool :=
  (e.(pre_cb) =? pre_func_cb) && (e.(post_cb) =? post_func_cb).

(** Modelled from the spec: drwrap.c's [drwrap_is_wrapped] is missing.
    "whether func is currently wrapped with pre_func_cb and post_func_cb." *)
Definition drwrap_is_wrapped (func pre_func_cb post_func_cb : Z) (w : world)
    : bool :=
  existsb (same_pair pre_func_cb post_func_cb) (wraps_of w func).

(** Drop the first request made with this pair of callbacks. *)
Fixpoint remove_pair (pre_func_cb post_func_cb : Z) (l : list wrap_entry)
    : list wrap_entry :=
  match l with
  | [] => []
  | e :: rest =>
      if same_pair pre_func_cb post_func_cb e then rest
      else e :: remove_pair pre_func_cb post_func_cb rest
  end.

(** Modelled from the spec: drwrap.c's [drwrap_unwrap] is missing.
    "Removes a previously-requested wrap for the function func and the
    callback pair pre_func_cb and post_func_cb." *)
Definition drwrap_unwrap (func pre_func_cb post_func_cb : Z) (w : world)
    : bool * world :=
  if drwrap_is_wrapped func pre_func_cb post_func_cb w then
    (true,
     set_wrap_table
       (<[func := remove_pair pre_func_cb post_func_cb (wraps_of w func)]>
          w.(wrap_table)) w)
  else (false, w).

(** A callback runs on the wrap context it is handed ([None] for a NULL
    [wrapcxt]), the user datum, and the world; it leaves all three behind. *)
Record cb_state : Type := {
  cb_wrapcxt : option wrapcxt_t;
  cb_user_data : Z;
  cb_world : world
}.

(** The client's code: what the function at a callback address does. *)
Record client_code : Type := {
  pre_code : Z -> cb_state -> cb_state;
  post_code : Z -> cb_state -> cb_state
}.

(** What the engine does around wrapped calls, as a sequence of events.
    [call] numbers the calls of wrapped functions in the order in which
    they are entered. *)
Inductive event : Type :=
| pre_called (call : nat) (func : Z) (e : wrap_entry)
| post_called (call : nat) (func : Z) (e : wrap_entry) (abnormal : bool)
| body_runs (call : nat) (func : Z) (args : list Z)
| skipped (call : nat) (func : Z) (retval : Z)
| returned (call : nat) (func : Z) (retval : Z).

(** Modelled from the spec: drwrap.c's per-thread data is missing.  One
    entry of the per-thread wrap-stack: "{return-address,
    stack-pointer-watermark, user-datum, list-of-post-callbacks}"; each
    post-callback is kept with the datum its pre-callback left. *)
Record frame : Type := {
  fr_call : nat;
  fr_func : Z;
  fr_retaddr : Z;
  fr_xsp : Z;
  fr_posts : list (wrap_entry * Z)
}.

Record machine : Type := {
  m_world : world;
  wrap_stack : list frame;
  next_call : nat;
  log : list event
}.

Definition start (w : world) : machine :=
  {| m_world := w; wrap_stack := []; next_call := O; log := [] |}.

Variable code : client_code.

(** What running the pre-callbacks of one call leaves behind. *)
Record pre_result : Type := {
  pr_wrapcxt : wrapcxt_t;
  pr_world : world;
  pr_posts : list (wrap_entry * Z);
  pr_events : list event
}.

(** Modelled from the spec: drwrap.c's handler for the entry of a wrapped
    function is missing.  The pre-callbacks of a call run in the order of
    the list, which is the order of registration.  The list of
    post-callbacks for the frame is built in the order in which they are to
    run, "the reverse order": each request is put behind those that come
    after it.  A pre-callback that calls [drwrap_skip_call] ends the
    sequence: "nor will any pre-function callbacks (if multiple were
    registered) that have not yet been called" be invoked. *)
Fixpoint run_pres (call : nat) (func : Z) (entries : list wrap_entry)
    (wc : wrapcxt_t) (w : world) : pre_result :=
  match entries with
  | [] => {| pr_wrapcxt := wc; pr_world := w; pr_posts := []; pr_events := [] |}
  | e :: rest =>
      if has_pre e then
        let s := code.(pre_code) e.(pre_cb)
                   {| cb_wrapcxt := Some wc; cb_user_data := e.(user_data);
                      cb_world := w |} in
        let wc' := default wc s.(cb_wrapcxt) in
        match wc'.(wc_skip) with
        | Some _ =>
            {| pr_wrapcxt := wc'; pr_world := s.(cb_world); pr_posts := [];
               pr_events := [pre_called call func e] |}
        | None =>
            let r := run_pres call func rest wc' s.(cb_world) in
            {| pr_wrapcxt := r.(pr_wrapcxt); pr_world := r.(pr_world);
               pr_posts := r.(pr_posts) ++ [(e, s.(cb_user_data))];
               pr_events := pre_called call func e :: r.(pr_events) |}
        end
      else
        let r := run_pres call func rest wc w in
        {| pr_wrapcxt := r.(pr_wrapcxt); pr_world := r.(pr_world);
           pr_posts := r.(pr_posts) ++ [(e, e.(user_data))];
           pr_events := r.(pr_events) |}
  end.

(** Modelled from the spec: drwrap.c's handler for the return of a wrapped
    function is missing.  The post-callbacks of a frame run in the order of
    the list, each with its datum.  [wrapcxt] is [None] on an abnormal
    unwind: "all post-calls that would be missed will still be invoked, but
    with wrapcxt set to NULL". *)
Fixpoint run_posts (call : nat) (func : Z) (posts : list (wrap_entry * Z))
    (wrapcxt : option wrapcxt_t) (w : world)
    : option wrapcxt_t * world * list event :=
  match posts with
  | [] => (wrapcxt, w, [])
  | (e, datum) :: rest =>
      if has_post e then
        let s := code.(post_code) e.(post_cb)
                   {| cb_wrapcxt := wrapcxt; cb_user_data := datum;
                      cb_world := w |} in
        let wrapcxt' :=
          match wrapcxt with
          | Some wc => Some (default wc s.(cb_wrapcxt))
          | None => None
          end in
        let '(wrapcxt'', w', evs) :=
          run_posts call func rest wrapcxt' s.(cb_world) in
        (wrapcxt'', w',
         post_called call func e
           (match wrapcxt with Some _ => false | None => true end) :: evs)
      else run_posts call func rest wrapcxt w
  end.

(** Modelled from the spec: drwrap.c's unwind detection is missing.  "the
    engine checks whether the thread's current stack pointer is above (for
    a downward-growing stack) any watermark on the wrap-stack; if so,
    frames between the current top and the new top have been unwound and
    their post-callbacks are invoked with a synthetic abnormal context
    before the frames are popped." *)
Fixpoint unwind (xsp : Z) (stack : list frame) (w : world)
    : list frame * world * list event :=
  match stack with
  | [] => ([], w, [])
  | fr :: rest =>
      if fr.(fr_xsp) <? xsp then
        let '(_, w', evs) :=
          run_posts fr.(fr_call) fr.(fr_func) fr.(fr_posts) None w in
        let '(stack', w'', evs') := unwind xsp rest w' in
        (stack', w'', evs ++ evs')
      else (stack, w, [])
  end.

Definition unwind_to (xsp : Z) (m : machine) : machine :=
  let '(stack, w, evs) := unwind xsp m.(wrap_stack) m.(m_world) in
  {| m_world := w; wrap_stack := stack; next_call := m.(next_call);
     log := m.(log) ++ evs |}.

(** The context the pre-callbacks of a call start from. *)
Definition entry_context (func retaddr : Z) (args : list Z) : wrapcxt_t :=
  {| wc_func := func; wc_where := in_pre; wc_args := args;
     wc_retaddr := retaddr; wc_retval := NULL; wc_skip := None |}.

(** Modelled from the spec: drwrap.c's handler for the entry of a wrapped
    function is missing.  Control reaches the entry of [func]: "on entry to
    a wrapped function, the engine pushes {return-address, stack-pointer-watermark, user-datum,
    list-of-post-callbacks} onto a per-thread wrap-stack", unless a
    pre-callback skipped the call: then "the engine instead redirects to
    the caller-return with the supplied return value". *)
Definition enter (func retaddr xsp : Z) (args : list Z) (m : machine)
    : machine :=
  match wraps_of m.(m_world) func with
  | [] => m
  | entries =>
      let n := m.(next_call) in
      let r := run_pres n func entries (entry_context func retaddr args)
                 m.(m_world) in
      match r.(pr_wrapcxt).(wc_skip) with
      | Some (retval, _) =>
          {| m_world := r.(pr_world); wrap_stack := m.(wrap_stack);
             next_call := S n;
             log := m.(log) ++ r.(pr_events) ++ [skipped n func retval] |}
      | None =>
          {| m_world := r.(pr_world);
             wrap_stack :=
               {| fr_call := n; fr_func := func; fr_retaddr := retaddr;
                  fr_xsp := xsp; fr_posts := r.(pr_posts) |}
               :: m.(wrap_stack);
             next_call := S n;
             log := m.(log) ++ r.(pr_events) ++
                    [body_runs n func r.(pr_wrapcxt).(wc_args)] |}
      end
  end.

(** Modelled from the spec: drwrap.c's handler for the return of a wrapped
    function is missing.  The innermost wrapped call returns to its return
    address with [retval]: its post-callbacks run on a live context and its
    frame is popped. *)
Definition leave (retval : Z) (m : machine) : machine :=
  match m.(wrap_stack) with
  | [] => m
  | fr :: rest =>
      let wc := {| wc_func := fr.(fr_func); wc_where := in_post;
                   wc_args := []; wc_retaddr := fr.(fr_retaddr);
                   wc_retval := retval; wc_skip := None |} in
      let '(wrapcxt, w, evs) :=
        run_posts fr.(fr_call) fr.(fr_func) fr.(fr_posts) (Some wc)
          m.(m_world) in
      {| m_world := w; wrap_stack := rest; next_call := m.(next_call);
         log := m.(log) ++ evs ++
                [returned fr.(fr_call) fr.(fr_func)
                   (default wc wrapcxt).(wc_retval)] |}
  end.

(** Modelled from the spec: the dispatch loop is missing.  What the
    application does, as the engine meets it at a cache exit: it reaches
    the entry of a function, the innermost wrapped call returns, or it is
    anywhere else with stack pointer [xsp].  The check for unwound frames
    is made at a function entry and at any other cache exit; a return
    pops the frame it returns from. *)
Inductive app_event : Type :=
| app_call (func retaddr xsp : Z) (args : list Z)
| app_return (retval : Z)
| cache_exit (xsp : Z).

Definition step (m : machine) (ev : app_event) : machine :=
  match ev with
  | app_call func retaddr xsp args =>
      enter func retaddr xsp args (unwind_to xsp m)
  | app_return retval => leave retval m
  | cache_exit xsp => unwind_to xsp m
  end.

Definition run (evs : list app_event) (m : machine) : machine :=
  fold_left step evs m.

Definition set_replace (t cache : gmap Z Z) (w : world) : world :=
  {| wrap_table := w.(wrap_table);
     replace_table := t;
     code_cache := cache;
     client := w.(client) |}.

(** Modelled from the spec: drwrap.c's [drwrap_replace] is missing.
    "Only one replacement is supported per target
    address.  If a replacement already exists for original, this function
    fails unless override is true, in which case it replaces the prior
    replacement.  To remove a replacement, pass NULL for replacement and
    true for override."  A change drops the fragment the code cache holds
    for [original] ("existing replaced code in the code cache will be
    flushed"; with one thread the flush is done when the call returns).
    Removing where nothing is installed leaves the table as it is and is
    reported as not successful. *)
Definition drwrap_replace (original replacement : Z) (override : bool)
    (w : world) : bool * world :=
  if replacement =? NULL then
    if override then
      (bool_decide (is_Some (w.(replace_table) !! original)),
       set_replace (delete original w.(replace_table))
                   (delete original w.(code_cache)) w)
    else (false, w)
  else
    match w.(replace_table) !! original with
    | Some _ =>
        if override then
          (true,
           set_replace (<[original := replacement]> w.(replace_table))
                       (delete original w.(code_cache)) w)
        else (false, w)
    | None =>
        (true,
         set_replace (<[original := replacement]> w.(replace_table))
                     (delete original w.(code_cache)) w)
    end.

(** Modelled from the spec: the fragment builder is missing.  Where
    control goes when the application transfers to [pc]: through the
    fragment the code cache holds for [pc], built on first use from the
    replace table ("install an atomic redirection so that executing
    orig jumps to repl instead").  A result equal to [pc] is native
    execution of the code at [pc]. *)
Definition execute (pc : Z) (w : world) : Z * world :=
  match w.(code_cache) !! pc with
  | Some target => (target, w)
  | None =>
      let target := default pc (w.(replace_table) !! pc) in
      (target,
       set_replace w.(replace_table) (<[pc := target]> w.(code_cache)) w)
  end.

(** Executing a list of addresses, one after the other. *)
Definition execute_all (pcs : list Z) (w : world) : world :=
  fold_left (fun w pc => snd (execute pc w)) pcs w.

(** The call an event belongs to. *)
Definition call_of (ev : event) : nat :=
  match ev with
  | pre_called n _ _ | post_called n _ _ _ | body_runs n _ _
  | skipped n _ _ | returned n _ _ => n
  end.

(** Counting in a log: the invocations of the pre-callback and of the
    post-callback of request [e] that belong to call [n]. *)
Definition is_pre (n : nat) (e : wrap_entry) (ev : event) : bool :=
  match ev with
  | pre_called n' _ e' => (n' =? n)%nat && entry_eqb e' e
  | _ => false
  end.

Definition is_post (n : nat) (e : wrap_entry) (ev : event) : bool :=
  match ev with
  | post_called n' _ e' _ => (n' =? n)%nat && entry_eqb e' e
  | _ => false
  end.

Fixpoint count {A : Type} (p : A -> bool) (l : list A) : nat :=
  match l with
  | [] => O
  | x :: rest => ((if p x then 1 else 0) + count p rest)%nat
  end.

Definition count_pre (n : nat) (e : wrap_entry) (l : list event) : nat :=
  count (is_pre n e) l.

Definition count_post (n : nat) (e : wrap_entry) (l : list event) : nat :=
  count (is_post n e) l.

(** How often request [e] stands in a list of post-callbacks. *)
Definition count_entry (e : wrap_entry) (posts : list (wrap_entry * Z)) : nat :=
  count (fun p => entry_eqb (fst p) e) posts.

(** The post-callbacks of [e] that call [n] still owes: those of its frame,
    while the frame is on the wrap-stack. *)
Fixpoint pending (n : nat) (e : wrap_entry) (stack : list frame) : nat :=
  match stack with
  | [] => O
  | fr :: rest =>
      ((if (fr.(fr_call) =? n)%nat then count_entry e fr.(fr_posts) else O)
       + pending n e rest)%nat
  end.

(** The calls whose function body ran, in the order of the log. *)
Definition entered (l : list event) : list nat :=
  omap (fun ev => match ev with body_runs n _ _ => Some n | _ => None end) l.

(** The post-callback invocations a frame gets: one for each of its
    requests that has a post-callback, in the order of the frame's list
    (the reverse of the order in which its pre-callbacks ran). *)
Definition posts_of (fr : frame) (abnormal : bool) : list event :=
  map (fun p => post_called fr.(fr_call) fr.(fr_func) (fst p) abnormal)
      (List.filter (fun p => has_post (fst p)) fr.(fr_posts)).

(** The pre-callback invocations of a call that is not skipped. *)
Definition pres_of (call : nat) (func : Z) (entries : list wrap_entry)
    : list event :=
  map (pre_called call func) (List.filter has_pre entries).

(** A frame whose watermark lies below the stack pointer [xsp] has been
    bypassed. *)
Definition bypassed (xsp : Z) (fr : frame) : bool := fr.(fr_xsp) <? xsp.

(** The wrap request one call of [drwrap_wrap(func, pre, post)] makes. *)
Definition request (cbs : Z * Z) : wrap_entry :=
  {| pre_cb := fst cbs; post_cb := snd cbs; user_data := NULL |}.

(** [drwrap_wrap(func, pre, post)] once for each pair of callbacks, in the
    order of the list. *)
Definition register_all (func : Z) (cbs : list (Z * Z)) (w : world) : world :=
  fold_left (fun w p => snd (drwrap_wrap func (fst p) (snd p) w)) cbs w.

(** The requests whose pre-callback (post-callback) a log shows, in the
    order of the invocations. *)
Definition pre_order (l : list event) : list wrap_entry :=
  omap (fun ev => match ev with pre_called _ _ e => Some e | _ => None end) l.

Definition post_order (l : list event) : list wrap_entry :=
  omap (fun ev => match ev with post_called _ _ e _ => Some e | _ => None end) l.

(** The log of one call of [func] that returns, with no other wrapped call
    around or inside it. *)
Definition one_call (func retaddr xsp : Z) (args : list Z) (retval : Z)
    (w : world) : list event :=
  (run [app_call func retaddr xsp args; app_return retval] (start w)).(log).

(** No pre-callback of [func] skips the call. *)
Definition not_skipped (func retaddr : Z) (args : list Z) (w : world) : Prop :=
  (run_pres O func (wraps_of w func) (entry_context func retaddr args) w)
    .(pr_wrapcxt).(wc_skip) = None.

(** The invocations a log shows, each with the number of its call, in
    the order in which they were made. *)
Definition pre_invocations (l : list event) : list (nat * wrap_entry) :=
  omap (fun ev => match ev with
                  | pre_called n _ e => Some (n, e)
                  | _ => None
                  end) l.

Definition post_invocations (l : list event) : list (nat * wrap_entry) :=
  omap (fun ev => match ev with
                  | post_called n _ e _ => Some (n, e)
                  | _ => None
                  end) l.

(** The invocations that belong to one of the calls [calls]. *)
Definition of_calls (calls : list nat) (l : list (nat * wrap_entry))
    : list (nat * wrap_entry) :=
  List.filter (fun p => existsb (Nat.eqb (fst p)) calls) l.

(** A request with a pre-callback and a post-callback. *)
Definition has_both (e : wrap_entry) : bool := has_pre e && has_post e.

(** The invocations of requests that have both callbacks. *)
Definition with_both (l : list (nat * wrap_entry))
    : list (nat * wrap_entry) :=
  List.filter (fun p => has_both (snd p)) l.

(** The pre-callback invocations a frame stands for: those of the requests
    of its list that have a pre-callback, the last of the list first. *)
Definition frame_pres (fr : frame) : list (nat * wrap_entry) :=
  map (pair fr.(fr_call)) (List.filter has_pre (rev (map fst fr.(fr_posts)))).

(** What the log keeps of the pre-callbacks: they are in the order of the
    calls, and those of a call whose frame is on the wrap-stack are the
    ones the frame stands for. *)
Record pres_recorded (m : machine) : Prop := {
  pres_sorted :
    StronglySorted (fun a b => (fst a <= fst b)%nat)
      (pre_invocations m.(log));
  pres_of_frames :
    Forall (fun fr => of_calls [fr.(fr_call)] (pre_invocations m.(log))
                      = frame_pres fr) m.(wrap_stack)
}.

(** What holds of the engine's bookkeeping at every cache exit. *)
Record consistent (m : machine) : Prop := {
  stack_calls_fresh :
    Forall (fun fr => (fr.(fr_call) < m.(next_call))%nat) m.(wrap_stack);
  stack_calls_sorted :
    StronglySorted (fun a b => (b < a)%nat) (map fr_call m.(wrap_stack));
  stack_xsp_sorted :
    StronglySorted Z.le (map fr_xsp m.(wrap_stack));
  stack_entered :
    Forall (fun fr => In fr.(fr_call) (entered m.(log))) m.(wrap_stack);
  log_calls_fresh :
    Forall (fun ev => (call_of ev < m.(next_call))%nat) m.(log);
  entered_sorted :
    StronglySorted lt (entered m.(log));
  posts_entered :
    forall n f e a, In (post_called n f e a) m.(log) -> In n (entered m.(log));
  skipped_not_entered :
    forall n f v, In (skipped n f v) m.(log) -> ~ In n (entered m.(log));
  paired :
    forall n e, has_pre e = true -> has_post e = true ->
      In n (entered m.(log)) ->
      count_pre n e m.(log) =
      (count_post n e m.(log) + pending n e m.(wrap_stack))%nat
}.

End WithClient.

Arguments wrap_table {C} _.
Arguments replace_table {C} _.
Arguments code_cache {C} _.
Arguments client {C} _.
Arguments set_wrap_table {C} _ _.
Arguments set_client {C} _ _.
Arguments set_replace {C} _ _ _.
Arguments drwrap_replace {C} _ _ _ _.
Arguments execute {C} _ _.
Arguments execute_all {C} _ _.
Arguments wraps_of {C} _ _.
Arguments drwrap_wrap_ex {C} _ _ _ _ _.
Arguments drwrap_wrap {C} _ _ _ _.
Arguments drwrap_is_wrapped {C} _ _ _ _.
Arguments drwrap_unwrap {C} _ _ _ _.
Arguments cb_wrapcxt {C} _.
Arguments cb_user_data {C} _.
Arguments cb_world {C} _.
Arguments pre_code {C} _ _ _.
Arguments post_code {C} _ _ _.
Arguments m_world {C} _.
Arguments wrap_stack {C} _.
Arguments next_call {C} _.
Arguments log {C} _.
Arguments start {C} _.
Arguments pr_wrapcxt {C} _.
Arguments pr_world {C} _.
Arguments pr_posts {C} _.
Arguments pr_events {C} _.
Arguments run_pres {C} _ _ _ _ _ _.
Arguments run_posts {C} _ _ _ _ _ _.
Arguments unwind {C} _ _ _ _.
Arguments unwind_to {C} _ _ _.
Arguments enter {C} _ _ _ _ _ _.
Arguments leave {C} _ _ _.
Arguments step {C} _ _ _.
Arguments run {C} _ _ _.
Arguments register_all {C} _ _ _.
Arguments one_call {C} _ _ _ _ _ _ _.
Arguments not_skipped {C} _ _ _ _ _.

End Drwrap.

(** ** The test client: suite/tests/client-interface/drwrap-test.dll.c *)

Module DrwrapTest.
Import Drwrap.

(** The client's [static app_pc] globals. *)
Inductive global : Type :=
| addr_replace | addr_replace2
| addr_level0 | addr_level1 | addr_level2 | addr_tailcall | addr_skipme
| addr_preonly | addr_postonly | addr_runlots
| addr_long0 | addr_long1 | addr_long2 | addr_long3 | addr_longdone.

#[global] Instance global_eq_dec : EqDecision global.
Proof. solve_decision. Defined.

(** The client's state: the globals, [load_count], the TLS slot [tls_idx]
    of the one thread, the lines written to STDERR, and whether
    [dr_abort()] was called. *)
Record client_state : Type := {
  globals : global -> Z;
  load_count : Z;
  tls_field : Z;
  stderr : list string;
  aborted : bool
}.

Definition initial_client : client_state :=
  {| globals := fun _ => NULL; load_count := 0; tls_field := 0;
     stderr := []; aborted := false |}.

Definition set_global (g : global) (v : Z) (c : client_state) : client_state :=
  {| globals := fun g' => if decide (g' = g) then v else c.(globals) g';
     load_count := c.(load_count);
     tls_field := c.(tls_field);
     stderr := c.(stderr);
     aborted := c.(aborted) |}.

Definition set_load_count (v : Z) (c : client_state) : client_state :=
  {| globals := c.(globals); load_count := v; tls_field := c.(tls_field);
     stderr := c.(stderr); aborted := c.(aborted) |}.

(** [drmgr_set_tls_field(drcontext, tls_idx, v)] *)
Definition drmgr_set_tls_field (v : Z) (c : client_state) : client_state :=
  {| globals := c.(globals); load_count := c.(load_count); tls_field := v;
     stderr := c.(stderr); aborted := c.(aborted) |}.

(** [dr_fprintf(STDERR, ...)]: one call writes one line, kept here without
    its newline. *)
Definition dr_fprintf (line : string) (c : client_state) : client_state :=
  {| globals := c.(globals); load_count := c.(load_count);
     tls_field := c.(tls_field); stderr := c.(stderr) ++ [line];
     aborted := c.(aborted) |}.

(** [dr_abort()] ends the process: nothing the client would do afterwards
    happens (see [CHECK] and [alive]). *)
Definition dr_abort (c : client_state) : client_state :=
  {| globals := c.(globals); load_count := c.(load_count);
     tls_field := c.(tls_field); stderr := c.(stderr); aborted := true |}.

(** [%d] of a small non-negative value. *)
Definition string_of_Z (z : Z) : string :=
  NilZero.string_of_int (Z.to_int z).

(** [ptr_uint_t] arithmetic wraps around (64-bit build). *)
Definition ptr_uint (z : Z) : Z := z mod 2 ^ 64.

Abbreviation test_world := (world client_state).
Abbreviation stmt := (cb_state client_state -> cb_state client_state).

Definition on_world (f : test_world -> test_world) : stmt :=
  fun s => {| cb_wrapcxt := s.(cb_wrapcxt); cb_user_data := s.(cb_user_data);
              cb_world := f s.(cb_world) |}.

Definition on_client (f : client_state -> client_state) : stmt :=
  on_world (fun w => set_client (f w.(client)) w).

Definition with_wrapcxt (wrapcxt : option wrapcxt_t) : stmt :=
  fun s => {| cb_wrapcxt := wrapcxt; cb_user_data := s.(cb_user_data);
              cb_world := s.(cb_world) |}.

(** [*user_data = v;] *)
Definition set_user_data (v : Z) : stmt :=
  fun s => {| cb_wrapcxt := s.(cb_wrapcxt); cb_user_data := v;
              cb_world := s.(cb_world) |}.

(** [#define CHECK(x, msg)]: on failure print [msg] and abort; [k] is the
    code after the macro. *)
Definition CHECK_world (x : bool) (msg : string)
    (k : test_world -> test_world) : test_world -> test_world :=
  fun w => if x then k w
           else set_client (dr_abort (dr_fprintf msg w.(client))) w.

Definition CHECK (x : bool) (msg : string) (k : stmt) : stmt :=
  fun s => if x then k s
           else on_client (fun c => dr_abort (dr_fprintf msg c)) s.

(** A callback of a process that has aborted does not run. *)
Definition alive (k : stmt) : stmt :=
  fun s => if s.(cb_world).(client).(aborted) then s else k s.

(** The addresses of the client's callbacks and of [replacewith]. *)
Definition fn_wrap_pre : Z := 0xC1000.
Definition fn_wrap_post : Z := 0xC1100.
Definition fn_wrap_unwindtest_pre : Z := 0xC1200.
Definition fn_wrap_unwindtest_post : Z := 0xC1300.
Definition fn_replacewith : Z := 0xC1400.
Definition fn_wrap_unwindtest_seh_pre : Z := 0xC1500.
Definition fn_wrap_unwindtest_seh_post : Z := 0xC1600.

Definition global_of (s : cb_state client_state) (g : global) : Z :=
  s.(cb_world).(client).(globals) g.

(** [wrap_pre], lines 274-300. *)
Definition wrap_pre : stmt := fun s =>
  let wrapcxt := s.(cb_wrapcxt) in
  (* user_data points at the engine's slot for the datum: it is not NULL *)
  CHECK (bool_decide (is_Some wrapcxt) && true) "invalid arg" (fun s =>
    if drwrap_get_func wrapcxt =? global_of s addr_level0 then
      let s := on_client (dr_fprintf "  <pre-level0>") s in
      CHECK (drwrap_get_arg wrapcxt 0 =? 37) "get_arg wrong" (fun s =>
        let '(ok, wrapcxt) := drwrap_set_arg wrapcxt 0 42 in
        CHECK ok "set_arg error" (set_user_data 99) (with_wrapcxt wrapcxt s)) s
    else if drwrap_get_func wrapcxt =? global_of s addr_level1 then
      let s := on_client (dr_fprintf "  <pre-level1>") s in
      let '(ok, wrapcxt) := drwrap_set_arg wrapcxt 1 1111 in
      CHECK ok "set_arg error" (fun s => s) (with_wrapcxt wrapcxt s)
    else if drwrap_get_func wrapcxt =? global_of s addr_tailcall then
      on_client (dr_fprintf "  <pre-makes_tailcall>") s
    else if drwrap_get_func wrapcxt =? global_of s addr_level2 then
      on_client (dr_fprintf "  <pre-level2>") s
    else if drwrap_get_func wrapcxt =? global_of s addr_skipme then
      let s := on_client (dr_fprintf "  <pre-skipme>") s in
      with_wrapcxt (snd (drwrap_skip_call wrapcxt 7 0)) s
    else if drwrap_get_func wrapcxt =? global_of s addr_preonly then
      on_client (dr_fprintf "  <pre-preonly>") s
    else CHECK false "invalid wrap" (fun s => s) s) s.

(** [drwrap_unwrap(addr, pre, post);
     CHECK(!drwrap_is_wrapped(addr, pre, post), ...);] in [wrap_post]. *)
Definition unwrap_and_check (g : global) (pre post : Z) (k : stmt) : stmt :=
  fun s =>
    let s := on_world (fun w => snd (drwrap_unwrap (w.(client).(globals) g)
                                       pre post w)) s in
    CHECK (negb (drwrap_is_wrapped (global_of s g) pre post s.(cb_world)))
      "drwrap_is_wrapped query failed" k s.

(** [wrap_post], lines 302-337. *)
Definition wrap_post : stmt := fun s =>
  let wrapcxt := s.(cb_wrapcxt) in
  CHECK (bool_decide (is_Some wrapcxt)) "invalid arg" (fun s =>
    if drwrap_get_func wrapcxt =? global_of s addr_level0 then
      let s := on_client (dr_fprintf "  <post-level0>") s in
      (* not preserved for no-frills *)
      CHECK ((s.(cb_world).(client).(load_count) =? 2) ||
             (s.(cb_user_data) =? 99)) "user_data not preserved"
        (CHECK (drwrap_get_retval wrapcxt =? 42) "get_retval error"
           (fun s => s)) s
    else if drwrap_get_func wrapcxt =? global_of s addr_level1 then
      let s := on_client (dr_fprintf "  <post-level1>") s in
      let '(ok, wrapcxt) := drwrap_set_retval wrapcxt (-4) in
      CHECK ok "set_retval error" (fun s => s) (with_wrapcxt wrapcxt s)
    else if drwrap_get_func wrapcxt =? global_of s addr_tailcall then
      on_client (dr_fprintf "  <post-makes_tailcall>") s
    else if drwrap_get_func wrapcxt =? global_of s addr_level2 then
      on_client (dr_fprintf "  <post-level2>") s
    else if drwrap_get_func wrapcxt =? global_of s addr_skipme then
      CHECK false "should have skipped!" (fun s => s) s
    else if drwrap_get_func wrapcxt =? global_of s addr_postonly then
      let s := on_client (dr_fprintf "  <post-postonly>") s in
      unwrap_and_check addr_skipme fn_wrap_pre fn_wrap_post
        (unwrap_and_check addr_postonly NULL fn_wrap_post
           (unwrap_and_check addr_runlots NULL fn_wrap_post (fun s => s))) s
    else if drwrap_get_func wrapcxt =? global_of s addr_runlots then
      on_client (dr_fprintf "  <post-runlots>") s
    else CHECK false "invalid wrap" (fun s => s) s) s.

(** [wrap_unwindtest_pre], lines 339-350. *)
Definition wrap_unwindtest_pre : stmt := fun s =>
  if negb (drwrap_get_func s.(cb_wrapcxt) =? global_of s addr_longdone) then
    let val := s.(cb_world).(client).(tls_field) in
    let s := on_client (dr_fprintf
                          ("  <pre-long" +:+ string_of_Z val +:+ ">")) s in
    (* increment per level of regular calls on way up *)
    let val := ptr_uint (val + 1) in
    on_client (drmgr_set_tls_field val) s
  else s.

(** [wrap_unwindtest_post], lines 352-367. *)
Definition wrap_unwindtest_post : stmt := fun s =>
  let val := s.(cb_world).(client).(tls_field) in
  if drwrap_get_func s.(cb_wrapcxt) =? global_of s addr_longdone then
    (* ensure our post-calls were all called and we got back to 0 *)
    CHECK (val =? 0) "post-calls were bypassed" (fun s => s) s
  else
    (* decrement on way down *)
    let val := ptr_uint (val - 1) in
    let s := on_client
               (dr_fprintf
                  ("  <post-long" +:+ string_of_Z val +:+
                   (match s.(cb_wrapcxt) with
                    | None => " abnormal"
                    | Some _ => ""
                    end) +:+ ">")) s in
    on_client (drmgr_set_tls_field val) s.

(** [wrap_unwindtest_seh_pre] and [wrap_unwindtest_seh_post], lines
    369-379: the second pair the test registers on long0 .. longdone. *)
Definition wrap_unwindtest_seh_pre : stmt := wrap_unwindtest_pre.
Definition wrap_unwindtest_seh_post : stmt := wrap_unwindtest_post.

(** The client's code by address. *)
Definition test_code : client_code client_state :=
  {| pre_code := fun fn =>
       if fn =? fn_wrap_pre then alive wrap_pre
       else if fn =? fn_wrap_unwindtest_pre then alive wrap_unwindtest_pre
       else if fn =? fn_wrap_unwindtest_seh_pre
            then alive wrap_unwindtest_seh_pre
       else fun s => s;
     post_code := fun fn =>
       if fn =? fn_wrap_post then alive wrap_post
       else if fn =? fn_wrap_unwindtest_post then alive wrap_unwindtest_post
       else if fn =? fn_wrap_unwindtest_seh_post
            then alive wrap_unwindtest_seh_post
       else fun s => s |}.

Section WithModule.
(** [dr_get_proc_address(mod->handle, name)] for the module being loaded. *)
Variable dr_get_proc_address : string -> Z.

(** [wrap_addr], lines 79-90. *)
Definition wrap_addr (addr : global) (name : string) (pre post : bool)
    (k : test_world -> test_world) : test_world -> test_world :=
  fun w =>
    let a := dr_get_proc_address name in
    let w := set_client (set_global addr a w.(client)) w in
    CHECK_world (negb (a =? NULL)) "cannot find lib export" (fun w =>
      let pre_fn := if pre then fn_wrap_pre else NULL in
      let post_fn := if post then fn_wrap_post else NULL in
      let '(ok, w) := drwrap_wrap a pre_fn post_fn w in
      CHECK_world ok "wrap failed"
        (CHECK_world (drwrap_is_wrapped a pre_fn post_fn w)
           "drwrap_is_wrapped query failed" k) w) w.

(** [wrap_unwindtest_addr], lines 103-113. *)
Definition wrap_unwindtest_addr (addr : global) (name : string)
    (k : test_world -> test_world) : test_world -> test_world :=
  fun w =>
    let a := dr_get_proc_address name in
    let w := set_client (set_global addr a w.(client)) w in
    CHECK_world (negb (a =? NULL)) "cannot find lib export" (fun w =>
      let '(ok, w) :=
        drwrap_wrap a fn_wrap_unwindtest_pre fn_wrap_unwindtest_post w in
      CHECK_world ok "wrap unwindtest failed"
        (CHECK_world
           (drwrap_is_wrapped a fn_wrap_unwindtest_pre
              fn_wrap_unwindtest_post w)
           "drwrap_is_wrapped query failed" k) w) w.

(** [module_load_event], lines 125-191, for the test's application library
    on a build without WINDOWS.  Two calls are left out because drwrap.h
    does not declare what they call: [drwrap_set_global_flags
    (DRWRAP_NO_FRILLS)] on the second load and [drwrap_replace_native]. *)
Definition module_load_event : test_world -> test_world :=
  fun w =>
    let w := set_client
               (set_load_count (w.(client).(load_count) + 1) w.(client)) w in
    let a := dr_get_proc_address "replaceme" in
    let w := set_client (set_global addr_replace a w.(client)) w in
    CHECK_world (negb (a =? NULL)) "cannot find lib export" (fun w =>
      let '(ok, w) := drwrap_replace a fn_replacewith false w in
      CHECK_world ok "replace failed" (fun w =>
        let a2 := dr_get_proc_address "replaceme2" in
        let w := set_client (set_global addr_replace2 a2 w.(client)) w in
        CHECK_world (negb (a2 =? NULL)) "cannot find lib export"
          (wrap_addr addr_level0 "level0" true true
          (wrap_addr addr_level1 "level1" true true
          (wrap_addr addr_level2 "level2" true true
          (wrap_addr addr_tailcall "makes_tailcall" true true
          (wrap_addr addr_skipme "skipme" true true
          (wrap_addr addr_preonly "preonly" true false
          (wrap_addr addr_postonly "postonly" false true
          (wrap_addr addr_runlots "runlots" false true
          (* test longjmp *)
          (wrap_unwindtest_addr addr_long0 "long0"
          (wrap_unwindtest_addr addr_long1 "long1"
          (wrap_unwindtest_addr addr_long2 "long2"
          (wrap_unwindtest_addr addr_long3 "long3"
          (wrap_unwindtest_addr addr_longdone "longdone"
          (fun w => set_client (drmgr_set_tls_field 0 w.(client)) w))))))))))))))
          w) w) w.

(** The start of [module_unload_event], lines 199-200:
    [ok = drwrap_replace(addr_replace, NULL, true);
     CHECK(ok, "un-replace failed");] *)
Definition module_unload_event_unreplace : test_world -> test_world :=
  fun w =>
    let '(ok, w) :=
      drwrap_replace (w.(client).(globals) addr_replace) NULL true w in
    CHECK_world ok "un-replace failed" (fun w => w) w.

End WithModule.

(** Modelled from the spec: the application library the client wraps
    (client.drwrap-test.appdll) is missing.  Its exports get addresses
    here; its runs are the scenarios S3 and S4 of the specification, as the
    sequence of calls, returns and stack pointers the engine meets. *)
Definition appdll (name : string) : Z :=
  if String.eqb name "replaceme" then 0x401000
  else if String.eqb name "replaceme2" then 0x401100
  else if String.eqb name "level0" then 0x401200
  else if String.eqb name "level1" then 0x401300
  else if String.eqb name "level2" then 0x401400
  else if String.eqb name "makes_tailcall" then 0x401500
  else if String.eqb name "skipme" then 0x401600
  else if String.eqb name "preonly" then 0x401700
  else if String.eqb name "postonly" then 0x401800
  else if String.eqb name "runlots" then 0x401900
  else if String.eqb name "long0" then 0x402000
  else if String.eqb name "long1" then 0x402100
  else if String.eqb name "long2" then 0x402200
  else if String.eqb name "long3" then 0x402300
  else if String.eqb name "longdone" then 0x402400
  else NULL.

(** The engine once the client has seen the library load. *)
Definition loaded : machine client_state :=
  start (module_load_event appdll
           {| wrap_table := ∅; replace_table := ∅; code_cache := ∅;
              client := initial_client |}).

(** Modelled from the spec: the application library is missing.  S4: long0
    calls long1, long1 calls long2, long2 calls long3. *)
Definition long_calls : list app_event :=
  [app_call (appdll "long0") 0x400100 0x7000 [];
   app_call (appdll "long1") 0x402010 0x6f00 [];
   app_call (appdll "long2") 0x402110 0x6e00 [];
   app_call (appdll "long3") 0x402210 0x6d00 []].

(** Modelled from the spec: the application library is missing.  S4: long3
    "performs a nonlocal jump bypassing long2's and long1's returns,
    eventually reaching longdone": the jump takes the stack pointer to
    [landing]; long0 returns when the jump landed inside it; then longdone
    is called and returns.  With [landing] above 0x7000 the jump leaves
    long0 as well and lands in its caller. *)
Definition unwind_scenario (landing : Z) : list app_event :=
  long_calls ++
  [cache_exit landing] ++
  (if landing <=? 0x7000 then [app_return 0] else []) ++
  [app_call (appdll "longdone") 0x400200 0x7000 []; app_return 0].

(** S4 as it is worded: the jump lands inside long0, below the watermark
    0x7000 of long0 and above the watermark 0x6f00 of long1. *)
Definition inside_long0 : Z := 0x6ff0.

(** The functions of the unwind test whose callbacks count: long0 ..
    long3. *)
Definition is_long (func : Z) : bool :=
  (func =? appdll "long0") || (func =? appdll "long1") ||
  (func =? appdll "long2") || (func =? appdll "long3").

(** An application that calls no wrapped function but long0 .. long3. *)
Definition calls_long (ev : app_event) : bool :=
  match ev with
  | app_call func _ _ _ => is_long func
  | _ => true
  end.

(** The request [wrap_unwindtest_addr] makes. *)
Definition unwindtest_request : wrap_entry :=
  request (fn_wrap_unwindtest_pre, fn_wrap_unwindtest_post).

(** What a callback of the unwind test leaves as it was. *)
Definition same_but_counter (s s' : cb_state client_state) : Prop :=
  s'.(cb_wrapcxt) = s.(cb_wrapcxt) /\
  s'.(cb_user_data) = s.(cb_user_data) /\
  s'.(cb_world).(wrap_table) = s.(cb_world).(wrap_table) /\
  s'.(cb_world).(client).(globals) = s.(cb_world).(client).(globals) /\
  s'.(cb_world).(client).(aborted) = s.(cb_world).(client).(aborted).

(** The world the callbacks of the unwind test work in: the wrap table and
    the globals are those the load left, and the client has not aborted. *)
Definition unwindtest_world (w : test_world) : Prop :=
  w.(wrap_table) = loaded.(m_world).(wrap_table) /\
  (forall g, w.(client).(globals) g
             = loaded.(m_world).(client).(globals) g) /\
  w.(client).(aborted) = false.

(** A frame of one of long0 .. long3, with the test's request. *)
Definition unwindtest_frame (fr : frame) : Prop :=
  is_long fr.(fr_func) = true /\
  fr.(fr_posts) = [(unwindtest_request, NULL)].

(** What stays true of the unwind test while the application runs long0 ..
    long3: the counter in the TLS slot is the number of frames on the
    wrap-stack. *)
Record unwindtest_inv (m : machine client_state) : Prop := {
  inv_world : unwindtest_world m.(m_world);
  inv_frames : Forall unwindtest_frame m.(wrap_stack);
  inv_counter :
    m.(m_world).(client).(tls_field)
    = ptr_uint (Z.of_nat (length m.(wrap_stack)))
}.

(** The counter in the TLS slot after each step of the application. *)
Fixpoint counter_trace (evs : list app_event) (m : machine client_state)
    : list Z :=
  match evs with
  | [] => []
  | ev :: evs =>
      let m' := step test_code m ev in
      m'.(m_world).(client).(tls_field) :: counter_trace evs m'
  end.

(** A world in which nothing is wrapped or replaced yet. *)
Definition fresh_world : test_world :=
  {| wrap_table := ∅; replace_table := ∅; code_cache := ∅;
     client := initial_client |}.

(** The two pairs of callbacks the test registers on long0 when built for
    WINDOWS (lines 109 and 168-170), in the order it registers them. *)
Definition long0_callbacks : list (Z * Z) :=
  [(fn_wrap_unwindtest_pre, fn_wrap_unwindtest_post);
   (fn_wrap_unwindtest_seh_pre, fn_wrap_unwindtest_seh_post)].

(** Modelled from the spec: the application library is missing.  S3: the
    application calls skipme(4). *)
Definition skip_scenario : list app_event :=
  [app_call (appdll "skipme") 0x400300 0x7000 [4]].

End DrwrapTest.

(** ** Copy-on-write protections: core/win32/os.c, lines 1411-1537 *)

Module Writecopy.
Import Macros Prot.

Section WithConstants.
Variable c : constants.

(** [prot_string]: the four letters a protection is logged as. *)
Definition prot_string (prot : Z) : string :=
  let ignore_extras := strip_qualifiers c prot in
  if ignore_extras =? c.(PAGE_NOACCESS) then "----"
  else if ignore_extras =? c.(PAGE_READONLY) then "r---"
  else if ignore_extras =? c.(PAGE_READWRITE) then "rw--"
  else if ignore_extras =? c.(PAGE_WRITECOPY) then "rw-c"
  else if ignore_extras =? c.(PAGE_EXECUTE) then "--x-"
  else if ignore_extras =? c.(PAGE_EXECUTE_READ) then "r-x-"
  else if ignore_extras =? c.(PAGE_EXECUTE_READWRITE) then "rwx-"
  else if ignore_extras =? c.(PAGE_EXECUTE_WRITECOPY) then "rwxc"
  else "(error)".

(** true when page hasn't been written to *)
Definition prot_is_copyonwrite (prot : Z) : bool :=
  let prot := strip_qualifiers c prot in
  TESTANY (Z.lor c.(PAGE_WRITECOPY) c.(PAGE_EXECUTE_WRITECOPY)) prot.

(** [osprot_add_writecopy]: the value returned.  On the [default:] label the
    function runs into ASSERT_NOT_REACHED and, in a release build, returns
    [prot] as it came. *)
Definition osprot_add_writecopy (prot : Z) : Z :=
  let pr := strip_qualifiers c prot in
  if pr =? c.(PAGE_READWRITE) then
    Z.lor (Z.land prot (uint_not pr)) c.(PAGE_WRITECOPY)
  else if pr =? c.(PAGE_EXECUTE_READWRITE) then
    Z.lor (Z.land prot (uint_not pr)) c.(PAGE_EXECUTE_WRITECOPY)
  else prot.

(** The [switch] of [osprot_add_writecopy] takes one of its two [case]
    labels: ASSERT_NOT_REACHED is not run. *)
Definition osprot_add_writecopy_asserts (prot : Z) : bool :=
  let pr := strip_qualifiers c prot in
  (pr =? c.(PAGE_READWRITE)) || (pr =? c.(PAGE_EXECUTE_READWRITE)).

Definition osprot_replace_memprot (old_osprot memprot : Z) : Z :=
  let old_qualifiers := Z.land old_osprot c.(PAGE_PROTECTION_QUALIFIERS) in
  let new_osprot := memprot_to_osprot c memprot in
  (* preserve any old WRITECOPY 'flag' if page hasn't been touched *)
  let new_osprot :=
    if prot_is_copyonwrite old_osprot && prot_is_writable c new_osprot
    then osprot_add_writecopy new_osprot else new_osprot in
  Z.lor new_osprot old_qualifiers.

(** The assertions run by a call of [osprot_replace_memprot]: the one of
    [osprot_add_writecopy], on the path that calls it. *)
Definition osprot_replace_memprot_asserts (old_osprot memprot : Z) : bool :=
  let new_osprot := memprot_to_osprot c memprot in
  if prot_is_copyonwrite old_osprot && prot_is_writable c new_osprot
  then osprot_add_writecopy_asserts new_osprot else true.

End WithConstants.
End Writecopy.

(** ** Virtual memory as the kernel reports it *)

Module Mem.

(** The fields of MEMORY_BASIC_INFORMATION that os.c reads. *)
Record MEMORY_BASIC_INFORMATION : Type := {
  BaseAddress : Z;
  AllocationBase : Z;
  RegionSize : Z;
  State : Z;
  Protect : Z
}.

(** Constants of winnt.h and of the engine's headers; neither is among the
    sources.  POINTER_MAX is the largest value of a pointer and of a
    [size_t]. *)
Record constants : Type := {
  MEM_COMMIT : Z;
  MEM_RESERVE : Z;
  MEM_FREE : Z;
  PAGE_GUARD : Z;
  PAGE_SIZE : Z;
  POINTER_MAX : Z
}.

(** Pointer and [size_t] arithmetic wraps around. *)
Definition wrap (k : constants) (x : Z) : Z := x mod (k.(POINTER_MAX) + 1).

Definition NULL : Z := 0.

(** A block as the kernel reports it for the address [a]: [a] lies inside
    the block, and the size of the block fits a [size_t]. *)
Definition block_contains (k : constants) (a : Z)
    (mbi : MEMORY_BASIC_INFORMATION) : Prop :=
  mbi.(BaseAddress) <= a < mbi.(BaseAddress) + mbi.(RegionSize) /\
  mbi.(RegionSize) <= k.(POINTER_MAX).

(** The values on 32-bit Windows. *)
Definition win32 : constants := {|
  MEM_COMMIT := 0x1000;
  MEM_RESERVE := 0x2000;
  MEM_FREE := 0x10000;
  PAGE_GUARD := 0x100;
  PAGE_SIZE := 4096;
  POINTER_MAX := 2 ^ 32 - 1
|}.

(** An address space to run the code on: a list of blocks.  The kernel
    answers a query with the first block that holds the address (and whose
    size fits a [size_t]). *)
Definition block_at (k : constants) (blocks : list MEMORY_BASIC_INFORMATION)
    (a : Z) : option MEMORY_BASIC_INFORMATION :=
  List.find (fun mbi =>
               (mbi.(BaseAddress) <=? a) &&
               (a <? mbi.(BaseAddress) + mbi.(RegionSize)) &&
               (mbi.(RegionSize) <=? k.(POINTER_MAX)))
            blocks.

Definition set_Protect (flags : Z) (mbi : MEMORY_BASIC_INFORMATION)
    : MEMORY_BASIC_INFORMATION :=
  {| BaseAddress := mbi.(BaseAddress);
     AllocationBase := mbi.(AllocationBase);
     RegionSize := mbi.(RegionSize);
     State := mbi.(State);
     Protect := flags |}.

(** A protect call on that address space: it succeeds, and the blocks that
    lie inside the range get the new protection. *)
Definition protect_blocks (blocks : list MEMORY_BASIC_INFORMATION)
    (pc size flags : Z) : bool * list MEMORY_BASIC_INFORMATION :=
  (true,
   map (fun mbi =>
          if (pc <=? mbi.(BaseAddress)) &&
             (mbi.(BaseAddress) + mbi.(RegionSize) <=? pc + size)
          then set_Protect flags mbi else mbi)
       blocks).

(** The macro ALIGN_BACKWARD as it is commonly written:
    [x & ~(alignment - 1)]. *)
Definition align_backward (x alignment : Z) : Z :=
  Z.land x (Z.lnot (alignment - 1)).

(** Seven blocks on 32-bit Windows: the first 64K are free; one allocation at
    0x10000 holds a read-only page, two read-write pages, a guard page and
    reserved pages up to 0x20000; a second allocation at 0x20000 is one
    page of code; the rest is free. *)
Definition sample_blocks : list MEMORY_BASIC_INFORMATION :=
  [ {| BaseAddress := 0; AllocationBase := 0; RegionSize := 0x10000;
       State := 0x10000; Protect := 0x01 |};
    {| BaseAddress := 0x10000; AllocationBase := 0x10000;
       RegionSize := 0x1000; State := 0x1000; Protect := 0x02 |};
    {| BaseAddress := 0x11000; AllocationBase := 0x10000;
       RegionSize := 0x2000; State := 0x1000; Protect := 0x04 |};
    {| BaseAddress := 0x13000; AllocationBase := 0x10000;
       RegionSize := 0x1000; State := 0x1000; Protect := 0x104 |};
    {| BaseAddress := 0x14000; AllocationBase := 0x10000;
       RegionSize := 0xC000; State := 0x2000; Protect := 0 |};
    {| BaseAddress := 0x20000; AllocationBase := 0x20000;
       RegionSize := 0x1000; State := 0x1000; Protect := 0x20 |};
    {| BaseAddress := 0x21000; AllocationBase := 0;
       RegionSize := 2 ^ 32 - 0x21000; State := 0x10000; Protect := 0x01 |} ].

End Mem.

(** ** Changing page protections: core/win32/os.c, lines 3830-4121 *)

Module ChangeProtection.
Import Macros Prot Writecopy Mem.

(** One call [protect_virtual_memory(pc, size, flags, &old_prot)]. *)
Record protect_call : Type := {
  call_pc : Z;
  call_size : Z;
  call_flags : Z
}.

Section WithKernel.
Variable c : Prot.constants.
Variable k : Mem.constants.
(** The state of the address space, with the two kernel calls the function
    makes: [query_virtual_memory] gives the block an address lies in (or
    fails), [protect_virtual_memory] answers whether it succeeded and leaves
    a new state.  Both are in ntdll.c, which is not among the sources. *)
Variable os : Type.
Variable query_virtual_memory : os -> Z -> option MEMORY_BASIC_INFORMATION.
Variable protect_virtual_memory : os -> Z -> Z -> Z -> bool * os.

(** The locals of [internal_change_protection] that live across iterations,
    the address space, and the protect calls made so far. *)
Record progress : Type := {
  pc : Z;
  remaining_size : Z;
  changed_permissions : bool;
  subregions_failed : bool;
  memory : os;
  protect_calls : list protect_call
}.

(** The two [switch (flags)] statements of the relative mode: the new flags,
    or [None] for [goto skip] (which the [default:] labels also do, after
    ASSERT_NOT_REACHED). *)
Definition relative_flags (writable cow : bool) (flags : Z) : option Z :=
  if writable then
    let new_flags :=
      if flags =? c.(PAGE_NOACCESS) then Some c.(PAGE_READWRITE)
      else if flags =? c.(PAGE_READONLY) then Some c.(PAGE_READWRITE)
      else if flags =? c.(PAGE_READWRITE) then None
      else if flags =? c.(PAGE_WRITECOPY) then None
      else if flags =? c.(PAGE_EXECUTE) then Some c.(PAGE_EXECUTE_READWRITE)
      else if flags =? c.(PAGE_EXECUTE_READ) then Some c.(PAGE_EXECUTE_READWRITE)
      else if flags =? c.(PAGE_EXECUTE_READWRITE) then None
      else if flags =? c.(PAGE_EXECUTE_WRITECOPY) then None
      else None in
    match new_flags with
    | Some new_flags =>
        Some (if cow then osprot_add_writecopy c new_flags else new_flags)
    | None => None
    end
  else
    if flags =? c.(PAGE_NOACCESS) then None
    else if flags =? c.(PAGE_READONLY) then None
    else if flags =? c.(PAGE_READWRITE) then Some c.(PAGE_READONLY)
    else if flags =? c.(PAGE_WRITECOPY) then Some c.(PAGE_READONLY)
    else if flags =? c.(PAGE_EXECUTE) then None
    else if flags =? c.(PAGE_EXECUTE_READ) then None
    else if flags =? c.(PAGE_EXECUTE_READWRITE) then Some c.(PAGE_EXECUTE_READ)
    else if flags =? c.(PAGE_EXECUTE_WRITECOPY) then Some c.(PAGE_EXECUTE_READ)
    else None.

(** The flags handed to [protect_virtual_memory] for a block whose
    protection is [protect], or [None] when the block is skipped. *)
Definition new_flags_for (set writable cow : bool) (new_prot protect : Z)
    : option Z :=
  let flags := strip_qualifiers c protect in
  match (if set then Some new_prot else relative_flags writable cow flags) with
  | Some new_flags =>
      (* preserve other flags *)
      Some (Z.lor (Z.land protect (uint_not flags)) new_flags)
  | None => None
  end.

(** [skip: pc += subregion_size; remaining_size -= subregion_size;] *)
Definition skip (subregion_size : Z) (s : progress) : progress :=
  {| pc := wrap k (s.(pc) + subregion_size);
     remaining_size := wrap k (s.(remaining_size) - subregion_size);
     changed_permissions := s.(changed_permissions);
     subregions_failed := s.(subregions_failed);
     memory := s.(memory);
     protect_calls := s.(protect_calls) |}.

Definition mark_failed (s : progress) : progress :=
  {| pc := s.(pc);
     remaining_size := s.(remaining_size);
     changed_permissions := s.(changed_permissions);
     subregions_failed := true;
     memory := s.(memory);
     protect_calls := s.(protect_calls) |}.

(** The call of [protect_virtual_memory] and the two assignments after
    it. *)
Definition protect (subregion_size new_flags : Z) (s : progress) : progress :=
  let '(res, after) :=
    protect_virtual_memory s.(memory) s.(pc) subregion_size new_flags in
  {| pc := s.(pc);
     remaining_size := s.(remaining_size);
     changed_permissions := true;
     subregions_failed := if res then s.(subregions_failed) else true;
     memory := after;
     protect_calls :=
       s.(protect_calls) ++
       [{| call_pc := s.(pc); call_size := subregion_size;
           call_flags := new_flags |}] |}.

(** [allow_size = mbi.RegionSize - (pc - (byte * )mbi.BaseAddress)] and the
    choice of [subregion_size]. *)
Definition subregion_size_of (mbi : MEMORY_BASIC_INFORMATION) (s : progress)
    : Z :=
  let allow_size := wrap k (mbi.(RegionSize) - (s.(pc) - mbi.(BaseAddress))) in
  if allow_size <? s.(remaining_size) then allow_size
  else s.(remaining_size).

(** One pass through the body of the [do ... while] loop: [inl] when the
    pass leaves by [goto finish], [inr] when it reaches the loop test. *)
Definition region (set writable cow : bool) (new_prot : Z) (s : progress)
    : progress + progress :=
  match query_virtual_memory s.(memory) s.(pc) with
  | None => inl s
  | Some mbi =>
      let subregion_size := subregion_size_of mbi s in
      if mbi.(State) =? k.(MEM_RESERVE) then inr (skip subregion_size s)
      else if mbi.(State) =? k.(MEM_FREE) then inl (mark_failed s)
      else
        match new_flags_for set writable cow new_prot mbi.(Protect) with
        | None => inr (skip subregion_size s)
        | Some new_flags =>
            inr (skip subregion_size (protect subregion_size new_flags s))
        end
  end.

(** The loop; [None] when [fuel] passes did not finish it. *)
Fixpoint regions (fuel : nat) (set writable cow : bool) (new_prot : Z)
    (s : progress) : option progress :=
  match fuel with
  | O => None
  | S fuel =>
      match region set writable cow new_prot s with
      | inl s => Some s
      | inr s =>
          if 0 <? s.(remaining_size)
          then regions fuel set writable cow new_prot s
          else Some s
      end
  end.

(** The loop after at most [fuel] passes, whether it has finished by then
    or not: the locals at that moment. *)
Fixpoint regions_upto (fuel : nat) (set writable cow : bool) (new_prot : Z)
    (s : progress) : progress :=
  match fuel with
  | O => s
  | S fuel =>
      match region set writable cow new_prot s with
      | inl s => s
      | inr s =>
          if 0 <? s.(remaining_size)
          then regions_upto fuel set writable cow new_prot s
          else s
      end
  end.

(** What a caller of [internal_change_protection] gets: the returned
    [bool], [*changed_protection], the address space afterwards, and the
    protect calls that were made. *)
Record result : Type := {
  ret : bool;
  changed_protection : bool;
  memory_after : os;
  calls_made : list protect_call
}.

Definition internal_change_protection (fuel : nat) (m : os)
    (start requested_size : Z) (set writable cow : bool) (new_prot : Z)
    : option result :=
  let s := {| pc := start; remaining_size := requested_size;
              changed_permissions := false; subregions_failed := false;
              memory := m; protect_calls := [] |} in
  match regions fuel set writable cow new_prot s with
  | Some s =>
      Some {| ret := negb s.(subregions_failed);
              changed_protection := s.(changed_permissions);
              memory_after := s.(memory);
              calls_made := s.(protect_calls) |}
  | None => None
  end.

(** The protect calls [internal_change_protection] has made by the end of
    at most [fuel] passes of its loop. *)
Definition calls_upto (fuel : nat) (m : os) (start requested_size : Z)
    (set writable cow : bool) (new_prot : Z) : list protect_call :=
  let s := {| pc := start; remaining_size := requested_size;
              changed_permissions := false; subregions_failed := false;
              memory := m; protect_calls := [] |} in
  (regions_upto fuel set writable cow new_prot s).(protect_calls).

(** requires that pc is page aligned and size is multiple of the page size
    and marks that memory writable, preserves other flags *)
Definition make_writable (fuel : nat) (m : os) (pc size : Z) : option result :=
  internal_change_protection fuel m pc size false true false 0.

(** marks that memory writable and copy-on-write, preserving other flags *)
Definition make_copy_on_writable (fuel : nat) (m : os) (pc size : Z)
    : option result :=
  internal_change_protection fuel m pc size false true true 0.

(** marks that memory NOT writable, preserves other flags *)
Definition make_unwritable (fuel : nat) (m : os) (pc size : Z)
    : option result :=
  internal_change_protection fuel m pc size false false false 0.

End WithKernel.

(** The range of a protect call lies inside [lo, hi). *)
Definition call_within (lo hi : Z) (call : protect_call) : Prop :=
  lo <= call.(call_pc) /\ 0 < call.(call_size) /\
  call.(call_pc) + call.(call_size) <= hi.

(** One protect call ends where the other begins, or before. *)
Definition call_before (a b : protect_call) : Prop :=
  a.(call_pc) + a.(call_size) <= b.(call_pc).

End ChangeProtection.

(** ** Queries about the address space: core/win32/os.c, lines 3493-3818 *)

Module Query.
Import Macros Prot Mem.

Section WithKernel.
Variable c : Prot.constants.
Variable k : Mem.constants.
(** [query_virtual_memory(pc, &mbi, sizeof(mbi))]: the block it fills
    [mbi] with, or [None] when the result is not [sizeof(mbi)]. *)
Variable query_virtual_memory : Z -> option MEMORY_BASIC_INFORMATION.
(** The macro [ALIGN_BACKWARD] is defined in a header that is not among the
    sources. *)
Variable ALIGN_BACKWARD : Z -> Z -> Z.

(** Returns base of the "allocation region" containing pc for allocated
    memory; NULL for free memory or invalid user mode addresses. *)
Definition get_allocation_base (pc : Z) : Z :=
  match query_virtual_memory pc with
  | None => NULL
  | Some mbi =>
      if mbi.(State) =? k.(MEM_FREE) then NULL else mbi.(AllocationBase)
  end.

(** [enum { MAX_QUERY_VM_BLOCKS = 512*1024 };] *)
Definition MAX_QUERY_VM_BLOCKS : nat := Z.to_nat (512 * 1024).

(** The [do ... while (num_blocks < MAX_QUERY_VM_BLOCKS)] loop of
    [get_allocation_size], entered with [blocks_left] =
    MAX_QUERY_VM_BLOCKS - num_blocks; it gives the final [size]. *)
Fixpoint allocation_blocks (blocks_left : nat) (region_base pb size : Z) : Z :=
  match blocks_left with
  | O => size
  | S blocks_left =>
      match query_virtual_memory pb with
      | None => size
      | Some mbi =>
          if (mbi.(State) =? k.(MEM_FREE)) ||
             negb (mbi.(AllocationBase) =? region_base)
          then size
          else
            let size := wrap k (size + mbi.(RegionSize)) in
            if wrap k (pb + mbi.(RegionSize)) <? pb then size
            else allocation_blocks blocks_left region_base
                   (wrap k (pb + mbi.(RegionSize))) size
      end
  end.

(** The returned size, and the value stored through [base_pc] when that
    pointer is not NULL. *)
Definition get_allocation_size (pc : Z) : Z * Z :=
  match query_virtual_memory pc with
  | None => (0, NULL)
  | Some mbi =>
      if mbi.(State) =? k.(MEM_FREE) then (mbi.(RegionSize), NULL)
      else
        let pb_base := mbi.(BaseAddress) in
        let region_base := mbi.(AllocationBase) in
        (* start beyond queried region *)
        let pb := wrap k (pb_base + mbi.(RegionSize)) in
        let size := wrap k (pb - region_base) in
        (allocation_blocks MAX_QUERY_VM_BLOCKS region_base pb size,
         region_base)
  end.

(** The ASSERT that closes [get_allocation_size]:
    [region_base + size > pc || region_base + size == NULL]; it is reached
    on the path that runs the loop. *)
Definition get_allocation_size_asserts (pc : Z) : bool :=
  match query_virtual_memory pc with
  | None => true
  | Some mbi =>
      if mbi.(State) =? k.(MEM_FREE) then true
      else
        let '(size, region_base) := get_allocation_size pc in
        (pc <? wrap k (region_base + size)) ||
        (wrap k (region_base + size) =? NULL)
  end.

(** [None] for [false]; otherwise what is stored through [base_pc], [size]
    and [prot] (through those of them that are not NULL). *)
Definition get_memory_info (pc : Z) : option (Z * Z * Z) :=
  match query_virtual_memory pc with
  | None => None
  | Some mbi =>
      if mbi.(State) =? k.(MEM_FREE) then None
      else Some (mbi.(BaseAddress), mbi.(RegionSize),
                 osprot_to_memprot c mbi.(Protect))
  end.

(** [if (size > (size_t)((byte * )POINTER_MAX - pc))
       size = (byte * )POINTER_MAX - pc;] *)
Definition clamp_size (pc size : Z) : Z :=
  if wrap k (k.(POINTER_MAX) - pc) <? size
  then wrap k (k.(POINTER_MAX) - pc) else size.

(** The block at [check_pc] lets the page be read: committed, no guard
    page, and a readable protection. *)
Definition page_is_readable (check_pc : Z) : bool :=
  match query_virtual_memory check_pc with
  | None => false
  | Some mbi =>
      negb (negb (mbi.(State) =? k.(MEM_COMMIT)) ||
            TEST k.(PAGE_GUARD) mbi.(Protect) ||
            negb (prot_is_readable c mbi.(Protect)))
  end.

(** The [do ... while] loop of [query_is_readable_without_exception];
    [None] when [fuel] passes did not finish it. *)
Fixpoint readable_pages (fuel : nat) (pc size check_pc : Z) : option bool :=
  match fuel with
  | O => None
  | S fuel =>
      if negb (page_is_readable check_pc) then Some false
      else
        let check_pc := wrap k (check_pc + k.(PAGE_SIZE)) in
        if negb (check_pc =? 0) && (check_pc <? wrap k (pc + size))
        then readable_pages fuel pc size check_pc
        else Some true
  end.

Definition query_is_readable_without_exception (fuel : nat) (pc size : Z)
    : option bool :=
  let check_pc := ALIGN_BACKWARD pc k.(PAGE_SIZE) in
  let size := clamp_size pc size in
  readable_pages fuel pc size check_pc.

(** unlike get_memory_info() we return osprot preserving complete
    protection info.  Note errors or bad addresses are ignored and return
    PAGE_NOACCESS instead. *)
Definition get_current_protection (pc : Z) : Z :=
  match query_virtual_memory pc with
  | None => c.(PAGE_NOACCESS)
  | Some mbi =>
      if mbi.(State) =? k.(MEM_FREE) then c.(PAGE_NOACCESS)
      else mbi.(Protect)
  end.

(** The [while] loop of [not_readable]. *)
Fixpoint unreadable_pages (fuel : nat) (pc size check_pc : Z) : option bool :=
  match fuel with
  | O => None
  | S fuel =>
      if negb (check_pc =? 0) && (check_pc <? wrap k (pc + size)) then
        match query_virtual_memory check_pc with
        | None => Some true
        | Some mbi =>
            if mbi.(State) =? k.(MEM_FREE) then Some true
            else if negb (prot_is_readable c mbi.(Protect)) then Some true
            else unreadable_pages fuel pc size
                   (wrap k (check_pc + k.(PAGE_SIZE)))
        end
      else Some false
  end.

(** returns true if any byte with address from pc to pc+size-1 is
    not_readable *)
Definition not_readable (fuel : nat) (pc size : Z) : option bool :=
  let check_pc := ALIGN_BACKWARD pc k.(PAGE_SIZE) in
  let size := clamp_size pc size in
  unreadable_pages fuel pc size check_pc.

End WithKernel.

End Query.

(** ** Starting a detach from inside: core/win32/os.c, lines 5960-5975 *)

Module DetachInternal.
Import Detach.

Definition set_internal_detach (v : bool) (s : engine) : engine :=
  {| dynamo_initialized := s.(dynamo_initialized);
     dynamo_exited := s.(dynamo_exited);
     my_dcontext := s.(my_dcontext);
     dynamo_detaching_flag := s.(dynamo_detaching_flag);
     doing_detach := s.(doing_detach);
     internal_detach := v;
     allow_detach := s.(allow_detach);
     init_apc_go_native_pause := s.(init_apc_go_native_pause);
     init_apc_go_native := s.(init_apc_go_native);
     calls := s.(calls) |}.

Section WithNudge.
(** [nudge_internal(NUDGE_GENERIC(detach), NULL, 0)]: what the thread it
    creates does to the engine.  The routine is in a file that is not among
    the sources. *)
Variable nudge_internal : engine -> engine.

(** sets detach in motion and then returns *)
Definition detach_internal (s : engine) : engine :=
  let s := call SELF_UNPROTECT_DATASEC s in
  let s := set_internal_detach true s in
  (* we go ahead and re-protect though detach thread will soon un-prot *)
  let s := call SELF_PROTECT_DATASEC s in
  nudge_internal s.

End WithNudge.

End DetachInternal.

(** ** Injecting into a child process: core/win32/os.c, lines 1593-1855 *)

Module InjectChild.
Import Macros Inject.

(** The options read on the way to the injection, next to the
    follow-children family. *)
Record injection_options : Type := {
  inject_at_create_process : bool;
  vista_inject_at_create_process : bool;
  early_inject : bool;
  aslr_dr : bool
}.

(** The results of [get_process_parameter]; their header is not among the
    sources. *)
Record parameter_codes : Type := {
  GET_PARAMETER_SUCCESS : Z;
  GET_PARAMETER_NOAPPSPECIFIC : Z;
  GET_PARAMETER_BUF_TOO_SMALL : Z;
  GET_PARAMETER_FAILURE : Z
}.

(** The routines of other files that are called, with what they answer:
    for [get_process_parameter] the result and the library path it leaves
    in the buffer, for [get_process_options] the child's thin_client option
    ([None] when the options cannot be read), for [systemwide_should_inject]
    the value it stores through [rununder_mask]. *)
Record kernel : Type := {
  NT_CURRENT_PROCESS : Z;
  WINDOWS_VERSION_VISTA : Z;
  get_os_version : Z;
  get_process_id : Z;
  process_id_from_handle : Z -> Z;
  get_peb : Z -> Z;
  is_wow64_process : Z -> bool;
  get_process_parameter : Z -> Z * string;
  get_dynamorio_library_path : string;
  get_process_options : Z -> option bool;
  rununder_mask : Z -> Z;
  inject_into_new_process : Z -> string -> bool;
  inject_into_thread : Z -> string -> bool
}.

(** What the ASSERTs on the way read besides that: two values of other
    files, and whether [options_lock] is owned once [get_process_options]
    has returned (the condition of [ASSERT_OWN_READWRITE_LOCK(true,
    &options_lock)]). *)
Record debug_state : Type := {
  NT_CURRENT_THREAD : Z;
  early_inject_address : Z;
  options_lock_owned : Z -> bool
}.

(** The calls with an effect outside the process, in the order they are
    made. *)
Inductive event : Type :=
| aslr_force_dynamorio_rebase (process_handle : Z)
| inject_into_new_process_call (process_handle : Z) (library : string)
| inject_into_thread_call (process_handle : Z) (library : string)
| SYSLOG_INTERNAL_ERROR (msg : string)
| check_for_run_once (process_handle rununder_mask : Z).

Section WithEnvironment.
Variable k : Inject.constants.
Variable codes : parameter_codes.
Variable env : Inject.environment.
Variable opts : injection_options.
Variable os : kernel.
Variable dbg : debug_state.

Definition is_pid_me (pid : Z) : bool := pid =? os.(get_process_id).

Definition is_phandle_me (phandle : Z) : bool :=
  (* make the common case of NT_CURRENT_PROCESS faster *)
  if phandle =? os.(NT_CURRENT_PROCESS) then true
  else
    let pid := os.(process_id_from_handle) phandle in
    is_pid_me pid.

(** For case 8749: can't aslr dr for thin_client because cygwin apps will
    die. *)
Definition is_child_in_thin_client (process_handle : Z) : bool :=
  match os.(get_process_options) process_handle with
  | None => false
  | Some thin_client => thin_client
  end.

(** The library that is injected: the one the registry names for the
    application, or the parent's own. *)
Definition library_for (process_handle should_inject : Z) : string :=
  let '(err, library_path_buf) := os.(get_process_parameter) process_handle in
  let library := library_path_buf in
  if err =? codes.(GET_PARAMETER_SUCCESS) then library
  else if err =? codes.(GET_PARAMETER_NOAPPSPECIFIC) then
    if negb (TEST k.(INJECT_TRUE) should_inject)
    then os.(get_dynamorio_library_path) else library
  else if (err =? codes.(GET_PARAMETER_BUF_TOO_SMALL)) ||
          (err =? codes.(GET_PARAMETER_FAILURE))
  then os.(get_dynamorio_library_path)
  else library.

(** [cxt] is [None] for a NULL pointer, and otherwise holds the value of
    [cxt->CXT_XBX].  The result is the returned value with the calls
    made. *)
Definition inject_into_process (process_handle : Z) (cxt : option Z)
    (should_inject : Z) : bool * list event :=
  let library := library_for process_handle should_inject in
  let rebase :=
    if opts.(aslr_dr) && negb (process_handle =? 0) &&
       negb (is_child_in_thin_client process_handle)
    then [aslr_force_dynamorio_rebase process_handle] else [] in
  let '(res, call) :=
    if opts.(early_inject) && negb (os.(is_wow64_process) process_handle)
    then (os.(inject_into_new_process) process_handle library,
          inject_into_new_process_call process_handle library)
    else (os.(inject_into_thread) process_handle library,
          inject_into_thread_call process_handle library) in
  if negb res then
    (false,
     rebase ++ [call; SYSLOG_INTERNAL_ERROR
                        "ERROR: injection into child process failed"])
  else (true, rebase ++ [call]).

(** The two ASSERTs of [should_inject_into_process], lines 1681 and 1694:
    [ASSERT(!DYNAMO_OPTION(follow_systemwide))] where injection is left to
    the preinjector, and [ASSERT(!TEST(INJECT_EXCLUDED, should_inject))]
    when the answer is to inject. *)
Definition should_inject_into_process_asserts (process_handle : Z) : bool :=
  let opt := env.(dynamo_options) in
  if opt.(follow_children) || opt.(follow_explicit_children) ||
     opt.(follow_systemwide) then
    let should_inject := env.(systemwide_should_inject) process_handle in
    let inject := false in
    let inject :=
      if opt.(follow_systemwide) && TEST k.(INJECT_TRUE) should_inject
      then true else inject in
    let inject :=
      if negb inject && opt.(follow_explicit_children) &&
         TESTALL (Z.lor k.(INJECT_EXPLICIT) k.(INJECT_TRUE)) should_inject
      then true else inject in
    (if negb inject && opt.(follow_children) then
       if TEST k.(INJECT_TRUE) should_inject &&
          env.(systemwide_inject_enabled) &&
          negb (TEST k.(INJECT_EXPLICIT) should_inject)
       then negb opt.(follow_systemwide)
       else true
     else true) &&
    (if fst (should_inject_into_process k env process_handle true)
     then negb (TEST k.(INJECT_EXCLUDED) should_inject)
     else true)
  else true.

(** The ASSERTs of [is_child_in_thin_client], lines 1864-1869:
    [ASSERT(process_handle != NT_CURRENT_PROCESS &&
            process_handle != NT_CURRENT_THREAD && process_handle != NULL)],
    [ASSERT_OWN_READWRITE_LOCK(true, &options_lock)] and
    [ASSERT(opts != NULL)]. *)
Definition is_child_in_thin_client_asserts (process_handle : Z) : bool :=
  (negb (process_handle =? os.(NT_CURRENT_PROCESS)) &&
   negb (process_handle =? dbg.(NT_CURRENT_THREAD)) &&
   negb (process_handle =? 0)) &&
  dbg.(options_lock_owned) process_handle &&
  bool_decide (os.(get_process_options) process_handle <> None).

(** The ASSERTs [inject_into_process] meets, in their order: in the
    [switch], [ASSERT(DYNAMO_OPTION(follow_children))] where the parent's
    library replaces the global one (line 1747) and [ASSERT_NOT_REACHED()]
    under [default:] (line 1756); those of [is_child_in_thin_client] when
    it is called; [ASSERT(early_inject_address != NULL)] (line 1771) or
    [ASSERT(cxt != NULL)] (line 1782) before the injection; and
    [ASSERT_NOT_REACHED()] after an injection that failed (line 1788). *)
Definition inject_into_process_asserts (process_handle : Z) (cxt : option Z)
    (should_inject : Z) : bool :=
  let err := fst (os.(get_process_parameter) process_handle) in
  (if err =? codes.(GET_PARAMETER_SUCCESS) then true
   else if err =? codes.(GET_PARAMETER_NOAPPSPECIFIC) then
     if negb (TEST k.(INJECT_TRUE) should_inject)
     then env.(dynamo_options).(follow_children) else true
   else if (err =? codes.(GET_PARAMETER_BUF_TOO_SMALL)) ||
           (err =? codes.(GET_PARAMETER_FAILURE))
   then true
   else false) &&
  (if opts.(aslr_dr) && negb (process_handle =? 0)
   then is_child_in_thin_client_asserts process_handle else true) &&
  (if opts.(early_inject) && negb (os.(is_wow64_process) process_handle)
   then negb (dbg.(early_inject_address) =? 0)
   else bool_decide (cxt <> None)) &&
  fst (inject_into_process process_handle cxt should_inject).

Definition is_first_thread_in_new_process (process_handle cxt_xbx : Z)
    : bool :=
  let pid := os.(process_id_from_handle) process_handle in
  (pid =? 0) ||
  (negb (is_pid_me pid) && (cxt_xbx =? os.(get_peb) process_handle)).

(** Whether the call is at a point where the child can be injected into:
    the condition of the outer [if] of [maybe_inject_into_process]. *)
Definition at_inject_point (process_handle : Z) (cxt : option Z) : bool :=
  match cxt with
  | None =>
      (opts.(inject_at_create_process) ||
       ((os.(get_os_version) =? os.(WINDOWS_VERSION_VISTA)) &&
        opts.(vista_inject_at_create_process))) &&
      negb (os.(is_wow64_process) process_handle)
  | Some cxt_xbx => is_first_thread_in_new_process process_handle cxt_xbx
  end.

(** The calls [maybe_inject_into_process] makes. *)
Definition maybe_inject_into_process (process_handle : Z) (cxt : option Z)
    : list event :=
  if at_inject_point process_handle cxt then
    let '(inject, inject_settings) :=
      should_inject_into_process k env process_handle true in
    if inject then
      (* [should_inject] has been written through [&should_inject] *)
      let should_inject := default 0 inject_settings in
      let '(injected, calls) :=
        inject_into_process process_handle cxt should_inject in
      if injected
      then calls ++ [check_for_run_once process_handle
                       (os.(rununder_mask) process_handle)]
      else calls
    else []
  else [].

(** The ASSERTs run by a call of [maybe_inject_into_process]: those of
    [should_inject_into_process], its own
    [ASSERT(cxt != NULL || DYNAMO_OPTION(early_inject))] (line 1845), and
    those of [inject_into_process]. *)
Definition maybe_inject_into_process_asserts (process_handle : Z)
    (cxt : option Z) : bool :=
  if at_inject_point process_handle cxt then
    should_inject_into_process_asserts process_handle &&
    let '(inject, inject_settings) :=
      should_inject_into_process k env process_handle true in
    if inject then
      (bool_decide (cxt <> None) || opts.(early_inject)) &&
      inject_into_process_asserts process_handle cxt
        (default 0 inject_settings)
    else true
  else true.

(** The result of [get_process_parameter] is one the [switch] of
    [inject_into_process] has a case for. *)
Definition parameter_code_known (err : Z) : bool :=
  (err =? codes.(GET_PARAMETER_SUCCESS)) ||
  (err =? codes.(GET_PARAMETER_NOAPPSPECIFIC)) ||
  (err =? codes.(GET_PARAMETER_BUF_TOO_SMALL)) ||
  (err =? codes.(GET_PARAMETER_FAILURE)).

(** The conditions of the ASSERTs on the way that are decided outside the
    three functions: the child is not marked excluded, the registry read
    gave a result the [switch] knows, the ASSERTs of
    [is_child_in_thin_client] when it is called, the address for early
    injection has been found, and the injection succeeded. *)
Definition asserts_left (process_handle : Z) (cxt : option Z) : bool :=
  let should_inject := env.(systemwide_should_inject) process_handle in
  negb (TEST k.(INJECT_EXCLUDED) should_inject) &&
  parameter_code_known (fst (os.(get_process_parameter) process_handle)) &&
  (if opts.(aslr_dr) && negb (process_handle =? 0)
   then is_child_in_thin_client_asserts process_handle else true) &&
  (if opts.(early_inject) && negb (os.(is_wow64_process) process_handle)
   then negb (dbg.(early_inject_address) =? 0) else true) &&
  fst (inject_into_process process_handle cxt should_inject).

End WithEnvironment.

(** Is the call one of the two injections? *)
Definition is_injection (e : event) : bool :=
  match e with
  | inject_into_new_process_call _ _ | inject_into_thread_call _ _ => true
  | _ => false
  end.

(** What the routine behind an injection call answers. *)
Definition injection_result (os : kernel) (e : event) : bool :=
  match e with
  | inject_into_new_process_call process_handle library =>
      os.(inject_into_new_process) process_handle library
  | inject_into_thread_call process_handle library =>
      os.(inject_into_thread) process_handle library
  | _ => false
  end.

(** A parent run with -follow_children and -early_inject on a 32-bit
    system: the child 7 has no registry key of its own, the child 9 runs
    under WOW64; both injections succeed. *)
Definition sample_codes : parameter_codes :=
  {| GET_PARAMETER_SUCCESS := 0; GET_PARAMETER_NOAPPSPECIFIC := 1;
     GET_PARAMETER_BUF_TOO_SMALL := 2; GET_PARAMETER_FAILURE := 3 |}.

Definition sample_options : injection_options :=
  {| inject_at_create_process := true;
     vista_inject_at_create_process := false;
     early_inject := true;
     aslr_dr := false |}.

Definition sample_kernel : kernel :=
  {| NT_CURRENT_PROCESS := -1;
     WINDOWS_VERSION_VISTA := 5;
     get_os_version := 3;
     get_process_id := 100;
     process_id_from_handle := fun h => 200 + h;
     get_peb := fun _ => 0x7ffdf000;
     is_wow64_process := fun h => h =? 9;
     get_process_parameter := fun _ => (1, "global.dll");
     get_dynamorio_library_path := "parent.dll";
     get_process_options := fun _ => Some false;
     rununder_mask := fun _ => 0;
     inject_into_new_process := fun _ _ => true;
     inject_into_thread := fun _ _ => true |}.

(** The debug build's view of the same run: the address for early
    injection is known and [get_process_options] leaves the lock owned. *)
Definition sample_debug_state : debug_state :=
  {| NT_CURRENT_THREAD := -2;
     early_inject_address := 0x7c901000;
     options_lock_owned := fun _ => true |}.

(** The same parent with no follow option at all. *)
Definition not_following : Inject.environment :=
  {| dynamo_options :=
       {| follow_children := false;
          follow_explicit_children := false;
          follow_systemwide := false |};
     systemwide_should_inject := fun _ => 0;
     systemwide_inject_enabled := true |}.

End InjectChild.

(** ** NT file paths: core/win32/os.c, lines 4122-4210 *)

Module NtPath.

Local Open Scope char_scope.

(** [name[i]] for a C string: the i-th character, and the terminating NUL
    at the end. *)
Definition char_at (name : string) (i : nat) : ascii :=
  default "000" (String.get i name).

(** [name += n]; the code advances only over characters it has found not
    to be NUL. *)
Fixpoint advance (n : nat) (name : string) : string :=
  match n, name with
  | S n, String _ name => advance n name
  | _, _ => name
  end.

(** The characters [snwprintf(buf, buf_len, ...)] followed by
    [buf[buf_len-1] = L'\0'] leave in [buf]: the first [buf_len - 1] of the
    formatted ones. *)
Fixpoint truncate (n : nat) (s : string) : string :=
  match n, s with
  | S n, String a s => String a (truncate n s)
  | _, _ => EmptyString
  end.

(** change / to \ *)
Fixpoint backslashes (s : string) : string :=
  match s with
  | EmptyString => EmptyString
  | String a s => String (if Ascii.eqb "/" a then "\" else a) (backslashes s)
  end.

(** [name] begins with UNC, in either case. *)
Definition begins_with_UNC (name : string) : bool :=
  (Ascii.eqb (char_at name 0) "U" || Ascii.eqb (char_at name 0) "u") &&
  (Ascii.eqb (char_at name 1) "N" || Ascii.eqb (char_at name 1) "n") &&
  (Ascii.eqb (char_at name 2) "C" || Ascii.eqb (char_at name 2) "c").

(** The first part of the function: what is left of the name once its
    prefix is eaten, and [is_UNC]; [None] for [return false]. *)
Definition eat_prefix (fname : string) : option (bool * string) :=
  let is_UNC := false in
  let name := fname in
  if Ascii.eqb (char_at name 0) "\" then
    let name := advance 1 name in (* eat the first \ *)
    let after :=
      if Ascii.eqb (char_at name 0) "\" then
        if Ascii.eqb (char_at name 1) "?" then
          (* is \\?\UNC\server or \\?\c:\ type *)
          if negb (Ascii.eqb (char_at name 2) "000")
          then Some (is_UNC, advance 3 name)
          else None
        else
          (* is \\server type *)
          Some (true, name)
      else
        (* is \??\UNC\server for \??\c:\ type *)
        if negb (Ascii.eqb (char_at name 0) "000") &&
           negb (Ascii.eqb (char_at name 1) "000") &&
           negb (Ascii.eqb (char_at name 2) "000")
        then Some (is_UNC, advance 3 name)
        else None in
    match after with
    | None => None
    | Some (is_UNC, name) =>
        if negb is_UNC then
          (* we've eaten the initial \\?\ or \??\ check for UNC *)
          if begins_with_UNC name
          then Some (true, advance 3 name)
          else Some (is_UNC, name)
        else Some (is_UNC, name)
    end
  else
    (* is c:\ type *)
    Some (is_UNC, name).

(** The string left in [buf] when the function returns true, [None] when it
    returns false ([buf_len] is the number of elements of [buf], at least
    1). *)
Definition convert_to_NT_file_path (fname : string) (buf_len : nat)
    : option string :=
  match eat_prefix fname with
  | None => None
  | Some (is_UNC, name) =>
      let formatted :=
        ("\??\" +:+ (if is_UNC then "UNC" else "") +:+ name)%string in
      Some (backslashes (truncate (buf_len - 1) formatted))
  end.

End NtPath.

(** ** Options against the OS version: core/win32/os.c, lines 6923-6975 *)

Module OptionCompatibility.
Import Macros.

(** The options [os_check_option_compatibility] reads and writes. *)
Record options : Type := {
  os_aslr_version : Z;
  os_aslr : Z;
  coarse_enable_freeze : bool;
  coarse_freeze_at_unload : bool;
  use_persisted : bool;
  aslr : Z;
  aslr_cache : Z
}.

Inductive event : Type :=
| SYSLOG_INTERNAL_WARNING_ONCE (msg : string).

(** The locals and globals the function works on: [changed_options],
    [dynamo_options], and the warnings logged so far. *)
Record state : Type := {
  changed_options : bool;
  dynamo_options : options;
  warnings : list event
}.

Definition set_changed_options (s : state) : state :=
  {| changed_options := true;
     dynamo_options := s.(dynamo_options);
     warnings := s.(warnings) |}.

Definition set_options (o : options) (s : state) : state :=
  {| changed_options := s.(changed_options);
     dynamo_options := o;
     warnings := s.(warnings) |}.

Definition warn (msg : string) (s : state) : state :=
  {| changed_options := s.(changed_options);
     dynamo_options := s.(dynamo_options);
     warnings := s.(warnings) ++ [SYSLOG_INTERNAL_WARNING_ONCE msg] |}.

Definition set_coarse_enable_freeze (v : bool) (o : options) : options :=
  {| os_aslr_version := o.(os_aslr_version); os_aslr := o.(os_aslr);
     coarse_enable_freeze := v;
     coarse_freeze_at_unload := o.(coarse_freeze_at_unload);
     use_persisted := o.(use_persisted);
     aslr := o.(aslr); aslr_cache := o.(aslr_cache) |}.

Definition set_coarse_freeze_at_unload (v : bool) (o : options) : options :=
  {| os_aslr_version := o.(os_aslr_version); os_aslr := o.(os_aslr);
     coarse_enable_freeze := o.(coarse_enable_freeze);
     coarse_freeze_at_unload := v;
     use_persisted := o.(use_persisted);
     aslr := o.(aslr); aslr_cache := o.(aslr_cache) |}.

Definition set_use_persisted (v : bool) (o : options) : options :=
  {| os_aslr_version := o.(os_aslr_version); os_aslr := o.(os_aslr);
     coarse_enable_freeze := o.(coarse_enable_freeze);
     coarse_freeze_at_unload := o.(coarse_freeze_at_unload);
     use_persisted := v;
     aslr := o.(aslr); aslr_cache := o.(aslr_cache) |}.

Definition set_aslr (v : Z) (o : options) : options :=
  {| os_aslr_version := o.(os_aslr_version); os_aslr := o.(os_aslr);
     coarse_enable_freeze := o.(coarse_enable_freeze);
     coarse_freeze_at_unload := o.(coarse_freeze_at_unload);
     use_persisted := o.(use_persisted);
     aslr := v; aslr_cache := o.(aslr_cache) |}.

Definition set_aslr_cache (v : Z) (o : options) : options :=
  {| os_aslr_version := o.(os_aslr_version); os_aslr := o.(os_aslr);
     coarse_enable_freeze := o.(coarse_enable_freeze);
     coarse_freeze_at_unload := o.(coarse_freeze_at_unload);
     use_persisted := o.(use_persisted);
     aslr := o.(aslr); aslr_cache := v |}.

(** The cast [(int)] of a 32-bit unsigned value: values from 2^31 on
    become negative. *)
Definition int_of_uint (x : Z) : Z := (x + 2 ^ 31) mod 2 ^ 32 - 2 ^ 31.

Section WithVersion.
(** [get_os_version()], an [int], and a bit of the os_aslr option that is
    defined in a header which is not among the sources. *)
Variable get_os_version : Z.
Variable OS_ASLR_DISABLE_PCACHE_ALL : Z.

(** checks for compatibility OS specific options, returns true if
    modified the value of any options to make them compatible.  The
    result holds the returned [bool] in [changed_options]. *)
Definition os_check_option_compatibility (options_before : options) : state :=
  let s := {| changed_options := false; dynamo_options := options_before;
              warnings := [] |} in
  let os_has_aslr :=
    int_of_uint s.(dynamo_options).(os_aslr_version) <=? get_os_version in
  if negb os_has_aslr then s (* return false *)
  else
    let s :=
      if TEST OS_ASLR_DISABLE_PCACHE_ALL s.(dynamo_options).(os_aslr) then
        (* completely disable pcache *)
        let s :=
          if s.(dynamo_options).(coarse_enable_freeze) then
            set_changed_options
              (set_options (set_coarse_enable_freeze false s.(dynamo_options)) s)
          else s in
        let s :=
          if s.(dynamo_options).(coarse_freeze_at_unload) then
            set_changed_options
              (set_options
                 (set_coarse_freeze_at_unload false s.(dynamo_options)) s)
          else s in
        let s :=
          if s.(dynamo_options).(use_persisted) then
            set_changed_options
              (set_options (set_use_persisted false s.(dynamo_options)) s)
          else s in
        if s.(changed_options)
        then warn "pcache completely disabled, Vista+" s
        else s
      else s in
    let s :=
      if TEST OS_ASLR_DISABLE_PCACHE_ALL s.(dynamo_options).(os_aslr) then
        (* completely disable ASLR *)
        let s :=
          if negb (s.(dynamo_options).(aslr) =? 0) then
            warn "ASLR completely disabled, Vista+"
              (set_changed_options
                 (set_options (set_aslr 0 s.(dynamo_options)) s))
          else s in
        let s :=
          if negb (s.(dynamo_options).(aslr_cache) =? 0) then
            set_changed_options
              (set_options (set_aslr_cache 0 s.(dynamo_options)) s)
          else s in
        s
      else s in
    s.

End WithVersion.

End OptionCompatibility.

(** ** PC-sampling profiles: core/win32/os.c, lines 2875-3019 *)

Module Profile.
Import Mem.

(** Arithmetic on [uint] is modulo 2^32. *)
Definition uint (x : Z) : Z := x mod 2 ^ 32.

Definition sizeof_uint : Z := 4.

(** [profile_t], with the buffer as the list of its [uint] buckets. *)
Record profile_t : Type := {
  start : Z;
  end_ : Z;
  bucket_shift : Z;
  buffer : list Z;
  buffer_size : Z;
  enabled : bool;
  handle : Z
}.

Section WithKernel.
Variable k : Mem.constants.
(** The handle [nt_create_profile] gives for a range, a buffer size and a
    shift; the routine is in ntdll.c, which is not among the sources. *)
Variable nt_create_profile : Z -> Z -> Z -> Z -> Z.

(** [(((ptr_uint_t)end - (ptr_uint_t)start) >> bucket_shift) + 1)
      * sizeof(uint)] *)
Definition buffer_size_of (start end_ bucket_shift : Z) : Z :=
  wrap k ((Z.shiftr (wrap k (end_ - start)) bucket_shift + 1) * sizeof_uint).

(** The profile is the same with a global and with a thread-local
    allocation; the buffer is cleared by [memset]. *)
Definition create_profile (start end_ bucket_shift : Z) : profile_t :=
  let buffer_size := buffer_size_of start end_ bucket_shift in
  {| start := start;
     end_ := end_;
     bucket_shift := bucket_shift;
     buffer := replicate (Z.to_nat (buffer_size / sizeof_uint)) 0;
     buffer_size := buffer_size;
     enabled := false;
     handle := nt_create_profile start (uint (end_ - start))
                 (uint buffer_size) bucket_shift |}.

End WithKernel.

(** The [for] loop of [sum_profile_range], with [passes] passes to go;
    [None] when it reads outside the buffer. *)
Fixpoint sum_buckets (buffer : list Z) (passes : nat) (i ret : Z) : option Z :=
  match passes with
  | O => Some ret
  | S passes =>
      match buffer !! Z.to_nat i with
      | None => None
      | Some bucket =>
          sum_buckets buffer passes (uint (i + 1))
            (if 0 <? bucket then uint (ret + bucket) else ret)
      end
  end.

(** The ASSERT of [sum_profile_range]. *)
Definition sum_profile_range_asserts (profile : profile_t) (start end_ : Z)
    : bool :=
  let step := uint (Z.shiftl 1 profile.(bucket_shift)) in
  let start_i := uint (start - profile.(Profile.start)) / step in
  let end_i := uint (end_ - profile.(Profile.start)) / step in
  (start_i <? profile.(buffer_size) / sizeof_uint) &&
  (end_i <? profile.(buffer_size) / sizeof_uint).

(** [None] when the loop reads outside the buffer, or does not come to an
    end (with [end_i] the largest [uint], [i <= end_i] holds for ever). *)
Definition sum_profile_range (profile : profile_t) (start end_ : Z)
    : option Z :=
  let ret := 0 in
  let step := uint (Z.shiftl 1 profile.(bucket_shift)) in
  let start_i := uint (start - profile.(Profile.start)) / step in
  let end_i := uint (end_ - profile.(Profile.start)) / step in
  if end_i =? 2 ^ 32 - 1 then None
  else
    sum_buckets profile.(buffer) (Z.to_nat (end_i - start_i + 1)) start_i ret.

Definition sum_profile (profile : profile_t) : option Z :=
  sum_profile_range profile profile.(start) profile.(end_).

(** [memset(profile->buffer, 0, profile->buffer_size);] *)
Definition reset_profile (profile : profile_t) : profile_t :=
  let cleared := Z.to_nat (profile.(buffer_size) / sizeof_uint) in
  {| start := profile.(start);
     end_ := profile.(end_);
     bucket_shift := profile.(bucket_shift);
     buffer := replicate cleared 0 ++ drop cleared profile.(buffer);
     buffer_size := profile.(buffer_size);
     enabled := profile.(enabled);
     handle := profile.(handle) |}.

(** The profile after the kernel has counted samples into its buckets. *)
Definition sampled (counts : list Z) (profile : profile_t) : profile_t :=
  {| start := profile.(start);
     end_ := profile.(end_);
     bucket_shift := profile.(bucket_shift);
     buffer := counts;
     buffer_size := profile.(buffer_size);
     enabled := profile.(enabled);
     handle := profile.(handle) |}.

End Profile.

(** ** The Windows version: core/win32/os.c, lines 481-601 *)

Module WindowsVersion.

(** The fields of the PEB that [windows_version_init] reads. *)
Record PEB : Type := {
  OSPlatformId : Z;
  OSMajorVersion : Z;
  OSMinorVersion : Z;
  OSBuildNumber : Z
}.

(** The system call tables, one per supported version. *)
Inductive syscall_table : Type :=
| windows_vista_sp1_x64_syscalls
| windows_vista_sp1_syscalls
| windows_vista_sp0_x64_syscalls
| windows_vista_sp0_syscalls
| windows_XP_x64_syscalls
| windows_2003_syscalls
| windows_XP_syscalls
| windows_2000_syscalls
| windows_NT_sp3_syscalls
| windows_NT_sp0_syscalls
| windows_NT_sp4_syscalls.

(** Constants of winnt.h and of the engine's headers; neither is among the
    sources. *)
Record constants : Type := {
  VER_PLATFORM_WIN32_NT : Z;
  VER_PLATFORM_WIN32_WINDOWS : Z;
  WINDOWS_VERSION_NT : Z;
  WINDOWS_VERSION_2000 : Z;
  WINDOWS_VERSION_XP : Z;
  WINDOWS_VERSION_2003 : Z;
  WINDOWS_VERSION_VISTA : Z
}.

(** What the function finds out about ntdll and the process:
    [get_proc_address(ntdllh, name) != NULL],
    [module_is_64bit(get_ntdll_base())] and
    [is_wow64_process(NT_CURRENT_PROCESS)]. *)
Record ntdll : Type := {
  exports : string -> bool;
  module_is_64bit : bool;
  is_wow64_process : bool
}.

(** The globals the function assigns ([None]: left as it was; for
    [syscalls], which the function sets to NULL first, NULL), and whether
    it ends in FATAL_USAGE_ERROR. *)
Record outcome : Type := {
  syscalls : option syscall_table;
  os_version : option Z;
  os_name : string;
  fatal_usage_error : bool
}.

Section WithConstants.
Variable k : constants.
Variable dll : ntdll.

Definition supported (table : syscall_table) (version : Z) (name : string)
    : outcome :=
  {| syscalls := Some table; os_version := Some version; os_name := name;
     fatal_usage_error := false |}.

Definition unsupported (name : string) : outcome :=
  {| syscalls := None; os_version := None; os_name := name;
     fatal_usage_error := true |}.

Definition windows_version_init (peb : PEB) : outcome :=
  if peb.(OSPlatformId) =? k.(VER_PLATFORM_WIN32_NT) then
    (* WinNT or descendents *)
    if (peb.(OSMajorVersion) =? 6) && (peb.(OSMinorVersion) =? 0) then
      if dll.(exports) "NtReplacePartitionUnit" then
        if dll.(module_is_64bit) || dll.(is_wow64_process) then
          supported windows_vista_sp1_x64_syscalls k.(WINDOWS_VERSION_VISTA)
            "Microsoft Windows Vista x64 SP1"
        else
          supported windows_vista_sp1_syscalls k.(WINDOWS_VERSION_VISTA)
            "Microsoft Windows Vista SP1"
      else
        if dll.(module_is_64bit) || dll.(is_wow64_process) then
          supported windows_vista_sp0_x64_syscalls k.(WINDOWS_VERSION_VISTA)
            "Microsoft Windows Vista x64 SP0"
        else
          supported windows_vista_sp0_syscalls k.(WINDOWS_VERSION_VISTA)
            "Microsoft Windows Vista SP0"
    else if (peb.(OSMajorVersion) =? 5) && (peb.(OSMinorVersion) =? 2) then
      (* Version 5.2 can mean 32- or 64-bit 2003, or 64-bit XP *)
      if dll.(module_is_64bit) || dll.(is_wow64_process) then
        supported windows_XP_x64_syscalls k.(WINDOWS_VERSION_2003)
          "Microsoft Windows x64 XP/2003"
      else
        supported windows_2003_syscalls k.(WINDOWS_VERSION_2003)
          "Microsoft Windows 2003"
    else if (peb.(OSMajorVersion) =? 5) && (peb.(OSMinorVersion) =? 1) then
      supported windows_XP_syscalls k.(WINDOWS_VERSION_XP)
        "Microsoft Windows XP"
    else if (peb.(OSMajorVersion) =? 5) && (peb.(OSMinorVersion) =? 0) then
      supported windows_2000_syscalls k.(WINDOWS_VERSION_2000)
        "Microsoft Windows 2000"
    else if peb.(OSMajorVersion) =? 4 then
      if dll.(exports) "NtW32Call" then
        (* < SP4 *)
        if dll.(exports) "NtReadFileScatter" then
          (* > SP0 *)
          supported windows_NT_sp3_syscalls k.(WINDOWS_VERSION_NT)
            "Microsoft Windows NT SP3"
        else
          (* < SP3 *)
          supported windows_NT_sp0_syscalls k.(WINDOWS_VERSION_NT)
            "Microsoft Windows NT SP0"
      else
        supported windows_NT_sp4_syscalls k.(WINDOWS_VERSION_NT)
          "Microsoft Windows NT SP4, 5, 6, or 6a"
    else
      unsupported "Unrecognized Windows NT-family version"
  else if peb.(OSPlatformId) =? k.(VER_PLATFORM_WIN32_WINDOWS) then
    (* Win95 or Win98 *)
    let ver_high := Z.land (Z.shiftr peb.(OSBuildNumber) 8) 0xff in
    let ver_low := Z.land peb.(OSBuildNumber) 0xff in
    if (90 <=? ver_low) || (5 <=? ver_high) then unsupported "Windows ME"
    else if (10 <=? ver_low) && (ver_low <? 90) then unsupported "Windows 98"
    else if ver_low <? 5 then unsupported "Windows 3.1 / WfWg"
    else if ver_low <? 10 then unsupported "Windows 98"
    else unsupported "this unknown version of Windows"
  else
    (* Win32S on Windows 3.1 *)
    unsupported "Win32s".

End WithConstants.

(** The tables for 64-bit system call numbers. *)
Definition is_x64_table (table : syscall_table) : bool :=
  match table with
  | windows_vista_sp1_x64_syscalls | windows_vista_sp0_x64_syscalls
  | windows_XP_x64_syscalls => true
  | _ => false
  end.

End WindowsVersion.

(** ** Reserving address space: core/win32/os.c, lines 3036-3101 *)

Module HeapReserve.
Import Mem.

(** Constants of the engine's headers, which are not among the sources. *)
Record constants : Type := {
  HEAP_ERROR_CANT_RESERVE_IN_REGION : Z;
  VM_ALLOCATION_BOUNDARY : Z
}.

Section WithKernel.
Variable k : Mem.constants.
Variable h : constants.
(** The address space, and the routines and macros of other files:
    [nt_allocate_virtual_memory(&p, size, PAGE_NOACCESS,
    MEMORY_RESERVE_ONLY)] answers with a status, the address it leaves in
    [p] and the address space afterwards. *)
Variable os : Type.
Variable query_virtual_memory : os -> Z -> option MEMORY_BASIC_INFORMATION.
Variable nt_allocate_virtual_memory : os -> Z -> Z -> Z * Z * os.
Variable NT_SUCCESS : Z -> bool.
Variable ALIGN_FORWARD : Z -> Z -> Z.

(** The locals of [os_heap_reserve_in_region], [*error_code] and the
    address space. *)
Record walk : Type := {
  cur : Z;
  p : Z;
  error_code : Z;
  memory : os
}.

(** reserve virtual address space without committing swap space for it:
    the pointer returned, [*error_code] and the address space. *)
Definition os_heap_reserve (m : os) (preferred size : Z) : Z * Z * os :=
  let p := preferred in
  let '(error_code, p, m) := nt_allocate_virtual_memory m p size in
  if negb (NT_SUCCESS error_code) then (NULL, error_code, m)
  else (p, error_code, m).

(** [ASSERT(preferred == NULL || p == preferred)] in [os_heap_reserve]; it
    is reached when the allocation succeeded. *)
Definition os_heap_reserve_asserts (m : os) (preferred size : Z) : bool :=
  let '(error_code, p, _) := nt_allocate_virtual_memory m preferred size in
  if negb (NT_SUCCESS error_code) then true
  else (preferred =? NULL) || (p =? preferred).

(** The [while] loop that walks the bounds; [None] when [fuel] passes did
    not finish it. *)
Fixpoint reserve_walk (fuel : nat) (end_ size : Z) (s : walk) : option walk :=
  match fuel with
  | O => None
  | S fuel =>
      if (s.(p) =? NULL) && (wrap k (s.(cur) + size) <=? end_) then
        match query_virtual_memory s.(memory) s.(cur) with
        | None => Some s
        | Some mbi =>
            let s :=
              if (mbi.(State) =? k.(MEM_FREE)) &&
                 (size <=? wrap k (mbi.(RegionSize) -
                                   (s.(cur) - mbi.(BaseAddress))))
              then
                (* we have a slot *)
                let '(p, error_code, m) :=
                  os_heap_reserve s.(memory) s.(cur) size in
                {| cur := s.(cur); p := p; error_code := error_code;
                   memory := m |}
              else s in
            let s :=
              {| cur := ALIGN_FORWARD
                          (wrap k (mbi.(BaseAddress) + mbi.(RegionSize)))
                          h.(VM_ALLOCATION_BOUNDARY);
                 p := s.(p); error_code := s.(error_code);
                 memory := s.(memory) |} in
            (* check for overflow or 0 region size to prevent infinite loop *)
            if s.(cur) <=? mbi.(BaseAddress) then Some s (* give up *)
            else reserve_walk fuel end_ size s
        end
      else Some s
  end.

(** The pointer returned, [*error_code] and the address space; [None] when
    the loop did not finish in [fuel] passes. *)
Definition os_heap_reserve_in_region (fuel : nat) (m : os)
    (start end_ size : Z) : option (Z * Z * os) :=
  (* if no restriction on location use regular os_heap_reserve() *)
  if (start =? 0) && (end_ =? k.(POINTER_MAX))
  then Some (os_heap_reserve m NULL size)
  else
    (* walk bounds to find a suitable location *)
    let s := {| cur := ALIGN_FORWARD start h.(VM_ALLOCATION_BOUNDARY);
                p := NULL;
                error_code := h.(HEAP_ERROR_CANT_RESERVE_IN_REGION);
                memory := m |} in
    match reserve_walk fuel end_ size s with
    | Some s => Some (s.(p), s.(error_code), s.(memory))
    | None => None
    end.

End WithKernel.

(** The macro ALIGN_FORWARD as the drsyms header (src/unnamed/part_002)
    writes it, on 32 bits. *)
Definition align_forward (x alignment : Z) : Z :=
  Z.land ((x + (alignment - 1)) mod 2 ^ 32) (Z.lnot (alignment - 1)).

(** An address space to run the walk on: the blocks of [sample_blocks]
    with the free memory above 0x21000 ending where user space ends,
    at 0x7FFF0000. *)
Definition user_blocks : list MEMORY_BASIC_INFORMATION :=
  firstn 6 sample_blocks ++
  [ {| BaseAddress := 0x21000; AllocationBase := 0;
       RegionSize := 0x7FFF0000 - 0x21000; State := 0x10000;
       Protect := 0x01 |} ].

Definition user_query (_ : unit) (a : Z)
    : option MEMORY_BASIC_INFORMATION :=
  block_at Mem.win32 user_blocks a.

(** A kernel that reserves at the address it is asked for when the block
    there is free and large enough, and fails (status -1) otherwise. *)
Definition user_reserve (_ : unit) (preferred size : Z) : Z * Z * unit :=
  match block_at Mem.win32 user_blocks preferred with
  | Some mbi =>
      if (mbi.(State) =? 0x10000) &&
         (preferred + size <=? mbi.(BaseAddress) + mbi.(RegionSize))
      then (0, preferred, tt)
      else (-1, preferred, tt)
  | None => (-1, preferred, tt)
  end.

Definition sample_constants : constants :=
  {| HEAP_ERROR_CANT_RESERVE_IN_REGION := 5;
     VM_ALLOCATION_BOUNDARY := 0x10000 |}.

End HeapReserve.

(* ===================================================================== *)
(** * Part II: theorems *)
(* ===================================================================== *)

(** ** Bit tests *)

Module MacrosFacts.
Import Macros.

Lemma TEST_true (mask var : Z) : TEST mask var = true <-> Z.land mask var <> 0.
Proof. unfold TEST, TESTANY. rewrite negb_true_iff, Z.eqb_neq. reflexivity. Qed.

Lemma TEST_false (mask var : Z) : TEST mask var = false <-> Z.land mask var = 0.
Proof. unfold TEST, TESTANY. rewrite negb_false_iff, Z.eqb_eq. reflexivity. Qed.

(** Testing one bit of a value that is the bit-or of three parts. *)
Lemma TEST_lor3 (m a b c : Z) :
  TEST m (Z.lor (Z.lor a b) c) =
  negb (Z.lor (Z.lor (Z.land m a) (Z.land m b)) (Z.land m c) =? 0).
Proof. unfold TEST, TESTANY. now rewrite !Z.land_lor_distr_r. Qed.

End MacrosFacts.

(** ** Page protections *)

Module ProtFacts.
Import Macros MacrosFacts Prot.

Section WithConstants.
Variable c : constants.
Hypothesis ok : constants_ok c.

(** Each MEMPROT_ bit of [memprot_of r w x] tests as the boolean it was
    built from. *)
Lemma TEST_memprot_of (r w x : bool) :
  TEST c.(MEMPROT_READ) (memprot_of c r w x) = r /\
  TEST c.(MEMPROT_WRITE) (memprot_of c r w x) = w /\
  TEST c.(MEMPROT_EXEC) (memprot_of c r w x) = x.
Proof.
  destruct ok as [Hr Hw Hx Hrw Hrx Hwx _ _].
  assert (Hwr := Hrw). rewrite Z.land_comm in Hwr.
  assert (Hxr := Hrx). rewrite Z.land_comm in Hxr.
  assert (Hxw := Hwx). rewrite Z.land_comm in Hxw.
  unfold memprot_of. rewrite !TEST_lor3.
  destruct r, w, x;
    rewrite ?Z.land_diag, ?Z.land_0_r, ?Hrw, ?Hrx, ?Hwx, ?Hwr, ?Hxr, ?Hxw,
            ?Z.lor_0_l, ?Z.lor_0_r;
    repeat split;
    first [ reflexivity
          | apply negb_true_iff, Z.eqb_neq; assumption ].
Qed.

(** The eight PAGE_ values are pairwise different. *)
Lemma page_values_differ (i j : nat) (a b : Z) :
  page_values c !! i = Some a -> page_values c !! j = Some b ->
  i <> j -> (a =? b) = false.
Proof.
  intros Hi Hj Hij. apply Z.eqb_neq. intros ->.
  apply Hij. eapply NoDup_lookup; eauto. apply (page_distinct c ok).
Qed.

Lemma page_value_unqualified (i : nat) (a : Z) :
  page_values c !! i = Some a -> strip_qualifiers c a = a.
Proof.
  intros Hi. pose proof (page_unqualified c ok) as H.
  rewrite Forall_lookup in H. exact (H i a Hi).
Qed.

(** [osprot_to_memprot] on the five values [memprot_to_osprot] returns. *)
Lemma osprot_to_memprot_values :
  osprot_to_memprot c c.(PAGE_NOACCESS) = memprot_of c false false false /\
  osprot_to_memprot c c.(PAGE_READONLY) = memprot_of c true false false /\
  osprot_to_memprot c c.(PAGE_READWRITE) = memprot_of c true true false /\
  osprot_to_memprot c c.(PAGE_EXECUTE_READ) = memprot_of c true false true /\
  osprot_to_memprot c c.(PAGE_EXECUTE_READWRITE) = memprot_of c true true true.
Proof.
  pose proof (page_value_unqualified 0 _ eq_refl) as U0.
  pose proof (page_value_unqualified 1 _ eq_refl) as U1.
  pose proof (page_value_unqualified 2 _ eq_refl) as U2.
  pose proof (page_value_unqualified 5 _ eq_refl) as U5.
  pose proof (page_value_unqualified 6 _ eq_refl) as U6.
  assert (D : forall i j a b, page_values c !! i = Some a ->
                page_values c !! j = Some b ->
                (a =? b) = if decide (i = j) then true else false).
  { intros i j a b Hi Hj. destruct (decide (i = j)) as [->|Hne].
    - rewrite Hi in Hj. injection Hj as ->. apply Z.eqb_refl.
    - eapply page_values_differ; eauto. }
  unfold osprot_to_memprot, prot_is_readable, prot_is_writable,
    prot_is_executable, is_case, memprot_of, existsb.
  rewrite U0, U1, U2, U5, U6.
  repeat split;
    repeat match goal with
           | |- context [?a =? ?b] =>
               at_index ltac:(fun i => at_index ltac:(fun j =>
                 rewrite (D i j a b eq_refl eq_refl)))
           end;
    simpl; rewrite ?Z.lor_0_l, ?Z.lor_0_r; reflexivity.
Qed.

(** The assertion in [memprot_to_osprot] holds whenever EXEC implies READ. *)
Lemma memprot_to_osprot_asserts_hold (r w x : bool) :
  (x = true -> r = true) ->
  memprot_to_osprot_asserts c (memprot_of c r w x) = true.
Proof.
  intros Hx. unfold memprot_to_osprot_asserts.
  destruct (TEST_memprot_of r w x) as (Tr & _ & Tx). rewrite Tr, Tx.
  destruct x; [apply Hx|]; reflexivity.
Qed.

(** C10.  For a protection value composed of MEMPROT_READ, MEMPROT_WRITE and
    MEMPROT_EXEC in which WRITE or EXEC comes with READ, translating to the
    native page protection and back gives the value again:
    [osprot_to_memprot(memprot_to_osprot(p)) = p]. *)
Theorem osprot_to_memprot_of_memprot_to_osprot (r w x : bool) :
  (w = true \/ x = true -> r = true) ->
  osprot_to_memprot c (memprot_to_osprot c (memprot_of c r w x)) =
  memprot_of c r w x.
Proof.
  intros Hread.
  destruct (TEST_memprot_of r w x) as (Tr & Tw & Tx).
  destruct osprot_to_memprot_values as (V0 & V1 & V2 & V5 & V6).
  unfold memprot_to_osprot. rewrite Tr, Tw, Tx.
  destruct x, w, r; try assumption;
    try (discriminate Hread; auto).
Qed.

End WithConstants.

(** The Windows values meet [constants_ok]. *)
Lemma win32_constants_ok : constants_ok win32.
Proof.
  split.
  1-3: discriminate.
  1-3: reflexivity.
  - apply (bool_decide_unpack _). vm_compute. reflexivity.
  - apply (bool_decide_unpack _). vm_compute. reflexivity.
Qed.

(** On Windows: read+write (3) becomes PAGE_READWRITE (4) and comes back. *)
Lemma osprot_to_memprot_of_memprot_to_osprot_win32 :
  memprot_to_osprot win32 3 = 0x04 /\
  osprot_to_memprot win32 (memprot_to_osprot win32 3) = 3.
Proof.
  split; [reflexivity|].
  apply (osprot_to_memprot_of_memprot_to_osprot
           win32 win32_constants_ok true true false).
  intros _. reflexivity.
Defined.

(** Without READ the round trip loses WRITE: write-only (2) becomes
    PAGE_NOACCESS and comes back as 0. *)
Example write_only_is_lost :
  memprot_to_osprot win32 2 = 0x01 /\
  osprot_to_memprot win32 (memprot_to_osprot win32 2) = 0.
Proof. split; reflexivity. Qed.

End ProtFacts.

(** ** Following child processes *)

Module InjectFacts.
Import Macros Inject.

Section WithEnvironment.
Variable k : constants.
Variable env : environment.

(** The returned value as one boolean expression: the three ways in which
    [inject] becomes (and stays) true. *)
Lemma should_inject_into_process_ret (process_handle : Z) (given : bool) :
  fst (should_inject_into_process k env process_handle given) =
  let opt := env.(dynamo_options) in
  let m := env.(systemwide_should_inject) process_handle in
  (opt.(follow_systemwide) && TEST k.(INJECT_TRUE) m) ||
  (opt.(follow_explicit_children) &&
   TESTALL (Z.lor k.(INJECT_EXPLICIT) k.(INJECT_TRUE)) m) ||
  (opt.(follow_children) && negb (child_excluded k env process_handle) &&
   negb (left_to_preinjector k env process_handle)).
Proof.
  unfold should_inject_into_process, child_excluded, left_to_preinjector.
  destruct (dynamo_options env) as [fc fe fs]; simpl.
  destruct fc, fe, fs; simpl;
    repeat match goal with
           | |- context [TEST ?a ?b] => destruct (TEST a b); simpl
           | |- context [TESTALL ?a ?b] => destruct (TESTALL a b); simpl
           | |- context [systemwide_inject_enabled env] =>
               destruct (systemwide_inject_enabled env); simpl
           end; reflexivity.
Qed.

(** [*inject_settings] is written exactly when the answer is to inject and
    the pointer is not NULL, and then with the mask
    [systemwide_should_inject] returned. *)
Lemma should_inject_into_process_settings (process_handle : Z) (given : bool) :
  snd (should_inject_into_process k env process_handle given) =
  if fst (should_inject_into_process k env process_handle given) && given
  then Some (env.(systemwide_should_inject) process_handle) else None.
Proof.
  unfold should_inject_into_process.
  destruct (_ || _ || _); simpl; reflexivity.
Qed.

(** C8.  [should_inject_into_process] returns false when none of
    follow_children, follow_explicit_children and follow_systemwide is set;
    when follow_children is set it returns true unless the child is marked
    excluded or injection is left to the systemwide preinjector (and with
    follow_children the only option set, it returns false in those two
    cases). *)
Theorem should_inject_into_process_follow_children
    (process_handle : Z) (given : bool) :
  let opt := env.(dynamo_options) in
  let ret := fst (should_inject_into_process k env process_handle given) in
  (opt.(follow_children) = false ->
   opt.(follow_explicit_children) = false ->
   opt.(follow_systemwide) = false -> ret = false) /\
  (opt.(follow_children) = true ->
   child_excluded k env process_handle = false ->
   left_to_preinjector k env process_handle = false -> ret = true) /\
  (opt.(follow_children) = true ->
   opt.(follow_explicit_children) = false ->
   opt.(follow_systemwide) = false ->
   ret = negb (child_excluded k env process_handle ||
               left_to_preinjector k env process_handle)).
Proof.
  intros opt ret. subst ret. rewrite should_inject_into_process_ret.
  fold opt. cbv zeta. repeat split.
  - intros -> -> ->. reflexivity.
  - intros -> -> ->. simpl. apply orb_true_r.
  - intros -> -> ->. simpl. now rewrite negb_orb.
Qed.

End WithEnvironment.

Lemma should_inject_into_process_follow_children_sample :
  fst (should_inject_into_process sample_constants sample_environment 7 true)
  = true.
Proof.
  apply (proj1 (proj2 (should_inject_into_process_follow_children
                         sample_constants sample_environment 7 true)));
    reflexivity.
Defined.

End InjectFacts.

(** ** Safe reads *)

Module SafeReadFacts.
Import SafeRead.

Section WithKernel.
Variable NT_CURRENT_PROCESS : Z.
Variable nt_read_virtual_memory : Z -> Z -> Z -> nt_read_result.

Abbreviation safe_read := (safe_read NT_CURRENT_PROCESS nt_read_virtual_memory).
Abbreviation safe_read_ex :=
  (safe_read_ex NT_CURRENT_PROCESS nt_read_virtual_memory).
Abbreviation os_call := (nt_read_virtual_memory NT_CURRENT_PROCESS).
Abbreviation bytes_read := (bytes_read_by_os NT_CURRENT_PROCESS nt_read_virtual_memory).

(** [safe_read_ex] passes the kernel's answer on, and [*bytes_read] is 0
    unless the kernel stored a count. *)
Lemma safe_read_ex_ret (base size : Z) (given : bool) :
  (safe_read_ex base size given).(ret) = (os_call base size).(nt_success) /\
  (safe_read_ex base size given).(bytes_read_cell) =
    if given then Some (bytes_read base size) else None.
Proof. unfold SafeRead.safe_read_ex, bytes_read_by_os. destruct given; auto. Qed.

Lemma safe_read_ret (base size : Z) :
  fst (safe_read base size) =
  (os_call base size).(nt_success) && (bytes_read base size =? size).
Proof. reflexivity. Qed.

(** C9.  [safe_read] returns true if and only if the kernel read succeeded
    and read exactly [size] bytes; a partial read makes it return false; and
    on unreadable memory, where the kernel call reports failure, it returns
    false (it is a total function: there is no other outcome). *)
Theorem safe_read_true_iff (base size : Z) :
  (fst (safe_read base size) = true <->
   (os_call base size).(nt_success) = true /\ bytes_read base size = size) /\
  (bytes_read base size < size -> fst (safe_read base size) = false) /\
  (forall readable,
     fails_on_unreadable nt_read_virtual_memory readable ->
     unreadable readable base size ->
     fst (safe_read base size) = false).
Proof.
  rewrite safe_read_ret. split; [|split].
  - rewrite andb_true_iff, Z.eqb_eq. reflexivity.
  - intros Hlt. apply andb_false_iff. right. apply Z.eqb_neq. lia.
  - intros readable Hos Hbad. now rewrite (Hos _ _ _ Hbad).
Qed.

End WithKernel.

(** The reference kernel copies no more than it is asked for, and a full
    copy means every byte of the range is mapped. *)
Lemma copy_bytes_length (m : Z -> option Z) (n : nat) (base : Z) :
  (length (copy_bytes m base n) <= n)%nat.
Proof.
  revert base. induction n as [|n IH]; intros base; simpl; [lia|].
  destruct (m base); simpl; [specialize (IH (base + 1)) |]; lia.
Qed.

Lemma copy_bytes_full (m : Z -> option Z) (n : nat) (base a : Z) :
  length (copy_bytes m base n) = n ->
  base <= a < base + Z.of_nat n -> is_Some (m a).
Proof.
  revert base. induction n as [|n IH]; intros base Hlen Ha; [lia|].
  simpl in Hlen. destruct (m base) eqn:E; [|discriminate].
  destruct (Z.eq_dec a base) as [->|Hne]; [rewrite E; eauto|].
  apply (IH (base + 1)); [simpl in Hlen|]; lia.
Qed.

Lemma kernel_read_fails_on_unreadable (m : Z -> option Z) :
  fails_on_unreadable (kernel_read m) (fun a => bool_decide (is_Some (m a))).
Proof.
  intros process base size (a & Ha & Hbad).
  unfold kernel_read; simpl. apply Z.eqb_neq. intros Hfull.
  apply bool_decide_eq_false in Hbad. apply Hbad.
  apply (copy_bytes_full m (Z.to_nat size) base).
  - apply Nat2Z.inj. rewrite Hfull. lia.
  - lia.
Qed.

(** On the reference kernel: four mapped bytes are read in full, and a read
    of eight bytes over the same place is a partial read that fails. *)
Lemma safe_read_true_iff_sample :
  safe_read (-1) (kernel_read small_memory) 0x1000 4
    = (true, [0xA0; 0xA1; 0xA2; 0xA3]) /\
  fst (safe_read (-1) (kernel_read small_memory) 0x1000 8) = false.
Proof.
  split; [reflexivity|].
  apply (proj2 (proj2 (safe_read_true_iff (-1) (kernel_read small_memory)
                         0x1000 8))
           (fun a => bool_decide (is_Some (small_memory a)))).
  - apply kernel_read_fails_on_unreadable.
  - exists 0x1004. split; [lia | reflexivity].
Defined.

End SafeReadFacts.

(** ** Detach *)

Module DetachFacts.
Import Detach.

Section WithRemainder.
Variables LOCK_FREE_STATE LOCK_SET_STATE : Z.
Variable CLIENT_INTERFACE : bool.
Variable detach_remainder : Z -> engine -> engine.

Abbreviation detach_helper :=
  (detach_helper LOCK_FREE_STATE LOCK_SET_STATE CLIENT_INTERFACE
     detach_remainder).

(** The state a refused detach request leaves behind when it got as far as
    the allow_detach test. *)
Lemma detach_helper_refused (detach_type : Z) (s : engine) :
  s.(dynamo_initialized) = true -> s.(dynamo_exited) = false ->
  s.(my_dcontext) <> 0 -> s.(dynamo_detaching_flag) = LOCK_FREE_STATE ->
  s.(internal_detach) = false -> s.(allow_detach) = false ->
  detach_helper detach_type s =
  {| dynamo_initialized := true;
     dynamo_exited := false;
     my_dcontext := s.(my_dcontext);
     dynamo_detaching_flag := LOCK_FREE_STATE;
     doing_detach := false;
     internal_detach := false;
     allow_detach := false;
     init_apc_go_native_pause := s.(init_apc_go_native_pause);
     init_apc_go_native := s.(init_apc_go_native);
     calls := s.(calls) ++
              [ENTERING_DR; SELF_UNPROTECT_DATASEC; SELF_PROTECT_DATASEC;
               SYSLOG_INTERNAL_ERROR
                 "Detach called without the allow_detach option set";
               EXITING_DR] |}.
Proof.
  destruct s as [ini exi dc flag doing int allow pause native made]; simpl.
  intros -> -> Hdc -> -> ->.
  unfold Detach.detach_helper, atomic_compare_exchange; simpl.
  apply Z.eqb_neq in Hdc. rewrite Hdc, Z.eqb_refl. simpl.
  unfold call; simpl. now rewrite <- !app_assoc.
Qed.

(** C7.  A detach request that is not internally generated, made while the
    allow_detach option is unset, leaves the engine in place: whatever the
    state the request finds, [detach_helper] returns with every global it
    guards unchanged, makes none of the calls that detach, and never runs
    the rest of the function; when the request gets as far as the
    allow_detach test, it reports the failure and [doing_detach] is false
    on return. *)
Theorem detach_helper_without_allow_detach (detach_type : Z) (s : engine) :
  s.(internal_detach) = false -> s.(allow_detach) = false ->
  let s' := detach_helper detach_type s in
  (s'.(dynamo_initialized) = s.(dynamo_initialized) /\
   s'.(dynamo_exited) = s.(dynamo_exited) /\
   s'.(my_dcontext) = s.(my_dcontext) /\
   s'.(dynamo_detaching_flag) = s.(dynamo_detaching_flag) /\
   s'.(internal_detach) = s.(internal_detach) /\
   s'.(allow_detach) = s.(allow_detach) /\
   s'.(init_apc_go_native_pause) = s.(init_apc_go_native_pause) /\
   s'.(init_apc_go_native) = s.(init_apc_go_native) /\
   exists made, s'.(calls) = s.(calls) ++ made /\
                forallb (fun e => negb (detaches e)) made = true) /\
  (s.(dynamo_initialized) = true -> s.(dynamo_exited) = false ->
   s.(my_dcontext) <> 0 -> s.(dynamo_detaching_flag) = LOCK_FREE_STATE ->
   s'.(doing_detach) = false /\
   s'.(calls) = s.(calls) ++
                [ENTERING_DR; SELF_UNPROTECT_DATASEC; SELF_PROTECT_DATASEC;
                 SYSLOG_INTERNAL_ERROR
                   "Detach called without the allow_detach option set";
                 EXITING_DR]).
Proof.
  intros Hint Hallow s'. split.
  - subst s'. destruct s as [ini exi dc flag doing int allow pause native made].
    simpl in *. subst int allow.
    unfold Detach.detach_helper, atomic_compare_exchange; simpl.
    destruct (negb ini || exi || (dc =? 0)); simpl.
    { repeat split. exists []. now rewrite app_nil_r. }
    destruct (Z.eqb_spec flag LOCK_FREE_STATE) as [->|Hflag]; simpl.
    + repeat split. eexists. rewrite <- !app_assoc. split; reflexivity.
    + repeat split. eexists. rewrite <- !app_assoc. split; reflexivity.
  - intros Hini Hexi Hdc Hflag. subst s'.
    rewrite detach_helper_refused by assumption. split; reflexivity.
Qed.

End WithRemainder.

Lemma detach_helper_without_allow_detach_sample :
  let s' := detach_helper (-1) 0 true tear_down 1 running_engine in
  s'.(doing_detach) = false /\
  s'.(calls) =
    [ENTERING_DR; SELF_UNPROTECT_DATASEC; SELF_PROTECT_DATASEC;
     SYSLOG_INTERNAL_ERROR "Detach called without the allow_detach option set";
     EXITING_DR].
Proof.
  apply (proj2 (detach_helper_without_allow_detach (-1) 0 true tear_down 1
                  running_engine eq_refl eq_refl));
    first [reflexivity | discriminate].
Defined.

(** The same request with allow_detach set goes on to detach. *)
Example detach_helper_with_allow_detach :
  let s := {| dynamo_initialized := true;
              dynamo_exited := false;
              my_dcontext := 0x7ff0;
              dynamo_detaching_flag := -1;
              doing_detach := false;
              internal_detach := false;
              allow_detach := true;
              init_apc_go_native_pause := false;
              init_apc_go_native := false;
              calls := [] |} in
  let s' := detach_helper (-1) 0 true tear_down 1 s in
  s'.(dynamo_exited) = true /\ s'.(doing_detach) = true /\
  s'.(init_apc_go_native) = true /\
  s'.(calls) =
    [ENTERING_DR; SELF_UNPROTECT_DATASEC; SYSLOG_INFO_DETACHING;
     enter_threadexit; thread_yield; wait_for_outstanding_nudges;
     synch_with_all_threads].
Proof. repeat split. Qed.

End DetachFacts.

(** ** The wrap layer *)

Module DrwrapFacts.
Import Drwrap.

Lemma entry_eqb_eq (a b : wrap_entry) : entry_eqb a b = true <-> a = b.
Proof.
  unfold entry_eqb. rewrite !andb_true_iff, !Z.eqb_eq.
  destruct a, b; simpl. split.
  - intros [[-> ->] ->]. reflexivity.
  - intros [= -> -> ->]. auto.
Qed.

Lemma entry_eqb_refl (a : wrap_entry) : entry_eqb a a = true.
Proof. now apply entry_eqb_eq. Qed.

Lemma count_app {A : Type} (p : A -> bool) (l1 l2 : list A) :
  count p (l1 ++ l2) = (count p l1 + count p l2)%nat.
Proof. induction l1 as [|x l1 IH]; simpl; [reflexivity | rewrite IH; lia]. Qed.

Lemma count_none {A : Type} (p : A -> bool) (l : list A) :
  Forall (fun x => p x = false) l -> count p l = O.
Proof. induction 1 as [|x l Hx _ IH]; simpl; [|rewrite Hx, IH]; reflexivity. Qed.

Section WithClient.
Variable C : Type.
Variable code : client_code C.

(** *** What a sequence of callbacks writes to the log *)

Lemma entered_app (l1 l2 : list (event)) :
  entered (l1 ++ l2) = entered l1 ++ entered l2.
Proof. apply omap_app. Qed.

Lemma in_entered (n : nat) (l : list event) :
  In n (entered l) <-> exists f args, In (body_runs n f args) l.
Proof.
  unfold entered. rewrite <- list_elem_of_In, list_elem_of_omap. split.
  - intros (ev & Hin & Hev). destruct ev; try discriminate.
    injection Hev as ->. apply list_elem_of_In in Hin. eauto.
  - intros (f & args & Hin). eexists. rewrite list_elem_of_In.
    split; [exact Hin | reflexivity].
Qed.

(** The post-callbacks run in the order of the frame's list, each on the
    same kind of context; what they do to the world does not matter. *)
Lemma run_posts_events (n : nat) (f : Z) (posts : list (wrap_entry * Z))
    (wrapcxt : option wrapcxt_t) (w : world C) :
  snd (run_posts code n f posts wrapcxt w) =
  map (fun p => post_called n f (fst p)
                  (match wrapcxt with Some _ => false | None => true end))
      (List.filter (fun p => has_post (fst p)) posts).
Proof.
  revert wrapcxt w. induction posts as [|[e datum] posts IH];
    intros wrapcxt w; simpl; [reflexivity|].
  destruct (has_post e); simpl; [|apply IH].
  match goal with
  | |- context [run_posts code n f posts ?x ?y] =>
      specialize (IH x y); destruct (run_posts code n f posts x y) as [[? ?] ?]
  end.
  simpl in *. rewrite IH. destruct wrapcxt; reflexivity.
Qed.

(** A context stays a context, and NULL stays NULL. *)
Lemma run_posts_wrapcxt (n : nat) (f : Z) (posts : list (wrap_entry * Z))
    (wrapcxt : option wrapcxt_t) (w : world C) :
  is_Some (fst (fst (run_posts code n f posts wrapcxt w))) <-> is_Some wrapcxt.
Proof.
  revert wrapcxt w. induction posts as [|[e datum] posts IH];
    intros wrapcxt w; simpl; [reflexivity|].
  destruct (has_post e); simpl; [|apply IH].
  match goal with
  | |- context [run_posts code n f posts ?x ?y] =>
      specialize (IH x y); destruct (run_posts code n f posts x y) as [[? ?] ?]
  end.
  simpl in *. rewrite IH. destruct wrapcxt; simpl; split; eauto;
    intros [? ?]; discriminate.
Qed.

(** Every event of the pre-callbacks is an invocation of a pre-callback of
    this call. *)
Lemma run_pres_events_pre (n : nat) (f : Z) (entries : list wrap_entry)
    (wc : wrapcxt_t) (w : world C) :
  Forall (fun ev => exists e, ev = pre_called n f e)
         (run_pres code n f entries wc w).(pr_events).
Proof.
  revert wc w. induction entries as [|e entries IH]; intros wc w; simpl.
  - constructor.
  - destruct (has_pre e); simpl; [|apply IH].
    destruct (wc_skip _); simpl.
    + repeat constructor. eauto.
    + constructor; [eauto | apply IH].
Qed.

(** When no pre-callback skips the call, all of them ran, in the order of
    the list, and the frame gets every request of the list, the last one
    first. *)
Lemma run_pres_not_skipped (n : nat) (f : Z) (entries : list wrap_entry)
    (wc : wrapcxt_t) (w : world C) :
  (run_pres code n f entries wc w).(pr_wrapcxt).(wc_skip) = None ->
  (run_pres code n f entries wc w).(pr_events) = pres_of n f entries /\
  map fst (run_pres code n f entries wc w).(pr_posts) = rev entries.
Proof.
  revert wc w. induction entries as [|e entries IH]; intros wc w; simpl.
  - auto.
  - unfold pres_of; simpl. destruct (has_pre e) eqn:Hpre; simpl.
    + destruct (wc_skip (default wc _)) eqn:Hskip; simpl.
      * rewrite Hskip. discriminate.
      * intros H. destruct (IH _ _ H) as [-> Hp].
        rewrite List.map_app, Hp. auto.
    + intros H. destruct (IH _ _ H) as [-> Hp].
      rewrite List.map_app, Hp. auto.
Qed.


(** *** Counting *)

Lemma count_map {A B : Type} (p : B -> bool) (g : A -> B) (l : list A) :
  count p (map g l) = count (fun x => p (g x)) l.
Proof. induction l as [|x l IH]; simpl; [|rewrite IH]; reflexivity. Qed.

Lemma count_filter {A : Type} (p q : A -> bool) (l : list A) :
  count p (List.filter q l) = count (fun x => q x && p x) l.
Proof.
  induction l as [|x l IH]; simpl; [reflexivity|].
  destruct (q x); simpl; rewrite IH; reflexivity.
Qed.

Lemma count_ext {A : Type} (p q : A -> bool) (l : list A) :
  (forall x, p x = q x) -> count p l = count q l.
Proof. intros H. induction l as [|x l IH]; simpl; [|rewrite H, IH]; reflexivity. Qed.

Lemma count_rev {A : Type} (p : A -> bool) (l : list A) :
  count p (rev l) = count p l.
Proof.
  induction l as [|x l IH]; simpl; [reflexivity|].
  rewrite count_app, IH. simpl. lia.
Qed.

Lemma count_entry_map (e : wrap_entry) (posts : list (wrap_entry * Z)) :
  count_entry e posts = count (fun x => entry_eqb x e) (map fst posts).
Proof. unfold count_entry. now rewrite count_map. Qed.

Lemma count_pre_posts_of (n : nat) (e : wrap_entry) (fr : frame) (a : bool) :
  count_pre n e (posts_of fr a) = O.
Proof. unfold count_pre, posts_of. rewrite count_map. now apply count_none, Forall_forall. Qed.

Lemma count_post_posts_of (n : nat) (e : wrap_entry) (fr : frame) (a : bool) :
  has_post e = true ->
  count_post n e (posts_of fr a) =
  if (fr.(fr_call) =? n)%nat then count_entry e fr.(fr_posts) else O.
Proof.
  intros He. unfold count_post, posts_of, count_entry.
  rewrite count_map, count_filter. simpl.
  destruct (Nat.eqb_spec (fr_call fr) n) as [_|_]; simpl.
  - apply count_ext. intros [e' d]; simpl.
    destruct (entry_eqb e' e) eqn:E; [|apply andb_false_r].
    apply entry_eqb_eq in E. subst e'. now rewrite He.
  - apply count_none, Forall_forall. intros x _. apply andb_false_r.
Qed.

Lemma count_post_pres_of (n n' : nat) (f : Z) (e : wrap_entry)
    (entries : list wrap_entry) :
  count_post n' e (pres_of n f entries) = O.
Proof. unfold count_post, pres_of. rewrite count_map. now apply count_none, Forall_forall. Qed.

Lemma count_pre_pres_of (n n' : nat) (f : Z) (e : wrap_entry)
    (entries : list wrap_entry) :
  has_pre e = true ->
  count_pre n' e (pres_of n f entries) =
  if (n =? n')%nat then count (fun x => entry_eqb x e) entries else O.
Proof.
  intros He. unfold count_pre, pres_of. rewrite count_map, count_filter. simpl.
  destruct (Nat.eqb_spec n n') as [_|_]; simpl.
  - apply count_ext. intros e'.
    destruct (entry_eqb e' e) eqn:E; [|apply andb_false_r].
    apply entry_eqb_eq in E. subst e'. now rewrite He.
  - apply count_none, Forall_forall. intros x _. apply andb_false_r.
Qed.

(** Nothing has been counted yet for a call number that is still free. *)
Lemma count_fresh (n : nat) (e : wrap_entry) (lg : list event) :
  Forall (fun ev => (call_of ev < n)%nat) lg ->
  count_pre n e lg = O /\ count_post n e lg = O.
Proof.
  intros H. split; apply count_none; eapply Forall_impl; try exact H;
    intros [] Hlt; simpl in *; try reflexivity;
    (destruct (Nat.eqb_spec call n); [lia | reflexivity]).
Qed.

Lemma pending_fresh (n : nat) (e : wrap_entry) (stack : list frame) :
  Forall (fun fr => (fr.(fr_call) < n)%nat) stack -> pending n e stack = O.
Proof.
  induction 1 as [|fr stack Hfr _ IH]; simpl; [reflexivity|].
  destruct (Nat.eqb_spec (fr_call fr) n); [lia | exact IH].
Qed.

Lemma not_entered_fresh (n : nat) (lg : list event) :
  Forall (fun ev => (call_of ev < n)%nat) lg -> Forall (fun k => (k < n)%nat) (entered lg).
Proof.
  intros H. apply Forall_forall. intros k Hk.
  apply list_elem_of_In, in_entered in Hk. destruct Hk as (f & args & Hin).
  rewrite Forall_forall in H. apply list_elem_of_In in Hin.
  exact (H _ Hin).
Qed.

(** *** The bookkeeping stays consistent *)

Lemma entered_posts_of (fr : frame) (a : bool) : entered (posts_of fr a) = [].
Proof. unfold posts_of. induction (List.filter _ _); simpl; auto. Qed.

Lemma entered_pres_of (n : nat) (f : Z) (entries : list wrap_entry) :
  entered (pres_of n f entries) = [].
Proof. unfold pres_of. induction (List.filter _ _); simpl; auto. Qed.

Lemma entered_none (l : list event) :
  Forall (fun ev => match ev with body_runs _ _ _ => False | _ => True end) l ->
  entered l = [].
Proof.
  induction 1 as [|ev l Hev _ IH]; [reflexivity|].
  destruct ev; simpl in *; try exact IH. contradiction.
Qed.

Lemma in_posts_of (ev : event) (fr : frame) (a : bool) :
  In ev (posts_of fr a) ->
  exists e, ev = post_called fr.(fr_call) fr.(fr_func) e a.
Proof.
  unfold posts_of. rewrite in_map_iff. intros ([e d] & <- & _). eauto.
Qed.

(** Popping the top frame after its post-callbacks ran, with or without
    the record of a normal return. *)
Lemma pop_consistent (w w' : world C) (fr : frame) (rest : list frame)
    (nx : nat) (lg : list event) (a : bool) (extra : list event) :
  consistent C {| m_world := w; wrap_stack := fr :: rest;
                  next_call := nx; log := lg |} ->
  Forall (fun ev => exists v, ev = returned fr.(fr_call) fr.(fr_func) v) extra ->
  consistent C {| m_world := w'; wrap_stack := rest; next_call := nx;
                  log := lg ++ posts_of fr a ++ extra |}.
Proof.
  intros [F1 S1 S2 E1 F2 ES PE SK PA] Hextra; simpl in *.
  assert (Hent : entered (lg ++ posts_of fr a ++ extra) = entered lg).
  { rewrite !entered_app, entered_posts_of, (entered_none extra), !app_nil_r.
    - reflexivity.
    - eapply List.Forall_impl; [|exact Hextra]. intros ev [v ->]. exact I. }
  constructor; simpl; rewrite ?Hent.
  - now inversion F1.
  - now inversion S1.
  - now inversion S2.
  - now inversion E1.
  - rewrite !Forall_app. split; [exact F2|]. inversion F1; subst. split.
    + apply Forall_forall. intros ev Hev.
      apply list_elem_of_In, in_posts_of in Hev. destruct Hev as [e ->]. assumption.
    + eapply List.Forall_impl; [|exact Hextra]. intros ev [v ->]. assumption.
  - exact ES.
  - intros n f e a' Hin. rewrite !in_app_iff in Hin.
    destruct Hin as [Hin|[Hin|Hin]].
    + eauto.
    + apply in_posts_of in Hin. destruct Hin as [e' [= -> _ _ _]].
      now inversion E1.
    + rewrite Forall_forall in Hextra. apply list_elem_of_In in Hin.
      destruct (Hextra _ Hin) as [v Hv]. discriminate.
  - intros n f v Hin. rewrite !in_app_iff in Hin.
    destruct Hin as [Hin|[Hin|Hin]].
    + eauto.
    + apply in_posts_of in Hin. destruct Hin as [e' [=]].
    + rewrite Forall_forall in Hextra. apply list_elem_of_In in Hin.
      destruct (Hextra _ Hin) as [v' Hv]. discriminate.
  - intros n e Hpre Hpost Hn. specialize (PA n e Hpre Hpost Hn).
    unfold count_pre, count_post in *. rewrite !count_app.
    fold (count_pre n e (posts_of fr a)) (count_post n e (posts_of fr a)).
    rewrite count_pre_posts_of, count_post_posts_of by assumption.
    rewrite !(count_none _ extra);
      [ lia
      | eapply List.Forall_impl; [|exact Hextra]; intros ev [v ->]; reflexivity .. ].
Qed.

(** Unwinding keeps the bookkeeping consistent, writes the abnormal
    post-callbacks of the bypassed frames to the log, innermost frame
    first, and leaves the frames that were not bypassed. *)
Lemma unwind_spec (xsp : Z) (stack : list frame) (w : world C) (nx : nat)
    (lg : list event) :
  consistent C {| m_world := w; wrap_stack := stack; next_call := nx;
                  log := lg |} ->
  let r := unwind code xsp stack w in
  consistent C {| m_world := snd (fst r); wrap_stack := fst (fst r);
                  next_call := nx; log := lg ++ snd r |} /\
  fst (fst r) = List.filter (fun fr => negb (bypassed xsp fr)) stack /\
  snd r = flat_map (fun fr => posts_of fr true)
                   (List.filter (bypassed xsp) stack) /\
  Forall (fun fr => xsp <= fr.(fr_xsp)) (fst (fst r)).
Proof.
  revert w lg. induction stack as [|fr rest IH]; intros w lg Hc; simpl.
  - rewrite app_nil_r. split; [exact Hc|]. split; [reflexivity|]. split; [reflexivity | constructor].
  - change (fr_xsp fr <? xsp) with (bypassed xsp fr).
    destruct (bypassed xsp fr) eqn:Hb; simpl.
    + pose proof (run_posts_events fr.(fr_call) fr.(fr_func) fr.(fr_posts)
                    None w) as Hev.
      destruct (run_posts code _ _ _ None w) as [[wcx w1] evs1]; simpl in Hev.
      fold (posts_of fr true) in Hev. subst evs1.
      assert (Hc1 := pop_consistent w w1 fr rest nx lg true [] Hc
                       (List.Forall_nil _)).
      rewrite app_nil_r in Hc1. specialize (IH w1 _ Hc1).
      destruct (unwind code xsp rest w1) as [[st w2] evs2]; simpl in *.
      destruct IH as (IH1 & IH2 & IH3 & IH4).
      rewrite <- app_assoc in IH1. subst evs2.
      split; [exact IH1|]. split; [exact IH2|]. split; [reflexivity | exact IH4].
    + assert (Hge : xsp <= fr_xsp fr) by (now apply Z.ltb_ge in Hb).
      rewrite app_nil_r. split; [exact Hc|].
      assert (Hall : Forall (fun fr' => xsp <= fr_xsp fr') (fr :: rest)).
      { destruct Hc as [_ _ S2 _ _ _ _ _ _]; simpl in S2.
        apply StronglySorted_inv in S2. destruct S2 as [_ S2].
        constructor; [exact Hge|].
        rewrite Forall_map in S2. eapply List.Forall_impl; [|exact S2].
        simpl. intros; lia. }
      assert (Hnone : forall l, Forall (fun fr' => xsp <= fr_xsp fr') l ->
                List.filter (fun fr' => negb (bypassed xsp fr')) l = l /\
                List.filter (bypassed xsp) l = []).
      { induction 1 as [|x l Hx _ [IH1 IH2]]; simpl; [auto|].
        assert (Hx' : bypassed xsp x = false) by (now apply Z.ltb_ge).
        rewrite Hx'. simpl. now rewrite IH1, IH2. }
      inversion Hall as [|? ? _ Hrest]; subst.
      destruct (Hnone _ Hrest) as [-> ->].
      split; [reflexivity|]. split; [reflexivity | exact Hall].
Qed.

Lemma StronglySorted_snoc (l : list nat) (n : nat) :
  StronglySorted lt l -> Forall (fun k => (k < n)%nat) l ->
  StronglySorted lt (l ++ [n]).
Proof.
  induction 1 as [|k l Hl IH Hk]; intros Hn; simpl.
  - repeat constructor.
  - inversion Hn; subst. constructor; [auto|].
    apply Forall_app. split; [exact Hk | repeat constructor; assumption].
Qed.

Lemma start_consistent (w : world C) : consistent C (start w).
Proof.
  constructor; simpl; try constructor; try contradiction.
Qed.

Lemma enter_consistent (func retaddr xsp : Z) (args : list Z) (m : machine C) :
  consistent C m ->
  Forall (fun fr => xsp <= fr.(fr_xsp)) m.(wrap_stack) ->
  consistent C (enter code func retaddr xsp args m).
Proof.
  intros Hc Hxsp. unfold enter.
  destruct (wraps_of (m_world m) func) as [|e0 entries0] eqn:Hw; [exact Hc|].
  set (entries := e0 :: entries0).
  set (wc0 := entry_context func retaddr args).
  pose proof (run_pres_events_pre (next_call m) func entries wc0
                (m_world m)) as Hpre.
  pose proof (run_pres_not_skipped (next_call m) func entries wc0
                (m_world m)) as Hall.
  destruct (run_pres code (next_call m) func entries wc0 (m_world m))
    as [wc1 w1 posts evs]; simpl in *.
  destruct m as [w stack nx lg]; simpl in *.
  destruct Hc as [F1 S1 S2 E1 F2 ES PE SK PA]; simpl in *.
  pose proof (not_entered_fresh nx lg F2) as Hfresh.
  assert (Hnx : ~ In nx (entered lg)).
  { intros Hin. rewrite Forall_forall in Hfresh.
    apply list_elem_of_In in Hin. specialize (Hfresh _ Hin). lia. }
  destruct (wc_skip wc1) as [[retval sz]|] eqn:Hskip.
  - (* the call is skipped *)
    assert (Hent : entered (lg ++ evs ++ [skipped nx func retval]) = entered lg).
    { rewrite !entered_app, (entered_none evs), app_nil_r; [reflexivity|].
      eapply List.Forall_impl; [|exact Hpre]. intros ev [e ->]. exact I. }
    constructor; simpl; rewrite ?Hent.
    + eapply List.Forall_impl; [|exact F1]. simpl. intros; lia.
    + exact S1.
    + exact S2.
    + exact E1.
    + rewrite !Forall_app. split; [|split].
      * eapply List.Forall_impl; [|exact F2]. simpl. intros; lia.
      * eapply List.Forall_impl; [|exact Hpre]. intros ev [e ->]. simpl. lia.
      * repeat constructor.
    + exact ES.
    + intros n f e a Hin. rewrite !in_app_iff in Hin.
      destruct Hin as [Hin|[Hin|[Hin|[]]]]; [eauto | | discriminate].
      rewrite Forall_forall in Hpre. apply list_elem_of_In in Hin.
      destruct (Hpre _ Hin) as [e' He']. discriminate.
    + intros n f v Hin. rewrite !in_app_iff in Hin.
      destruct Hin as [Hin|[Hin|[Hin|[]]]]; [eauto | | ].
      * rewrite Forall_forall in Hpre. apply list_elem_of_In in Hin.
        destruct (Hpre _ Hin) as [e' He']. discriminate.
      * injection Hin as <- _ _. exact Hnx.
    + intros n e He1 He2 Hn. specialize (PA n e He1 He2 Hn).
      assert (Hne : nx <> n) by (intros ->; contradiction).
      unfold count_pre, count_post in *. rewrite !count_app. simpl.
      rewrite !(count_none _ evs); [lia | | ];
        (eapply List.Forall_impl; [|exact Hpre]); intros ev [e' ->]; simpl;
        [reflexivity|].
      destruct (Nat.eqb_spec nx n); [contradiction | reflexivity].
  - (* the function body runs *)
    destruct (Hall eq_refl) as [-> Hposts]. clear Hall Hpre.
    assert (Hent : entered (lg ++ pres_of nx func entries ++
                            [body_runs nx func (wc_args wc1)])
                   = entered lg ++ [nx]).
    { rewrite !entered_app, entered_pres_of. reflexivity. }
    constructor; simpl; rewrite ?Hent.
    + constructor; [simpl; lia|].
      eapply List.Forall_impl; [|exact F1]. simpl. intros; lia.
    + constructor; [exact S1|]. rewrite Forall_map. exact F1.
    + constructor; [exact S2|]. rewrite Forall_map. exact Hxsp.
    + constructor; [apply in_app_iff; right; now left|].
      eapply List.Forall_impl; [|exact E1]. simpl. intros fr Hin.
      apply in_app_iff. now left.
    + rewrite !Forall_app. split; [|split].
      * eapply List.Forall_impl; [|exact F2]. simpl. intros; lia.
      * apply Forall_forall. intros ev Hev. apply list_elem_of_In in Hev.
        unfold pres_of in Hev. apply in_map_iff in Hev.
        destruct Hev as (e & <- & _). simpl. lia.
      * repeat constructor.
    + apply StronglySorted_snoc; assumption.
    + intros n f e a Hin. rewrite !in_app_iff in Hin. apply in_app_iff.
      destruct Hin as [Hin|[Hin|[Hin|[]]]]; [left; eauto | | discriminate].
      unfold pres_of in Hin. apply in_map_iff in Hin.
      destruct Hin as (e' & He' & _). discriminate.
    + intros n f v Hin. rewrite !in_app_iff in Hin.
      destruct Hin as [Hin|[Hin|[Hin|[]]]]; [ | | discriminate].
      * intros Hn. apply in_app_iff in Hn. destruct Hn as [Hn|[<-|[]]].
        -- exact (SK _ _ _ Hin Hn).
        -- rewrite Forall_forall in F2. apply list_elem_of_In in Hin.
           specialize (F2 _ Hin). simpl in F2. lia.
      * unfold pres_of in Hin. apply in_map_iff in Hin.
        destruct Hin as (e' & He' & _). discriminate.
    + intros n e He1 He2 Hn.
      unfold count_pre, count_post in *. rewrite !count_app. simpl.
      fold (count_pre n e (pres_of nx func entries))
           (count_post n e (pres_of nx func entries)).
      rewrite count_pre_pres_of, count_post_pres_of by assumption.
      rewrite count_entry_map, Hposts.
      change (rev entries0 ++ [e0]) with (rev entries). rewrite count_rev.
      destruct (Nat.eqb_spec nx n) as [<-|Hne].
      * destruct (count_fresh nx e lg F2) as [H1 H2].
        unfold count_pre, count_post in H1, H2. rewrite H1, H2.
        rewrite (pending_fresh nx e stack F1). lia.
      * apply in_app_iff in Hn. destruct Hn as [Hn|[Hn|[]]]; [|contradiction].
        specialize (PA n e He1 He2 Hn). lia.
Qed.

Lemma unwind_to_consistent (xsp : Z) (m : machine C) :
  consistent C m ->
  consistent C (unwind_to code xsp m) /\
  Forall (fun fr => xsp <= fr.(fr_xsp)) (unwind_to code xsp m).(wrap_stack).
Proof.
  intros Hc. unfold unwind_to. destruct m as [w stack nx lg]; simpl.
  destruct (unwind_spec xsp stack w nx lg Hc) as (H1 & _ & _ & H4).
  destruct (unwind code xsp stack w) as [[st w'] evs]; simpl in *. auto.
Qed.

Lemma leave_consistent (retval : Z) (m : machine C) :
  consistent C m -> consistent C (leave code retval m).
Proof.
  intros Hc. unfold leave. destruct m as [w stack nx lg]; simpl.
  destruct stack as [|fr rest]; [exact Hc|].
  match goal with
  | |- context [run_posts code ?n ?f ?p ?x ?y] =>
      pose proof (run_posts_events n f p x y) as Hev;
      destruct (run_posts code n f p x y) as [[wcx w1] evs]
  end.
  simpl in Hev. fold (posts_of fr false) in Hev. subst evs.
  apply (pop_consistent w w1 fr rest nx lg false _ Hc).
  repeat constructor. eauto.
Qed.

Lemma step_consistent (m : machine C) (ev : app_event) :
  consistent C m -> consistent C (step code m ev).
Proof.
  intros Hc. destruct ev as [func retaddr xsp args|retval|xsp]; simpl.
  - destruct (unwind_to_consistent xsp m Hc) as [H1 H2].
    now apply enter_consistent.
  - now apply leave_consistent.
  - now apply unwind_to_consistent.
Qed.

Lemma run_consistent (evs : list app_event) (m : machine C) :
  consistent C m -> consistent C (run code evs m).
Proof.
  revert m. induction evs as [|ev evs IH]; intros m Hc; simpl; [exact Hc|].
  apply IH, step_consistent, Hc.
Qed.

(** *** The log only grows *)

Lemma step_log (m : machine C) (ev : app_event) :
  exists l, (step code m ev).(log) = m.(log) ++ l.
Proof.
  assert (Hu : forall xsp m0, exists l,
             (unwind_to code xsp m0).(log) = m0.(log) ++ l).
  { intros xsp m0. unfold unwind_to.
    destruct (unwind code xsp _ _) as [[st w'] evs]; simpl. eauto. }
  assert (He : forall func retaddr xsp args m0, exists l,
             (enter code func retaddr xsp args m0).(log) = m0.(log) ++ l).
  { intros func retaddr xsp args m0. unfold enter.
    destruct (wraps_of _ _); [exists []; now rewrite app_nil_r|].
    destruct (wc_skip _) as [[? ?]|]; simpl; eauto. }
  destruct ev as [func retaddr xsp args|retval|xsp]; simpl.
  - destruct (Hu xsp m) as [l1 H1].
    destruct (He func retaddr xsp args (unwind_to code xsp m)) as [l2 H2].
    exists (l1 ++ l2). now rewrite H2, H1, app_assoc.
  - unfold leave. destruct (wrap_stack m) as [|fr rest];
      [exists []; now rewrite app_nil_r|].
    destruct (run_posts code _ _ _ _ _) as [[wcx w'] evs]; simpl. eauto.
  - apply Hu.
Qed.

Lemma run_log (evs : list app_event) (m : machine C) :
  exists l, (run code evs m).(log) = m.(log) ++ l.
Proof.
  revert m. induction evs as [|ev evs IH]; intros m; simpl.
  - exists []. now rewrite app_nil_r.
  - destruct (IH (step code m ev)) as [l2 H2].
    destruct (step_log m ev) as [l1 H1].
    exists (l1 ++ l2). now rewrite H2, H1, app_assoc.
Qed.

(** A call that was skipped never gets a function body or a post-callback,
    whatever the application does later. *)
Lemma skipped_for_good (m : machine C) (later : list app_event)
    (n : nat) (func retval : Z) :
  consistent C m -> In (skipped n func retval) m.(log) ->
  (forall f a, ~ In (body_runs n f a) (run code later m).(log)) /\
  (forall f e a, ~ In (post_called n f e a) (run code later m).(log)).
Proof.
  intros Hc Hin.
  pose proof (run_consistent later m Hc) as Hc'.
  destruct (run_log later m) as [l Hl].
  assert (Hin' : In (skipped n func retval) (run code later m).(log)).
  { rewrite Hl. apply in_app_iff. now left. }
  pose proof (skipped_not_entered C _ Hc' _ _ _ Hin') as Hnot.
  split.
  - intros f a Hb. apply Hnot, in_entered. eauto.
  - intros f e a Hp. exact (Hnot (posts_entered C _ Hc' _ _ _ _ Hp)).
Qed.

(** *** Pairing of pre- and post-callbacks *)

Lemma pres_paired_with_posts (w : world C) (evs : list app_event)
    (n : nat) (e : wrap_entry) :
  let m := run code evs (start w) in
  has_pre e = true -> has_post e = true -> In n (entered m.(log)) ->
  count_pre n e m.(log) =
    (count_post n e m.(log) + pending n e m.(wrap_stack))%nat /\
  (m.(wrap_stack) = [] -> count_pre n e m.(log) = count_post n e m.(log)).
Proof.
  intros m Hpre Hpost Hn.
  pose proof (run_consistent evs (start w) (start_consistent w)) as Hc.
  fold m in Hc. pose proof (paired C m Hc n e Hpre Hpost Hn) as H.
  split; [exact H|]. intros Hst. rewrite Hst in H. simpl in H. lia.
Qed.

(** *** Unwinding *)

Lemma StronglySorted_map_filter {A B : Type} (R : B -> B -> Prop)
    (g : A -> B) (p : A -> bool) (l : list A) :
  StronglySorted R (map g l) -> StronglySorted R (map g (List.filter p l)).
Proof.
  induction l as [|x l IH]; simpl; intros H; [constructor|].
  apply StronglySorted_inv in H. destruct H as [H1 H2].
  destruct (p x); simpl; [|auto].
  constructor; [auto|].
  rewrite Forall_map in *. rewrite Forall_forall in *.
  intros y Hy. apply H2. apply list_elem_of_In in Hy.
  apply filter_In in Hy. apply list_elem_of_In. tauto.
Qed.

Lemma cache_exit_unwinds (m : machine C) (xsp : Z) :
  consistent C m ->
  let m' := step code m (cache_exit xsp) in
  let gone := List.filter (bypassed xsp) m.(wrap_stack) in
  m'.(log) = m.(log) ++ flat_map (fun fr => posts_of fr true) gone /\
  m'.(wrap_stack) =
    List.filter (fun fr => negb (bypassed xsp fr)) m.(wrap_stack) /\
  StronglySorted (fun a b => (b < a)%nat) (map fr_call gone) /\
  StronglySorted lt (entered m.(log)) /\
  Forall (fun fr => In fr.(fr_call) (entered m.(log))) gone /\
  (Forall (fun fr => bypassed xsp fr = true) m.(wrap_stack) ->
   m'.(wrap_stack) = []).
Proof.
  intros Hc m' gone. subst m' gone. simpl. unfold unwind_to.
  destruct m as [w stack nx lg]; simpl.
  destruct (unwind_spec xsp stack w nx lg Hc) as (_ & H2 & H3 & _).
  destruct (unwind code xsp stack w) as [[st w'] evs]; simpl in *.
  subst st evs. destruct Hc as [_ S1 _ E1 _ ES _ _ _]; simpl in *.
  split; [reflexivity|]. split; [reflexivity|].
  split; [now apply StronglySorted_map_filter|].
  split; [exact ES|]. split.
  - rewrite Forall_forall in *. intros fr Hfr. apply E1.
    apply list_elem_of_In in Hfr. apply filter_In in Hfr.
    apply list_elem_of_In. tauto.
  - intros Hall. clear - Hall.
    induction Hall as [|fr l Hfr _ IH]; simpl; [reflexivity|].
    rewrite Hfr. simpl. apply IH.
Qed.

(** *** The pre-callbacks the log keeps *)

Lemma pre_invocations_app (l1 l2 : list event) :
  pre_invocations (l1 ++ l2) = pre_invocations l1 ++ pre_invocations l2.
Proof. apply omap_app. Qed.

Lemma post_invocations_app (l1 l2 : list event) :
  post_invocations (l1 ++ l2) = post_invocations l1 ++ post_invocations l2.
Proof. apply omap_app. Qed.

Lemma pre_invocations_pres_of (n : nat) (f : Z) (entries : list wrap_entry) :
  pre_invocations (pres_of n f entries)
  = map (pair n) (List.filter has_pre entries).
Proof.
  unfold pres_of. induction (List.filter has_pre entries) as [|e l IH];
    [reflexivity|].
  simpl. unfold pre_invocations in *. simpl. f_equal. exact IH.
Qed.

Lemma pre_invocations_posts_of (fr : frame) (a : bool) :
  pre_invocations (posts_of fr a) = [].
Proof. unfold posts_of. induction (List.filter _ _); simpl; auto. Qed.

Lemma post_invocations_posts_of (fr : frame) (a : bool) :
  post_invocations (posts_of fr a)
  = map (pair fr.(fr_call)) (List.filter has_post (map fst fr.(fr_posts))).
Proof.
  unfold posts_of. induction (fr_posts fr) as [|[e d] l IH]; [reflexivity|].
  simpl. destruct (has_post e); simpl; [|exact IH].
  unfold post_invocations in *. simpl. f_equal. exact IH.
Qed.

Lemma pre_invocations_none (l : list event) :
  Forall (fun ev => match ev with pre_called _ _ _ => False | _ => True end) l ->
  pre_invocations l = [].
Proof.
  induction 1 as [|ev l Hev _ IH]; [reflexivity|].
  destruct ev; simpl in *; try exact IH. contradiction.
Qed.

Lemma pre_invocations_fresh (n : nat) (lg : list event) :
  Forall (fun ev => (call_of ev < n)%nat) lg ->
  Forall (fun p => (fst p < n)%nat) (pre_invocations lg).
Proof.
  induction 1 as [|ev l Hev _ IH]; [constructor|].
  destruct ev; simpl in *; try exact IH. constructor; assumption.
Qed.

Lemma of_calls_app (cs : list nat) (l1 l2 : list (nat * wrap_entry)) :
  of_calls cs (l1 ++ l2) = of_calls cs l1 ++ of_calls cs l2.
Proof. apply List.filter_app. Qed.

Lemma of_calls_none (cs : list nat) (l : list (nat * wrap_entry)) :
  Forall (fun p => ~ In (fst p) cs) l -> of_calls cs l = [].
Proof.
  induction 1 as [|p l Hp _ IH]; [reflexivity|].
  unfold of_calls in *. simpl. rewrite IH.
  destruct (existsb (Nat.eqb (fst p)) cs) eqn:E; [|reflexivity].
  apply existsb_exists in E. destruct E as (c & Hc & Heq).
  apply Nat.eqb_eq in Heq. subst c. contradiction.
Qed.

Lemma of_calls_all (cs : list nat) (l : list (nat * wrap_entry)) :
  Forall (fun p => In (fst p) cs) l -> of_calls cs l = l.
Proof.
  induction 1 as [|p l Hp _ IH]; [reflexivity|].
  unfold of_calls in *. simpl. rewrite IH.
  destruct (existsb (Nat.eqb (fst p)) cs) eqn:E; [reflexivity|].
  assert (existsb (Nat.eqb (fst p)) cs = true)
    by (apply existsb_exists; exists (fst p); split;
        [exact Hp | apply Nat.eqb_refl]).
  congruence.
Qed.

Lemma of_calls_ext (cs cs' : list nat) (l : list (nat * wrap_entry)) :
  (forall c, In c cs <-> In c cs') -> of_calls cs l = of_calls cs' l.
Proof.
  intros H. apply List.filter_ext. intros p.
  destruct (existsb (Nat.eqb (fst p)) cs) eqn:E;
    destruct (existsb (Nat.eqb (fst p)) cs') eqn:E'; try reflexivity.
  - apply existsb_exists in E. destruct E as (c & Hc & Heq).
    assert (existsb (Nat.eqb (fst p)) cs' = true)
      by (apply existsb_exists; exists c; split; [now apply H | exact Heq]).
    congruence.
  - apply existsb_exists in E'. destruct E' as (c & Hc & Heq).
    assert (existsb (Nat.eqb (fst p)) cs = true)
      by (apply existsb_exists; exists c; split; [now apply H | exact Heq]).
    congruence.
Qed.

(** In a list that is in the order of the calls, the invocations of
    several calls are those of the first call, then those of the second,
    and so on. *)
Lemma of_calls_cons_sorted (l : list (nat * wrap_entry)) (c : nat)
    (cs : list nat) :
  StronglySorted (fun a b => (fst a <= fst b)%nat) l ->
  Forall (fun c' => (c < c')%nat) cs ->
  of_calls (c :: cs) l = of_calls [c] l ++ of_calls cs l.
Proof.
  intros Hl Hc. unfold of_calls. cbn [existsb].
  induction Hl as [|p l Hl IHl Hp]; [reflexivity|].
  cbn [List.filter]. rewrite IHl. clear IHl.
  destruct (Nat.eqb_spec (fst p) c) as [Hpc|Hpc]; cbn [orb].
  - assert (Hnot : existsb (Nat.eqb (fst p)) cs = false).
    { destruct (existsb _ cs) eqn:E; [|reflexivity].
      apply existsb_exists in E. destruct E as (c' & Hc' & Heq).
      apply Nat.eqb_eq in Heq. rewrite Forall_forall in Hc.
      apply list_elem_of_In in Hc'. specialize (Hc _ Hc'). lia. }
    rewrite Hnot. reflexivity.
  - destruct (existsb (Nat.eqb (fst p)) cs) eqn:E; [|reflexivity].
    (* a later call: nothing of call [c] follows *)
    apply existsb_exists in E. destruct E as (c' & Hc' & Heq).
    apply Nat.eqb_eq in Heq. rewrite Forall_forall in Hc.
    apply list_elem_of_In in Hc'. pose proof (Hc _ Hc') as Hlt.
    assert (Hnone : List.filter (fun q => (fst q =? c)%nat || false) l = []).
    { clear - Hp Hlt Heq. induction Hp as [|q l Hq _ IH]; [reflexivity|].
      simpl. destruct (Nat.eqb_spec (fst q) c); [lia|]. simpl. exact IH. }
    rewrite Hnone. reflexivity.
Qed.

Lemma of_calls_sorted (l : list (nat * wrap_entry)) (cs : list nat) :
  StronglySorted (fun a b => (fst a <= fst b)%nat) l ->
  StronglySorted lt cs ->
  of_calls cs l = flat_map (fun c => of_calls [c] l) cs.
Proof.
  intros Hl Hcs. induction Hcs as [|c cs Hcs IH Hc].
  - simpl. apply of_calls_none. apply Forall_forall. intros p _ [].
  - simpl. rewrite <- IH. now apply of_calls_cons_sorted.
Qed.

Lemma filter_filter {A : Type} (p q : A -> bool) (l : list A) :
  List.filter p (List.filter q l) = List.filter (fun x => q x && p x) l.
Proof.
  induction l as [|x l IH]; simpl; [reflexivity|].
  destruct (q x); simpl; [destruct (p x)|]; now rewrite IH.
Qed.

Lemma filter_map_pair (n : nat) (p : wrap_entry -> bool)
    (l : list wrap_entry) :
  List.filter (fun x : nat * wrap_entry => p (snd x)) (map (pair n) l)
  = map (pair n) (List.filter p l).
Proof.
  induction l as [|e l IH]; simpl; [reflexivity|].
  destruct (p e); simpl; now rewrite IH.
Qed.

Lemma rev_flat_map {A B : Type} (f : A -> list B) (l : list A) :
  rev (flat_map f l) = flat_map (fun x => rev (f x)) (rev l).
Proof.
  induction l as [|x l IH]; simpl; [reflexivity|].
  rewrite rev_app_distr, IH, flat_map_app. simpl. now rewrite app_nil_r.
Qed.

Lemma filter_flat_map {A B : Type} (p : B -> bool) (f : A -> list B)
    (l : list A) :
  List.filter p (flat_map f l) = flat_map (fun x => List.filter p (f x)) l.
Proof.
  induction l as [|x l IH]; simpl; [reflexivity|].
  now rewrite List.filter_app, IH.
Qed.

(** The post-callbacks of a frame, among the requests with both callbacks,
    are the pre-callbacks the frame stands for, in reverse order. *)
Lemma frame_posts_rev_pres (fr : frame) (a : bool) :
  with_both (post_invocations (posts_of fr a))
  = rev (with_both (frame_pres fr)).
Proof.
  rewrite post_invocations_posts_of. unfold with_both, frame_pres.
  change (fun p : nat * wrap_entry => has_both (snd p))
    with (fun p : nat * wrap_entry => (fun e => has_both e) (snd p)).
  rewrite !filter_map_pair, !filter_filter, <- map_rev, List.filter_rev,
    rev_involutive.
  f_equal. apply List.filter_ext. intros e. unfold has_both.
  destruct (has_pre e), (has_post e); reflexivity.
Qed.

(** *** [pres_recorded] is kept *)

Lemma start_pres_recorded (w : world C) : pres_recorded C (start w).
Proof. constructor; simpl; constructor. Qed.

(** Events that are no pre-callbacks, and frames that go, change nothing. *)
Lemma pres_recorded_shrink (w w' : world C) (stack stack' : list frame)
    (nx : nat) (lg extra : list event) :
  pres_recorded C {| m_world := w; wrap_stack := stack; next_call := nx;
                     log := lg |} ->
  pre_invocations extra = [] ->
  (forall fr, In fr stack' -> In fr stack) ->
  pres_recorded C {| m_world := w'; wrap_stack := stack'; next_call := nx;
                     log := lg ++ extra |}.
Proof.
  intros [S F] Hextra Hsub; simpl in *.
  constructor; simpl; rewrite pre_invocations_app, Hextra, app_nil_r.
  - exact S.
  - apply Forall_forall. intros fr Hfr. rewrite Forall_forall in F.
    apply F. apply list_elem_of_In. apply Hsub. now apply list_elem_of_In.
Qed.

Lemma pre_invocations_flat_posts (l : list frame) (a : bool) :
  pre_invocations (flat_map (fun fr => posts_of fr a) l) = [].
Proof.
  induction l as [|fr l IH]; [reflexivity|].
  simpl. now rewrite pre_invocations_app, pre_invocations_posts_of, IH.
Qed.

Lemma unwind_to_pres_recorded (xsp : Z) (m : machine C) :
  consistent C m -> pres_recorded C m ->
  pres_recorded C (unwind_to code xsp m).
Proof.
  intros Hc Hp. unfold unwind_to. destruct m as [w stack nx lg]; simpl.
  destruct (unwind_spec xsp stack w nx lg Hc) as (_ & H2 & H3 & _).
  destruct (unwind code xsp stack w) as [[st w'] evs]; simpl in *.
  subst st evs. apply (pres_recorded_shrink w w' stack); [exact Hp | |].
  - apply pre_invocations_flat_posts.
  - intros fr Hfr. apply filter_In in Hfr. tauto.
Qed.

Lemma leave_pres_recorded (retval : Z) (m : machine C) :
  pres_recorded C m -> pres_recorded C (leave code retval m).
Proof.
  intros Hp. unfold leave. destruct m as [w stack nx lg]; simpl.
  destruct stack as [|fr rest]; [exact Hp|].
  match goal with
  | |- context [run_posts code ?n ?f ?p ?x ?y] =>
      pose proof (run_posts_events n f p x y) as Hev;
      destruct (run_posts code n f p x y) as [[wcx w1] evs]
  end.
  simpl in Hev. fold (posts_of fr false) in Hev. subst evs.
  apply (pres_recorded_shrink w w1 (fr :: rest)); [exact Hp | |].
  - now rewrite pre_invocations_app, pre_invocations_posts_of.
  - intros fr' Hfr'. now right.
Qed.

Lemma StronglySorted_app_fresh (l l' : list (nat * wrap_entry)) (n : nat) :
  StronglySorted (fun a b => (fst a <= fst b)%nat) l ->
  Forall (fun p => (fst p < n)%nat) l ->
  Forall (fun p => fst p = n) l' ->
  StronglySorted (fun a b => (fst a <= fst b)%nat) (l ++ l').
Proof.
  intros Hl Hlt Hn. induction Hl as [|p l Hl IH Hp]; simpl.
  - induction Hn as [|q l' Hq Hn IH]; constructor; [exact IH|].
    eapply List.Forall_impl; [|exact Hn]. simpl. intros; lia.
  - inversion Hlt; subst. constructor; [auto|].
    apply Forall_app. split; [exact Hp|].
    eapply List.Forall_impl; [|exact Hn]. simpl. intros; lia.
Qed.

Lemma enter_pres_recorded (func retaddr xsp : Z) (args : list Z)
    (m : machine C) :
  consistent C m -> pres_recorded C m ->
  pres_recorded C (enter code func retaddr xsp args m).
Proof.
  intros Hc Hp. unfold enter.
  destruct (wraps_of (m_world m) func) as [|e0 entries0] eqn:Hw; [exact Hp|].
  set (entries := e0 :: entries0).
  set (wc0 := entry_context func retaddr args).
  pose proof (run_pres_events_pre (next_call m) func entries wc0
                (m_world m)) as Hpre.
  pose proof (run_pres_not_skipped (next_call m) func entries wc0
                (m_world m)) as Hall.
  destruct (run_pres code (next_call m) func entries wc0 (m_world m))
    as [wc1 w1 posts evs]; simpl in *.
  destruct m as [w stack nx lg]; simpl in *.
  destruct Hc as [F1 _ _ _ F2 _ _ _ _]; simpl in *.
  destruct Hp as [S F]; simpl in *.
  pose proof (pre_invocations_fresh nx lg F2) as Hfresh.
  assert (Hkeys : Forall (fun p => fst p = nx) (pre_invocations evs)).
  { clear - Hpre. induction Hpre as [|ev l [e ->] _ IH]; simpl; constructor.
    - reflexivity.
    - exact IH. }
  assert (Hold : forall fr, In fr stack ->
            of_calls [fr_call fr] (pre_invocations evs) = []).
  { intros fr Hfr. apply of_calls_none.
    rewrite Forall_forall in F1. apply list_elem_of_In in Hfr.
    specialize (F1 _ Hfr). eapply List.Forall_impl; [|exact Hkeys].
    simpl. intros p -> [Heq|[]]. lia. }
  assert (Hframes : forall tail,
            pre_invocations tail = [] ->
            Forall (fun fr => of_calls [fr_call fr]
                                (pre_invocations (lg ++ evs ++ tail))
                              = frame_pres fr) stack).
  { intros tail Htail. apply Forall_forall. intros fr Hfr.
    rewrite Forall_forall in F. rewrite !pre_invocations_app, Htail,
      app_nil_r, of_calls_app, (F _ Hfr).
    apply list_elem_of_In in Hfr. rewrite (Hold _ Hfr). apply app_nil_r. }
  assert (Hsorted : forall tail,
            pre_invocations tail = [] ->
            StronglySorted (fun a b => (fst a <= fst b)%nat)
              (pre_invocations (lg ++ evs ++ tail))).
  { intros tail Htail. rewrite !pre_invocations_app, Htail, app_nil_r.
    now apply StronglySorted_app_fresh with nx. }
  destruct (wc_skip wc1) as [[retval sz]|] eqn:Hskip.
  - constructor; simpl; [apply Hsorted | apply Hframes]; reflexivity.
  - destruct (Hall eq_refl) as [-> Hposts]. clear Hall.
    constructor; simpl; [apply Hsorted; reflexivity|].
    constructor; [|apply Hframes; reflexivity].
    simpl. unfold frame_pres. cbn [fr_call fr_posts].
    rewrite Hposts. change (rev entries0 ++ [e0]) with (rev entries). rewrite rev_involutive.
    rewrite !pre_invocations_app, !of_calls_app, pre_invocations_pres_of.
    rewrite (of_calls_none [nx] (pre_invocations lg)).
    + simpl. rewrite app_nil_r. apply of_calls_all.
      apply Forall_forall. intros p Hp. apply list_elem_of_In in Hp.
      apply in_map_iff in Hp. destruct Hp as (e & <- & _). now left.
    + eapply List.Forall_impl; [|exact Hfresh]. simpl.
      intros p Hlt [Heq|[]]. lia.
Qed.

Lemma step_pres_recorded (m : machine C) (ev : app_event) :
  consistent C m -> pres_recorded C m -> pres_recorded C (step code m ev).
Proof.
  intros Hc Hp. destruct ev as [func retaddr xsp args|retval|xsp]; simpl.
  - apply enter_pres_recorded.
    + now apply unwind_to_consistent.
    + now apply unwind_to_pres_recorded.
  - now apply leave_pres_recorded.
  - now apply unwind_to_pres_recorded.
Qed.

Lemma run_pres_recorded (evs : list app_event) (m : machine C) :
  consistent C m -> pres_recorded C m -> pres_recorded C (run code evs m).
Proof.
  revert m. induction evs as [|ev evs IH]; intros m Hc Hp; simpl; [exact Hp|].
  apply IH; [now apply step_consistent | now apply step_pres_recorded].
Qed.

(** *** The order of the post-callbacks of a nonlocal exit *)

(** Among the requests with both callbacks, the post-callbacks invoked
    for a list of frames taken from the top of the wrap-stack are the
    pre-callbacks of their calls, in reverse order. *)
Lemma unwound_posts_rev_pres (m : machine C) (gone : list frame) (a : bool) :
  pres_recorded C m ->
  (forall fr, In fr gone -> In fr m.(wrap_stack)) ->
  StronglySorted (fun a b => (b < a)%nat) (map fr_call gone) ->
  with_both (post_invocations (flat_map (fun fr => posts_of fr a) gone))
  = rev (with_both (of_calls (map fr_call gone)
                      (pre_invocations m.(log)))).
Proof.
  intros [S F] Hsub Hgone.
  assert (Hcalls : StronglySorted lt (rev (map fr_call gone))).
  { clear - Hgone. induction Hgone as [|c cs Hcs IH Hc]; simpl.
    - constructor.
    - apply StronglySorted_snoc; [exact IH|].
      apply Forall_forall. intros k Hk. rewrite Forall_forall in Hc.
      apply Hc. apply list_elem_of_In. apply in_rev.
      now apply list_elem_of_In. }
  rewrite (of_calls_ext _ (rev (map fr_call gone))) by (intros c; apply in_rev).
  rewrite (of_calls_sorted _ _ S Hcalls).
  unfold with_both at 2. rewrite filter_flat_map, rev_flat_map, rev_involutive.
  clear Hcalls Hgone. induction gone as [|fr gone IH]; [reflexivity|].
  simpl. rewrite post_invocations_app. unfold with_both at 1.
  rewrite List.filter_app.
  fold (with_both (post_invocations (posts_of fr a))).
  fold (with_both (post_invocations
                     (flat_map (fun fr => posts_of fr a) gone))).
  rewrite IH by (intros fr' Hfr'; apply Hsub; now right). f_equal.
  rewrite frame_posts_rev_pres. f_equal.
  rewrite Forall_forall in F. rewrite (F fr); [reflexivity|].
  apply list_elem_of_In. apply Hsub. now left.
Qed.

(** When each of the frames on the wrap-stack has returned, the wrap-stack
    is empty. *)
Lemma returns_empty_wrap_stack (m : machine C) (retvals : list Z) :
  length retvals = length m.(wrap_stack) ->
  (run code (map app_return retvals) m).(wrap_stack) = [].
Proof.
  revert m. induction retvals as [|v retvals IH]; intros m Hlen; simpl.
  - destruct (wrap_stack m); [reflexivity | discriminate].
  - apply IH. unfold leave. destruct m as [w stack nx lg]; simpl in *.
    destruct stack as [|fr rest]; [discriminate|].
    destruct (run_posts code _ _ _ _ _) as [[wcx w1] evs]; simpl.
    now injection Hlen.
Qed.

(** *** Skipping a call *)

Lemma skip_call_skips (m0 : machine C) (func retaddr xsp : Z)
    (args : list Z) (retval sz : Z) (later : list app_event) :
  consistent C m0 ->
  let m := unwind_to code xsp m0 in
  wraps_of m.(m_world) func <> [] ->
  (run_pres code m.(next_call) func (wraps_of m.(m_world) func)
     (entry_context func retaddr args) m.(m_world))
    .(pr_wrapcxt).(wc_skip) = Some (retval, sz) ->
  let m1 := step code m0 (app_call func retaddr xsp args) in
  In (skipped m.(next_call) func retval) m1.(log) /\
  m1.(wrap_stack) = m.(wrap_stack) /\
  (forall f a, ~ In (body_runs m.(next_call) f a) (run code later m1).(log)) /\
  (forall f e a,
     ~ In (post_called m.(next_call) f e a) (run code later m1).(log)).
Proof.
  intros Hc m Hw Hskip m1.
  assert (Hc1 : consistent C m1) by (apply step_consistent, Hc).
  assert (Hm1 : In (skipped m.(next_call) func retval) m1.(log) /\
                m1.(wrap_stack) = m.(wrap_stack)).
  { subst m1. simpl. fold m. unfold enter.
    destruct (wraps_of (m_world m) func) as [|e0 entries0] eqn:E;
      [contradiction|].
    rewrite Hskip. simpl. split; [|reflexivity].
    rewrite !in_app_iff. right. right. now left. }
  destruct Hm1 as [Hin Hst]. split; [exact Hin|]. split; [exact Hst|].
  exact (skipped_for_good m1 later _ _ _ Hc1 Hin).
Qed.

(** [drwrap_skip_call] in a pre-callback marks the context, with the
    return value it was given. *)
Lemma drwrap_skip_call_pre (wc : wrapcxt_t) (retval sz : Z) :
  wc.(wc_where) = in_pre ->
  exists wc', drwrap_skip_call (Some wc) retval sz = (true, Some wc') /\
              wc'.(wc_skip) = Some (retval, sz) /\
              wc'.(wc_func) = wc.(wc_func).
Proof.
  intros H. unfold drwrap_skip_call. rewrite H. eexists. split; [reflexivity|].
  split; reflexivity.
Qed.

(** *** The order of the callbacks of one address *)

Lemma wraps_of_drwrap_wrap (w : world C) (func pre post : Z) :
  pre <> NULL \/ post <> NULL ->
  drwrap_wrap func pre post w =
    (true,
     set_wrap_table
       (<[func := wraps_of w func ++ [request (pre, post)]]> w.(wrap_table))
       w).
Proof.
  intros H. unfold drwrap_wrap, drwrap_wrap_ex.
  destruct ((pre =? NULL) && (post =? NULL)) eqn:E; [|reflexivity].
  apply andb_true_iff in E. rewrite !Z.eqb_eq in E. tauto.
Qed.

Lemma wraps_of_register_all (func : Z) (cbs : list (Z * Z)) (w : world C) :
  Forall (fun p => fst p <> NULL \/ snd p <> NULL) cbs ->
  wraps_of (register_all func cbs w) func =
  wraps_of w func ++ map request cbs.
Proof.
  intros H. revert w. induction H as [|[pre post] cbs Hp _ IH]; intros w;
    simpl; [now rewrite app_nil_r|].
  unfold register_all in *. simpl. rewrite IH, wraps_of_drwrap_wrap by exact Hp.
  simpl. unfold wraps_of at 1. simpl. rewrite lookup_insert_eq. simpl.
  now rewrite <- app_assoc.
Qed.

Lemma pre_order_app (l1 l2 : list event) :
  pre_order (l1 ++ l2) = pre_order l1 ++ pre_order l2.
Proof. apply omap_app. Qed.

Lemma post_order_app (l1 l2 : list event) :
  post_order (l1 ++ l2) = post_order l1 ++ post_order l2.
Proof. apply omap_app. Qed.

Lemma order_pres_of (n : nat) (f : Z) (entries : list wrap_entry) :
  pre_order (pres_of n f entries) = List.filter has_pre entries /\
  post_order (pres_of n f entries) = [].
Proof.
  unfold pres_of. induction (List.filter has_pre entries) as [|e l [IH1 IH2]];
    simpl; [auto|]. unfold pre_order, post_order in *. simpl.
  now rewrite IH1, IH2.
Qed.

Lemma order_posts_of (fr : frame) (a : bool) :
  pre_order (posts_of fr a) = [] /\
  post_order (posts_of fr a) = List.filter has_post (map fst fr.(fr_posts)).
Proof.
  unfold posts_of. induction (fr_posts fr) as [|[e d] l [IH1 IH2]];
    simpl; [auto|].
  destruct (has_post e); simpl; [|auto].
  unfold pre_order, post_order in *. simpl. now rewrite IH1, IH2.
Qed.

(** One call that is not skipped: the pre-callbacks of the address in the
    order of its list, the body, the post-callbacks in the reverse order,
    the return. *)
Lemma one_call_order (func retaddr xsp : Z) (args : list Z) (retval : Z)
    (w : world C) :
  not_skipped code func retaddr args w ->
  pre_order (one_call code func retaddr xsp args retval w)
    = List.filter has_pre (wraps_of w func) /\
  post_order (one_call code func retaddr xsp args retval w)
    = rev (List.filter has_post (wraps_of w func)).
Proof.
  unfold not_skipped, one_call. intros Hns.
  change (run code [app_call func retaddr xsp args; app_return retval]
            (start w))
    with (leave code retval (enter code func retaddr xsp args (start w))).
  unfold enter, start. cbn [m_world wrap_stack next_call log].
  destruct (wraps_of w func) as [|e0 entries0] eqn:Hw; [simpl; auto|].
  set (entries := e0 :: entries0) in *.
  destruct (run_pres_not_skipped O func entries
              (entry_context func retaddr args) w Hns) as [Hev Hposts].
  rewrite Hns. unfold leave. cbn [m_world wrap_stack next_call log].
  set (fr := {| fr_call := O; fr_func := func; fr_retaddr := retaddr;
                fr_xsp := xsp;
                fr_posts := pr_posts (run_pres code O func entries
                              (entry_context func retaddr args) w) |}).
  cbn [fr_call fr_func fr_posts fr_retaddr].
  match goal with
  | |- context [run_posts code ?n ?f ?p ?x ?y] =>
      pose proof (run_posts_events n f p x y) as Hpe;
      destruct (run_posts code n f p x y) as [[wcx w1] evs]
  end.
  cbn [snd fst] in Hpe. cbn [log app]. subst evs. rewrite Hev.
  change (map _ (List.filter _ (fr_posts fr))) with (posts_of fr false).
  rewrite !pre_order_app, !post_order_app.
  destruct (order_pres_of O func entries) as [-> ->].
  destruct (order_posts_of fr false) as [-> ->].
  subst fr. cbn [fr_posts]. rewrite Hposts, List.filter_rev. simpl.
  rewrite !app_nil_r. auto.
Qed.

(** The pre-callbacks that ran are the first of the list: a skip leaves
    out the rest. *)
Lemma run_pres_events_prefix (n : nat) (f : Z) (entries : list wrap_entry)
    (wc : wrapcxt_t) (w : world C) :
  exists rest,
    pres_of n f entries = (run_pres code n f entries wc w).(pr_events) ++ rest.
Proof.
  revert wc w. induction entries as [|e entries IH]; intros wc w; simpl.
  - exists []. reflexivity.
  - unfold pres_of in *. simpl. destruct (has_pre e); simpl; [|apply IH].
    destruct (wc_skip _); simpl.
    + eexists. reflexivity.
    + match goal with
      | |- context [run_pres code n f entries ?x ?y] =>
          destruct (IH x y) as [rest ->]
      end.
      eexists. reflexivity.
Qed.

Lemma one_call_pre_prefix (func retaddr xsp : Z) (args : list Z)
    (retval : Z) (w : world C) :
  exists rest,
    List.filter has_pre (wraps_of w func)
    = pre_order (one_call code func retaddr xsp args retval w) ++ rest.
Proof.
  destruct (wc_skip (pr_wrapcxt (run_pres code O func (wraps_of w func)
                                   (entry_context func retaddr args) w)))
    as [[v sz]|] eqn:Hskip.
  - unfold one_call.
    change (run code [app_call func retaddr xsp args; app_return retval]
              (start w))
      with (leave code retval (enter code func retaddr xsp args (start w))).
    unfold enter, start. cbn [m_world wrap_stack next_call log].
    destruct (wraps_of w func) as [|e0 entries0] eqn:Hw;
      [simpl in Hskip; discriminate|].
    rewrite Hskip. unfold leave. cbn [wrap_stack log app].
    rewrite pre_order_app, app_nil_r.
    destruct (run_pres_events_prefix O func (e0 :: entries0)
                (entry_context func retaddr args) w) as [rest Hrest].
    destruct (order_pres_of O func (e0 :: entries0)) as [<- _].
    rewrite Hrest, pre_order_app. eexists. reflexivity.
  - destruct (one_call_order func retaddr xsp args retval w Hskip)
      as [-> _].
    exists []. now rewrite app_nil_r.
Qed.


(** *** Replacing and restoring a function *)

Lemma execute_all_replace_table (pcs : list Z) (w : world C) :
  (execute_all pcs w).(replace_table) = w.(replace_table).
Proof.
  revert w. induction pcs as [|pc pcs IH]; intros w; simpl; [reflexivity|].
  unfold execute_all in *. simpl. rewrite IH. unfold execute.
  destruct (code_cache w !! pc); reflexivity.
Qed.

Lemma replace_then_remove (w : world C) (f g : Z) (between : list Z) :
  g <> NULL ->
  let r1 := drwrap_replace f g true w in
  let r2 := drwrap_replace f NULL true (execute_all between (snd r1)) in
  fst r1 = true /\ fst (execute f (snd r1)) = g /\
  fst r2 = true /\ fst (execute f (snd r2)) = f /\
  (snd r2).(replace_table) = delete f w.(replace_table).
Proof.
  intros Hg r1 r2.
  assert (H1 : r1 = (true, set_replace (<[f := g]> w.(replace_table))
                             (delete f w.(code_cache)) w)).
  { subst r1. unfold drwrap_replace. apply Z.eqb_neq in Hg. rewrite Hg.
    destruct (replace_table w !! f); reflexivity. }
  assert (Ht : (execute_all between (snd r1)).(replace_table)
               = <[f := g]> w.(replace_table)).
  { rewrite execute_all_replace_table, H1. reflexivity. }
  assert (H2 : r2 = (true,
                     set_replace
                       (delete f (execute_all between (snd r1)).(replace_table))
                       (delete f (execute_all between (snd r1)).(code_cache))
                       (execute_all between (snd r1)))).
  { subst r2. unfold drwrap_replace. simpl. rewrite Ht, lookup_insert_eq.
    reflexivity. }
  rewrite H2, H1. simpl. repeat split.
  - unfold execute. simpl. rewrite lookup_delete_eq, lookup_insert_eq. reflexivity.
  - unfold execute. simpl. rewrite !lookup_delete_eq. reflexivity.
  - rewrite H1 in Ht. simpl in Ht. rewrite Ht. apply delete_insert_eq.
Qed.

End WithClient.
End DrwrapFacts.

(** ** The wrap layer under the test client *)

Module DrwrapTestFacts.
Import Drwrap DrwrapFacts DrwrapTest.

(** *** The callbacks of the unwind test *)

Lemma is_long_cases (f : Z) :
  is_long f = true ->
  f = appdll "long0" \/ f = appdll "long1" \/ f = appdll "long2" \/
  f = appdll "long3".
Proof.
  unfold is_long. rewrite !orb_true_iff, !Z.eqb_eq. tauto.
Qed.

Lemma wraps_of_loaded_long (w : test_world) (f : Z) :
  w.(wrap_table) = loaded.(m_world).(wrap_table) ->
  is_long f = true \/ f = appdll "longdone" ->
  wraps_of w f = [unwindtest_request].
Proof.
  intros Hw Hf. unfold wraps_of. rewrite Hw.
  destruct Hf as [Hf|Hf]; [apply is_long_cases in Hf|];
    repeat (destruct Hf as [Hf|Hf]); subst f; vm_compute; reflexivity.
Qed.

Lemma wrap_unwindtest_pre_counts (s : cb_state client_state) :
  s.(cb_world).(client).(aborted) = false ->
  drwrap_get_func s.(cb_wrapcxt) <> global_of s addr_longdone ->
  let s' := test_code.(pre_code) fn_wrap_unwindtest_pre s in
  same_but_counter s s' /\
  s'.(cb_world).(client).(tls_field)
  = ptr_uint (s.(cb_world).(client).(tls_field) + 1).
Proof.
  intros Hal Hf.
  change (test_code.(pre_code) fn_wrap_unwindtest_pre)
    with (alive wrap_unwindtest_pre).
  unfold alive. rewrite Hal. unfold wrap_unwindtest_pre.
  apply Z.eqb_neq in Hf. rewrite Hf. cbn [negb].
  repeat split.
Qed.

Lemma wrap_unwindtest_pre_longdone (s : cb_state client_state) :
  drwrap_get_func s.(cb_wrapcxt) = global_of s addr_longdone ->
  test_code.(pre_code) fn_wrap_unwindtest_pre s = s.
Proof.
  intros Hf.
  change (test_code.(pre_code) fn_wrap_unwindtest_pre)
    with (alive wrap_unwindtest_pre).
  unfold alive, wrap_unwindtest_pre. apply Z.eqb_eq in Hf. rewrite Hf.
  destruct (aborted _); reflexivity.
Qed.

Lemma wrap_unwindtest_post_counts (s : cb_state client_state) :
  s.(cb_world).(client).(aborted) = false ->
  drwrap_get_func s.(cb_wrapcxt) <> global_of s addr_longdone ->
  let s' := test_code.(post_code) fn_wrap_unwindtest_post s in
  same_but_counter s s' /\
  s'.(cb_world).(client).(tls_field)
  = ptr_uint (s.(cb_world).(client).(tls_field) - 1).
Proof.
  intros Hal Hf.
  change (test_code.(post_code) fn_wrap_unwindtest_post)
    with (alive wrap_unwindtest_post).
  unfold alive. rewrite Hal. unfold wrap_unwindtest_post.
  apply Z.eqb_neq in Hf. rewrite Hf.
  repeat split.
Qed.

Lemma wrap_unwindtest_post_longdone (s : cb_state client_state) :
  s.(cb_world).(client).(aborted) = false ->
  drwrap_get_func s.(cb_wrapcxt) = global_of s addr_longdone ->
  let s' := test_code.(post_code) fn_wrap_unwindtest_post s in
  s'.(cb_world).(client).(tls_field) = s.(cb_world).(client).(tls_field) /\
  s'.(cb_world).(client).(aborted)
  = negb (s.(cb_world).(client).(tls_field) =? 0).
Proof.
  intros Hal Hf.
  change (test_code.(post_code) fn_wrap_unwindtest_post)
    with (alive wrap_unwindtest_post).
  unfold alive. rewrite Hal. unfold wrap_unwindtest_post.
  apply Z.eqb_eq in Hf. rewrite Hf. unfold CHECK.
  destruct (tls_field _ =? 0); simpl; auto.
Qed.


Lemma long_not_longdone (f : Z) : is_long f = true -> f <> appdll "longdone".
Proof.
  intros Hf. apply is_long_cases in Hf.
  repeat (destruct Hf as [Hf|Hf]); subst f; discriminate.
Qed.

Lemma ptr_uint_succ (x : Z) : ptr_uint (ptr_uint x + 1) = ptr_uint (x + 1).
Proof. unfold ptr_uint. apply Zplus_mod_idemp_l. Qed.

Lemma ptr_uint_pred (x : Z) : ptr_uint (ptr_uint x - 1) = ptr_uint (x - 1).
Proof. unfold ptr_uint. apply Zminus_mod_idemp_l. Qed.

Lemma unwindtest_world_longdone (w : test_world) :
  unwindtest_world w -> w.(client).(globals) addr_longdone = appdll "longdone".
Proof. intros (_ & Hg & _). rewrite Hg. reflexivity. Qed.

(** The post-callback of a frame of long0 .. long3 takes one off the
    counter, on a return and on an abnormal unwind. *)
Lemma run_posts_long (n : nat) (f : Z) (wrapcxt : option wrapcxt_t)
    (w : test_world) :
  unwindtest_world w ->
  drwrap_get_func wrapcxt <> appdll "longdone" ->
  let w' := snd (fst (run_posts test_code n f [(unwindtest_request, NULL)]
                        wrapcxt w)) in
  unwindtest_world w' /\
  w'.(client).(tls_field) = ptr_uint (w.(client).(tls_field) - 1).
Proof.
  intros Hw Hf. cbn [run_posts].
  change (has_post unwindtest_request) with true. cbn iota.
  change (post_cb unwindtest_request) with fn_wrap_unwindtest_post.
  set (s := {| cb_wrapcxt := wrapcxt; cb_user_data := NULL; cb_world := w |}).
  destruct (wrap_unwindtest_post_counts s) as ((_ & _ & Ht & Hg & Ha) & Hc).
  - apply Hw.
  - unfold global_of. cbn [cb_world cb_wrapcxt s].
    now rewrite (unwindtest_world_longdone w Hw).
  - cbn [snd fst]. destruct Hw as (Hw1 & Hw2 & Hw3).
    split; [|exact Hc]. split; [|split].
    + rewrite Ht. exact Hw1.
    + intros g. rewrite Hg. apply Hw2.
    + rewrite Ha. exact Hw3.
Qed.

Lemma unwind_long (xsp : Z) (stack : list frame) (w : test_world) :
  unwindtest_world w -> Forall unwindtest_frame stack ->
  w.(client).(tls_field) = ptr_uint (Z.of_nat (length stack)) ->
  let r := unwind test_code xsp stack w in
  unwindtest_world (snd (fst r)) /\ Forall unwindtest_frame (fst (fst r)) /\
  (snd (fst r)).(client).(tls_field)
  = ptr_uint (Z.of_nat (length (fst (fst r)))).
Proof.
  revert w. induction stack as [|fr rest IH]; intros w Hw Hfr Ht; simpl.
  - auto.
  - destruct (fr_xsp fr <? xsp); [|simpl; auto].
    inversion Hfr as [|? ? [Hlong Hposts] Hrest]; subst.
    rewrite Hposts.
    destruct (run_posts_long (fr_call fr) (fr_func fr) None w Hw)
      as [Hw' Ht']; [discriminate|].
    destruct (run_posts test_code _ _ _ None w) as [[wcx w1] evs1].
    cbn [snd fst] in Hw', Ht'.
    assert (Ht1 : tls_field (client w1) = ptr_uint (Z.of_nat (length rest))).
    { rewrite Ht', Ht, ptr_uint_pred. f_equal. simpl length. lia. }
    specialize (IH w1 Hw' Hrest Ht1).
    destruct (unwind test_code xsp rest w1) as [[st w2] evs2]. exact IH.
Qed.

Lemma unwind_to_long (xsp : Z) (m : machine client_state) :
  unwindtest_inv m -> unwindtest_inv (unwind_to test_code xsp m).
Proof.
  intros [Hw H4 H5]. unfold unwind_to.
  destruct (unwind_long xsp (wrap_stack m) (m_world m) Hw H4 H5)
    as (Hw' & Hf & Ht).
  destruct (unwind test_code xsp (wrap_stack m) (m_world m)) as [[st w] evs].
  cbn [fst snd] in *. constructor; assumption.
Qed.

Lemma leave_long (retval : Z) (m : machine client_state) :
  unwindtest_inv m -> unwindtest_inv (leave test_code retval m).
Proof.
  intros [Hw0 H4 H5]. unfold leave.
  destruct (wrap_stack m) as [|fr rest] eqn:Hst.
  - constructor; rewrite ?Hst; assumption.
  - inversion H4 as [|? ? [Hlong Hposts] Hrest]; subst. rewrite Hposts.
    match goal with
    | |- context [run_posts test_code ?n ?f ?p ?x ?y] =>
        destruct (run_posts_long n f x y Hw0) as [Hw Ht];
        [ simpl; now apply long_not_longdone
        | destruct (run_posts test_code n f p x y) as [[wcx w1] evs1] ]
    end.
    cbn [snd fst] in Hw, Ht.
    constructor; cbn [m_world wrap_stack]; try assumption.
    rewrite Ht, H5, ptr_uint_pred. f_equal. simpl length. lia.
Qed.

(** The pre-callback of long0 .. long3 adds one to the counter, and the
    call gets a frame. *)
Lemma enter_long (func retaddr xsp : Z) (args : list Z)
    (m : machine client_state) :
  unwindtest_inv m -> is_long func = true ->
  unwindtest_inv (enter test_code func retaddr xsp args m).
Proof.
  intros [(H1 & H2 & H3) H4 H5] Hlong. unfold enter.
  rewrite (wraps_of_loaded_long (m_world m) func H1 (or_introl Hlong)).
  cbn [run_pres]. change (has_pre unwindtest_request) with true. cbn iota.
  change (pre_cb unwindtest_request) with fn_wrap_unwindtest_pre.
  change (user_data unwindtest_request) with NULL.
  set (wc := entry_context func retaddr args).
  set (s := {| cb_wrapcxt := Some wc; cb_user_data := NULL;
               cb_world := m_world m |}).
  destruct (wrap_unwindtest_pre_counts s) as ((Hx & Hd & Ht & Hg & Ha) & Hc).
  - exact H3.
  - unfold global_of. cbn [cb_world cb_wrapcxt s drwrap_get_func wc_func wc
                           entry_context].
    rewrite H2. now apply long_not_longdone.
  - set (s' := pre_code test_code fn_wrap_unwindtest_pre s) in *.
    rewrite Hx. cbn [s cb_wrapcxt default from_option id wc entry_context
                     wc_skip pr_wrapcxt pr_world pr_posts pr_events app].
    constructor; cbn [m_world wrap_stack].
    + split; [|split].
      * rewrite Ht. exact H1.
      * intros g. rewrite Hg. apply H2.
      * rewrite Ha. exact H3.
    + constructor; [|exact H4]. split; [exact Hlong|].
      cbn [fr_posts]. now rewrite Hd.
    + rewrite Hc. cbn [s cb_world]. rewrite H5, ptr_uint_succ. f_equal.
      simpl length. lia.
Qed.

Lemma step_long (m : machine client_state) (ev : app_event) :
  unwindtest_inv m -> calls_long ev = true ->
  unwindtest_inv (step test_code m ev).
Proof.
  intros Hm Hev. destruct ev as [func retaddr xsp args|retval|xsp]; simpl.
  - apply enter_long; [now apply unwind_to_long | exact Hev].
  - now apply leave_long.
  - now apply unwind_to_long.
Qed.

Lemma run_long (evs : list app_event) (m : machine client_state) :
  unwindtest_inv m -> forallb calls_long evs = true ->
  unwindtest_inv (run test_code evs m).
Proof.
  revert m. induction evs as [|ev evs IH]; intros m Hm Hevs; simpl; [exact Hm|].
  simpl in Hevs. apply andb_true_iff in Hevs as [Hev Hevs].
  apply IH; [now apply step_long | exact Hevs].
Qed.

Lemma loaded_inv : unwindtest_inv loaded.
Proof.
  constructor; [repeat split | constructor | reflexivity].
Qed.

(** The call of longdone: its pre-callback leaves the counter alone, and
    its post-callback aborts unless the counter is 0. *)
Lemma longdone_checks (m : machine client_state) (retaddr xsp : Z)
    (args : list Z) (v : Z) :
  unwindtest_inv m ->
  let m1 := step test_code m (app_call (appdll "longdone") retaddr xsp args) in
  let m2 := step test_code m1 (app_return v) in
  m1.(m_world).(client).(tls_field)
  = ptr_uint (Z.of_nat (length m1.(wrap_stack) - 1)) /\
  m1.(m_world).(client).(aborted) = false /\
  m2.(m_world).(client).(aborted)
  = negb (m1.(m_world).(client).(tls_field) =? 0).
Proof.
  intros Hm m1 m2. subst m2 m1. cbn [step].
  pose proof (unwind_to_long xsp m Hm) as [(H1 & H2 & H3) H4 H5].
  set (m0 := unwind_to test_code xsp m) in *.
  unfold enter.
  rewrite (wraps_of_loaded_long (m_world m0) _ H1 (or_intror eq_refl)).
  cbn [run_pres]. change (has_pre unwindtest_request) with true. cbn iota.
  change (pre_cb unwindtest_request) with fn_wrap_unwindtest_pre.
  change (user_data unwindtest_request) with NULL.
  rewrite wrap_unwindtest_pre_longdone
    by (unfold global_of; cbn [cb_world cb_wrapcxt]; now rewrite H2).
  cbn [cb_wrapcxt default from_option id entry_context wc_skip pr_wrapcxt
       pr_world pr_posts pr_events app cb_world cb_user_data m_world
       wrap_stack].
  split; [|split].
  - rewrite H5. f_equal. simpl length. lia.
  - exact H3.
  - unfold leave. cbn [wrap_stack m_world fr_posts fr_call fr_func fr_retaddr
                       run_posts].
    change (has_post unwindtest_request) with true. cbn iota.
    change (post_cb unwindtest_request) with fn_wrap_unwindtest_post.
    match goal with
    | |- context [post_code test_code fn_wrap_unwindtest_post ?s] =>
        destruct (wrap_unwindtest_post_longdone s) as [_ Hc];
        [ exact H3
        | unfold global_of; cbn [cb_world cb_wrapcxt drwrap_get_func wc_func];
          now rewrite H2
        | ]
    end.
    cbn [m_world cb_world] in *. exact Hc.
Qed.


(** C1.  For every execution of a wrapped function, each invocation of a
    pre-callback is matched by exactly one invocation of its post-callback,
    normal or abnormal: at any moment the pre-callback invocations of a
    call whose body ran are as many as its post-callback invocations plus
    those its frame on the wrap-stack still owes, and as many as the
    post-callback invocations once the wrap-stack is empty.  In the unwind
    test the pre-callback of long0 .. long3 adds one to the counter in the
    TLS slot and their post-callback takes one off, on a return and on an
    abnormal unwind; so whatever the application does with long0 .. long3
    the counter is the number of frames on the wrap-stack, and the
    post-callback of longdone finds 0, and its CHECK passes, exactly when
    no frame of long0 .. long3 is left.  In scenario S4 the counter goes
    1, 2, 3, 4, back to 1 at the jump, to 0 when long0 returns, and is 0
    when longdone's post-callback runs. *)
Theorem every_pre_callback_gets_its_post_callback :
  (forall (C : Type) (code : client_code C) (w : world C)
          (evs : list app_event) (n : nat) (e : wrap_entry),
     let m := run code evs (start w) in
     has_pre e = true -> has_post e = true -> In n (entered m.(log)) ->
     count_pre n e m.(log) =
       (count_post n e m.(log) + pending n e m.(wrap_stack))%nat /\
     (m.(wrap_stack) = [] ->
      count_pre n e m.(log) = count_post n e m.(log))) /\
  (forall s : cb_state client_state,
     s.(cb_world).(client).(aborted) = false ->
     drwrap_get_func s.(cb_wrapcxt) <> global_of s addr_longdone ->
     let s1 := test_code.(pre_code) fn_wrap_unwindtest_pre s in
     let s2 := test_code.(post_code) fn_wrap_unwindtest_post s in
     same_but_counter s s1 /\
     s1.(cb_world).(client).(tls_field)
     = ptr_uint (s.(cb_world).(client).(tls_field) + 1) /\
     same_but_counter s s2 /\
     s2.(cb_world).(client).(tls_field)
     = ptr_uint (s.(cb_world).(client).(tls_field) - 1)) /\
  (forall evs : list app_event,
     forallb calls_long evs = true ->
     unwindtest_inv (run test_code evs loaded)) /\
  (forall (evs : list app_event) (retaddr xsp : Z) (args : list Z) (v : Z),
     forallb calls_long evs = true ->
     let m1 := run test_code
                 (evs ++ [app_call (appdll "longdone") retaddr xsp args])
                 loaded in
     let m2 := step test_code m1 (app_return v) in
     m1.(m_world).(client).(tls_field)
     = ptr_uint (Z.of_nat (length m1.(wrap_stack) - 1)) /\
     (m2.(m_world).(client).(aborted) = false <->
      m1.(m_world).(client).(tls_field) = 0)) /\
  (let before :=
     run test_code (removelast (unwind_scenario inside_long0)) loaded in
   let after := run test_code (unwind_scenario inside_long0) loaded in
   counter_trace (unwind_scenario inside_long0) loaded
   = [1; 2; 3; 4; 1; 0; 0; 0] /\
   before.(m_world).(client).(tls_field) = 0 /\
   map fr_func before.(wrap_stack) = [appdll "longdone"] /\
   after.(m_world).(client).(aborted) = false /\
   after.(wrap_stack) = []).
Proof.
  split; [|split; [|split; [|split]]].
  - intros C code w evs n e. apply pres_paired_with_posts.
  - intros s Hal Hf s1 s2.
    destruct (wrap_unwindtest_pre_counts s Hal Hf) as [H1 H2].
    destruct (wrap_unwindtest_post_counts s Hal Hf) as [H3 H4].
    auto.
  - intros evs Hevs. apply run_long; [apply loaded_inv | exact Hevs].
  - intros evs retaddr xsp args v Hevs m1 m2. subst m2 m1.
    unfold run. rewrite fold_left_app. cbn [fold_left].
    fold (run test_code evs loaded).
    destruct (longdone_checks (run test_code evs loaded) retaddr xsp args v)
      as (H1 & _ & H3).
    { apply run_long; [apply loaded_inv | exact Hevs]. }
    split; [exact H1|]. rewrite H3, negb_false_iff. apply Z.eqb_eq.
  - vm_compute. repeat split.
Qed.

(** In the unwind test, call 2 (long2) has one invocation of
    wrap_unwindtest_pre and one of wrap_unwindtest_post. *)
Lemma every_pre_callback_gets_its_post_callback_long2 :
  let e := request (fn_wrap_unwindtest_pre, fn_wrap_unwindtest_post) in
  let m := run test_code (unwind_scenario inside_long0)
             (start loaded.(m_world)) in
  count_pre 2 e m.(log) = count_post 2 e m.(log).
Proof.
  apply (proj1 every_pre_callback_gets_its_post_callback
           client_state test_code loaded.(m_world)
           (unwind_scenario inside_long0) 2%nat
           (request (fn_wrap_unwindtest_pre, fn_wrap_unwindtest_post)));
    vm_compute; auto.
Defined.



(** C3.  When a pre-callback of a wrapped function calls
    [drwrap_skip_call(wrapcxt, v, s)], the call is redirected to its caller
    with return value [v], no frame is pushed, the function's body does not
    run, and no post-callback is ever invoked for that call, whatever the
    application does afterwards.  In the test, the call of skipme prints
    the pre-callback's line, returns 7 and does not reach the CHECK in
    wrap_post. *)
Theorem skip_call_returns_without_body_or_post :
  (forall (wc : wrapcxt_t) (v s : Z),
     wc.(wc_where) = in_pre ->
     exists wc', drwrap_skip_call (Some wc) v s = (true, Some wc') /\
                 wc'.(wc_skip) = Some (v, s) /\
                 wc'.(wc_func) = wc.(wc_func)) /\
  (forall (C : Type) (code : client_code C) (w : world C)
          (evs later : list app_event) (func retaddr xsp : Z)
          (args : list Z) (v s : Z),
     let m := unwind_to code xsp (run code evs (start w)) in
     let n := m.(next_call) in
     wraps_of m.(m_world) func <> [] ->
     (run_pres code n func (wraps_of m.(m_world) func)
        (entry_context func retaddr args) m.(m_world))
       .(pr_wrapcxt).(wc_skip) = Some (v, s) ->
     let m1 := step code (run code evs (start w))
                 (app_call func retaddr xsp args) in
     In (skipped n func v) m1.(log) /\
     m1.(wrap_stack) = m.(wrap_stack) /\
     (forall f a, ~ In (body_runs n f a) (run code later m1).(log)) /\
     (forall f e a, ~ In (post_called n f e a) (run code later m1).(log))) /\
  (let m := run test_code skip_scenario loaded in
   m.(log) = [pre_called 0 (appdll "skipme")
                (request (fn_wrap_pre, fn_wrap_post));
              skipped 0 (appdll "skipme") 7] /\
   m.(m_world).(client).(stderr) = ["  <pre-skipme>"] /\
   m.(m_world).(client).(aborted) = false /\
   m.(wrap_stack) = []).
Proof.
  split; [|split].
  - intros wc v s. apply drwrap_skip_call_pre.
  - intros C code w evs later func retaddr xsp args v s m n Hw Hskip m1.
    apply (skip_call_skips C code (run code evs (start w)) func retaddr xsp
             args v s later); try assumption.
    apply run_consistent, start_consistent.
  - vm_compute. repeat split.
Qed.

(** The call of skipme in the test, followed by the unwind scenario: call
    0 never gets the post-callback of its request. *)
Lemma skip_call_returns_without_body_or_post_skipme :
  ~ In (post_called 0 (appdll "skipme") (request (fn_wrap_pre, fn_wrap_post))
          false)
       (run test_code (unwind_scenario 0x7100)
          (step test_code (run test_code [] (start loaded.(m_world)))
             (app_call (appdll "skipme") 0x400300 0x7000 [4]))).(log).
Proof.
  apply (proj2 (proj2 (proj2
           (proj1 (proj2 skip_call_returns_without_body_or_post)
              client_state test_code loaded.(m_world) []
              (unwind_scenario 0x7100) (appdll "skipme") 0x400300 0x7000
              [4] 7 0 ltac:(vm_compute; discriminate)
              ltac:(vm_compute; reflexivity))))).
Defined.

(** C4.  When a nonlocal exit takes the stack pointer above the
    watermarks of frames on the wrap-stack, the post-callbacks of every
    bypassed frame are invoked with the abnormal indication (the NULL
    wrapcxt, through which neither the return value nor the arguments can
    be read or set), in the reverse of the order in which the
    pre-callbacks of those calls were invoked, and the bypassed frames are
    popped; the frames that were not bypassed are popped when they return,
    so that the wrap-stack is empty on exit (at once, when the exit
    bypassed every frame).  In scenario S4 the jump of long3 lands inside long0: the
    client sees a NULL wrapcxt in the post-callbacks of long3, long2 and
    long1, in this order, the post-callback of long0 runs when long0
    returns, those of longdone run normally, and the wrap-stack is empty
    at the end. *)
Theorem nonlocal_exit_runs_bypassed_post_callbacks :
  (forall (C : Type) (code : client_code C) (w : world C)
          (evs : list app_event) (xsp : Z),
     let m := run code evs (start w) in
     let m' := step code m (cache_exit xsp) in
     let gone := List.filter (bypassed xsp) m.(wrap_stack) in
     let posts := flat_map (fun fr => posts_of fr true) gone in
     m'.(log) = m.(log) ++ posts /\
     with_both (post_invocations posts)
     = rev (with_both (of_calls (map fr_call gone)
                         (pre_invocations m.(log)))) /\
     m'.(wrap_stack) =
       List.filter (fun fr => negb (bypassed xsp fr)) m.(wrap_stack) /\
     (forall retvals : list Z,
        length retvals = length m'.(wrap_stack) ->
        (run code (map app_return retvals) m').(wrap_stack) = []) /\
     (Forall (fun fr => bypassed xsp fr = true) m.(wrap_stack) ->
      m'.(wrap_stack) = [])) /\
  (drwrap_get_retval None = NULL /\
   (forall arg : nat, drwrap_get_arg None arg = NULL) /\
   (forall v : Z, drwrap_set_retval None v = (false, None)) /\
   (forall (arg : nat) (v : Z), drwrap_set_arg None arg v = (false, None))) /\
  (let m := run test_code (unwind_scenario inside_long0) loaded in
   m.(log) =
     [pre_called 0 (appdll "long0") unwindtest_request;
      body_runs 0 (appdll "long0") [];
      pre_called 1 (appdll "long1") unwindtest_request;
      body_runs 1 (appdll "long1") [];
      pre_called 2 (appdll "long2") unwindtest_request;
      body_runs 2 (appdll "long2") [];
      pre_called 3 (appdll "long3") unwindtest_request;
      body_runs 3 (appdll "long3") [];
      post_called 3 (appdll "long3") unwindtest_request true;
      post_called 2 (appdll "long2") unwindtest_request true;
      post_called 1 (appdll "long1") unwindtest_request true;
      post_called 0 (appdll "long0") unwindtest_request false;
      returned 0 (appdll "long0") 0;
      pre_called 4 (appdll "longdone") unwindtest_request;
      body_runs 4 (appdll "longdone") [];
      post_called 4 (appdll "longdone") unwindtest_request false;
      returned 4 (appdll "longdone") 0] /\
   m.(m_world).(client).(stderr) =
     ["  <pre-long0>"; "  <pre-long1>"; "  <pre-long2>"; "  <pre-long3>";
      "  <post-long3 abnormal>"; "  <post-long2 abnormal>";
      "  <post-long1 abnormal>"; "  <post-long0>"] /\
   m.(m_world).(client).(aborted) = false /\
   m.(wrap_stack) = []).
Proof.
  split.
  - intros C code w evs xsp m m' gone posts.
    assert (Hc : consistent C m) by apply run_consistent, start_consistent.
    assert (Hp : pres_recorded C m).
    { apply run_pres_recorded;
        [apply start_consistent | apply start_pres_recorded]. }
    destruct (cache_exit_unwinds C code m xsp Hc)
      as (Hlog & Hstack & Hsorted & _ & _ & Hall).
    split; [exact Hlog|]. split; [|split; [exact Hstack|split]].
    + apply unwound_posts_rev_pres; [exact Hp | | exact Hsorted].
      intros fr Hfr. apply filter_In in Hfr. tauto.
    + intros retvals Hlen. now apply returns_empty_wrap_stack.
    + exact Hall.
  - split; [repeat split|]. vm_compute. repeat split.
Qed.

(** In S4 the frame of long0 is the one the jump leaves: the wrap-stack is
    empty once long0 has returned. *)
Lemma nonlocal_exit_runs_bypassed_post_callbacks_long :
  (run test_code (map app_return [0])
     (step test_code (run test_code long_calls (start loaded.(m_world)))
        (cache_exit inside_long0))).(wrap_stack) = [].
Proof.
  apply (proj1 (proj2 (proj2 (proj2
           (proj1 nonlocal_exit_runs_bypassed_post_callbacks
              client_state test_code loaded.(m_world)
              long_calls inside_long0)))) [0]).
  vm_compute. reflexivity.
Defined.

(** C5.  [drwrap_replace(f, g, true)] followed by
    [drwrap_replace(f, NULL, true)] restores native execution of [f]: both
    calls succeed, in between executing [f] runs [g], and afterwards
    executing [f] runs the code at [f] and the replace table is the one
    with no replacement for [f].  The test's replacement of replaceme at
    load and its removal at unload both pass their CHECK. *)
Theorem replace_then_remove_restores_native :
  (forall (C : Type) (w : world C) (f g : Z) (between : list Z),
     g <> NULL ->
     let r1 := drwrap_replace f g true w in
     let r2 := drwrap_replace f NULL true (execute_all between (snd r1)) in
     fst r1 = true /\ fst (execute f (snd r1)) = g /\
     fst r2 = true /\ fst (execute f (snd r2)) = f /\
     (snd r2).(replace_table) = delete f w.(replace_table)) /\
  (let w1 := loaded.(m_world) in
   let w2 := module_unload_event_unreplace
               (execute_all [appdll "replaceme"] w1) in
   w1.(client).(aborted) = false /\
   fst (execute (appdll "replaceme") w1) = fn_replacewith /\
   w2.(client).(aborted) = false /\
   fst (execute (appdll "replaceme") w2) = appdll "replaceme").
Proof.
  split.
  - intros C w f g between. apply replace_then_remove.
  - vm_compute. repeat split.
Qed.

Lemma replace_then_remove_restores_native_replaceme :
  fst (execute (appdll "replaceme")
         (snd (drwrap_replace (appdll "replaceme") NULL true
                 (execute_all [appdll "replaceme"]
                    (snd (drwrap_replace (appdll "replaceme") fn_replacewith
                            true fresh_world))))))
  = appdll "replaceme".
Proof.
  apply (proj1 replace_then_remove_restores_native client_state fresh_world
           (appdll "replaceme") fn_replacewith [appdll "replaceme"]).
  discriminate.
Defined.

End DrwrapTestFacts.

(** ** Copy-on-write protections *)

Module WritecopyFacts.
Import Macros MacrosFacts Prot ProtFacts Writecopy.

Lemma land_uint_not_diag (a q : Z) : Z.land (Z.land a q) (uint_not q) = 0.
Proof.
  unfold uint_not. rewrite <- Z.land_ones by lia.
  rewrite Z.land_assoc, <- (Z.land_assoc a q), Z.land_lnot_diag.
  now rewrite Z.land_0_r, Z.land_0_l.
Qed.

Lemma land_uint_not_self (v : Z) : Z.land v (uint_not v) = 0.
Proof. rewrite <- (Z.land_diag v) at 1. apply land_uint_not_diag. Qed.

Section PageValues.
Variable c : constants.
Hypothesis ok : constants_ok c.

Abbreviation Q := (c.(PAGE_PROTECTION_QUALIFIERS)).

Lemma strip_qualifiers_lor (v old : Z) :
  strip_qualifiers c v = v ->
  strip_qualifiers c (Z.lor v (Z.land old Q)) = v.
Proof.
  intros Hv. unfold strip_qualifiers in *.
  rewrite Z.land_lor_distr_l, Hv, land_uint_not_diag. apply Z.lor_0_r.
Qed.

Lemma unqualified_land (v : Z) :
  strip_qualifiers c v = v -> Z.land v Q = 0.
Proof.
  unfold strip_qualifiers. intros Hv. rewrite <- Hv.
  rewrite <- Z.land_assoc, (Z.land_comm (uint_not _)).
  rewrite land_uint_not_self. apply Z.land_0_r.
Qed.

(** [prot & ~flags], with [flags] the protection without its qualifiers, is
    the qualifier bits of [prot]. *)
Lemma other_flags_strip (prot : Z) :
  strip_qualifiers c (Z.land prot (uint_not (strip_qualifiers c prot))) = 0.
Proof.
  unfold strip_qualifiers at 1.
  rewrite <- Z.land_assoc, (Z.land_comm (uint_not _)), Z.land_assoc.
  apply land_uint_not_self.
Qed.

Lemma other_flags_land (prot : Z) :
  0 <= prot < 2 ^ 32 ->
  Z.land (Z.land prot (uint_not (strip_qualifiers c prot))) Q = Z.land prot Q.
Proof.
  intros Hrange.
  assert (Hp : Z.land prot (Z.ones 32) = prot)
    by (rewrite Z.land_ones by lia; apply Z.mod_small; lia).
  rewrite <- Hp at 1 3. unfold strip_qualifiers, uint_not.
  rewrite <- !Z.land_ones by lia.
  apply Z.bits_inj'. intros n Hn.
  rewrite !Z.land_spec, Z.lnot_spec, !Z.land_spec, Z.lnot_spec by lia.
  destruct (Z.testbit prot n), (Z.testbit Q n), (Z.testbit (Z.ones 32) n);
    reflexivity.
Qed.

(** The flags that replace the old ones sit under the old qualifiers. *)
Lemma strip_qualifiers_new_flags (prot w : Z) :
  strip_qualifiers c
    (Z.lor (Z.land prot (uint_not (strip_qualifiers c prot))) w) =
  strip_qualifiers c w.
Proof.
  pose proof (other_flags_strip prot) as H. unfold strip_qualifiers at 1 in H.
  unfold strip_qualifiers at 1. rewrite Z.land_lor_distr_l, H.
  apply Z.lor_0_l.
Qed.

Lemma land_new_flags (prot w : Z) :
  0 <= prot < 2 ^ 32 -> strip_qualifiers c w = w ->
  Z.land (Z.lor (Z.land prot (uint_not (strip_qualifiers c prot))) w) Q =
  Z.land prot Q.
Proof.
  intros Hrange Hw.
  rewrite Z.land_lor_distr_l, (other_flags_land prot Hrange),
    (unqualified_land w Hw).
  apply Z.lor_0_r.
Qed.

(** The three predicates look at the protection without its qualifiers
    only. *)
Lemma prot_is_strip (p p' : Z) :
  strip_qualifiers c p = strip_qualifiers c p' ->
  prot_is_readable c p = prot_is_readable c p' /\
  prot_is_writable c p = prot_is_writable c p' /\
  prot_is_executable c p = prot_is_executable c p'.
Proof.
  intros H. unfold prot_is_readable, prot_is_writable, prot_is_executable.
  rewrite H. auto.
Qed.

(** Comparing two of the eight PAGE_ values: equal exactly at the same
    index. *)
Lemma page_values_eqb (i j : nat) (a b : Z) :
  page_values c !! i = Some a -> page_values c !! j = Some b ->
  (a =? b) = if decide (i = j) then true else false.
Proof.
  intros Hi Hj. destruct (decide (i = j)) as [->|Hne].
  - rewrite Hi in Hj. injection Hj as ->. apply Z.eqb_refl.
  - eapply page_values_differ; eauto.
Qed.


End PageValues.

(** Decide every comparison between two of the PAGE_ values in the goal. *)
Ltac page_eqb c ok :=
  repeat match goal with
         | |- context [?a =? ?b] =>
             at_index ltac:(fun i => at_index ltac:(fun j =>
               rewrite (page_values_eqb c ok i j a b eq_refl eq_refl)))
         end.

Section WithConstants.
Variable c : constants.
Hypothesis ok : constants_ok c.

Abbreviation Q := (c.(PAGE_PROTECTION_QUALIFIERS)).

(** What the three predicates answer on the i-th PAGE_ value, with any
    qualifiers on top: NOACCESS is not readable, the values at 2, 3, 6 and 7
    are writable, those from 4 on executable. *)
Lemma prot_is_at (i : nat) (v p : Z) :
  page_values c !! i = Some v -> strip_qualifiers c p = v ->
  prot_is_readable c p = bool_decide (1 <= i)%nat /\
  prot_is_writable c p = bool_decide (i ∈ [2; 3; 6; 7]%nat) /\
  prot_is_executable c p = bool_decide (4 <= i)%nat.
Proof.
  intros Hi Hp.
  unfold prot_is_readable, prot_is_writable, prot_is_executable, is_case,
    existsb.
  rewrite Hp. clear Hp.
  do 8 (destruct i as [|i]; [injection Hi as <-; page_eqb c ok; simpl; auto|]).
  discriminate Hi.
Qed.


Lemma osprot_to_memprot_at (i : nat) (v p : Z) :
  page_values c !! i = Some v -> strip_qualifiers c p = v ->
  osprot_to_memprot c p =
  memprot_of c (bool_decide (1 <= i)%nat) (bool_decide (i ∈ [2; 3; 6; 7]%nat))
             (bool_decide (4 <= i)%nat).
Proof.
  intros Hi Hp. destruct (prot_is_at i v p Hi Hp) as (R & W & X).
  unfold osprot_to_memprot, memprot_of. rewrite R, W, X.
  destruct (bool_decide (1 <= i)%nat), (bool_decide (i ∈ [2; 3; 6; 7]%nat)),
    (bool_decide (4 <= i)%nat); simpl; rewrite ?Z.lor_0_l, ?Z.lor_0_r;
    reflexivity.
Qed.

(** [memprot_to_osprot] answers with one of five PAGE_ values, whatever it
    is given. *)
Lemma memprot_to_osprot_page (p : Z) :
  exists i, i ∈ [0; 1; 2; 5; 6]%nat /\
            page_values c !! i = Some (memprot_to_osprot c p).
Proof.
  unfold memprot_to_osprot.
  destruct (TEST _ _); [destruct (TEST _ _) | destruct (TEST _ _);
                                               [destruct (TEST _ _)|]].
  - exists 6%nat. split; [set_solver | reflexivity].
  - exists 5%nat. split; [set_solver | reflexivity].
  - exists 2%nat. split; [set_solver | reflexivity].
  - exists 1%nat. split; [set_solver | reflexivity].
  - exists 0%nat. split; [set_solver | reflexivity].
Qed.

(** [osprot_add_writecopy] on the i-th PAGE_ value: READWRITE becomes
    WRITECOPY, EXECUTE_READWRITE becomes EXECUTE_WRITECOPY, and the others
    come back as they are. *)
Lemma osprot_add_writecopy_at (i : nat) (v : Z) :
  page_values c !! i = Some v ->
  page_values c !! (if decide (i = 2%nat) then 3%nat
                    else if decide (i = 6%nat) then 7%nat else i) =
  Some (osprot_add_writecopy c v) /\
  osprot_add_writecopy_asserts c v = bool_decide (i ∈ [2; 6]%nat).
Proof.
  intros Hi. unfold osprot_add_writecopy, osprot_add_writecopy_asserts.
  rewrite (page_value_unqualified c ok i v Hi), land_uint_not_self, Z.lor_0_l.
  do 8 (destruct i as [|i];
        [injection Hi as <-; page_eqb c ok; simpl; split; reflexivity|]).
  discriminate Hi.
Qed.


(** The value [osprot_replace_memprot] returns, by the index of what
    [memprot_to_osprot] chose: the next PAGE_ value (the copy-on-write one)
    when the old protection is copy-on-write and the new one writable, and
    the old qualifiers on top. *)
Lemma osprot_replace_memprot_at (old p : Z) (i : nat) :
  i ∈ [0; 1; 2; 5; 6]%nat ->
  page_values c !! i = Some (memprot_to_osprot c p) ->
  exists v,
    page_values c !!
      (if prot_is_copyonwrite c old && bool_decide (i ∈ [2; 6]%nat)
       then S i else i) = Some v /\
    osprot_replace_memprot c old p = Z.lor v (Z.land old Q).
Proof.
  intros Hin Hi. unfold osprot_replace_memprot.
  destruct (prot_is_at i _ _ Hi (page_value_unqualified c ok i _ Hi))
    as (_ & W & _).
  destruct (osprot_add_writecopy_at i _ Hi) as (A & _).
  rewrite W. clear W. revert A Hi.
  generalize (memprot_to_osprot c p) as m. intros m A Hi.
  destruct (prot_is_copyonwrite c old); simpl.
  - set_unfold in Hin.
    destruct Hin as [->|[->|[->|[->|[->|[]]]]]]; simpl in *; eauto.
  - eauto.
Qed.


(** The index among the PAGE_ values of what [memprot_to_osprot] gives for a
    value built from the three bits in which WRITE and EXEC come with READ. *)
Lemma memprot_to_osprot_of (r w x : bool) :
  (w = true \/ x = true -> r = true) ->
  page_values c !! (if x then if w then 6 else 5
                    else if r then if w then 2 else 1 else 0)%nat =
  Some (memprot_to_osprot c (memprot_of c r w x)).
Proof.
  intros Hread. destruct (TEST_memprot_of c ok r w x) as (Tr & Tw & Tx).
  unfold memprot_to_osprot. rewrite Tr, Tw, Tx.
  destruct x, w, r; try reflexivity; discriminate Hread; auto.
Qed.

(** X1.  Replacing the protection of a page and reading it back gives the
    protection that was asked for, whatever the page had before. *)
Theorem osprot_replace_memprot_keeps_memprot (old : Z) (r w x : bool) :
  (w = true \/ x = true -> r = true) ->
  osprot_to_memprot c (osprot_replace_memprot c old (memprot_of c r w x)) =
  memprot_of c r w x.
Proof.
  intros Hread. pose proof (memprot_to_osprot_of r w x Hread) as Hi.
  match type of Hi with _ !! ?i = _ =>
    assert (Hin : i ∈ [0; 1; 2; 5; 6]%nat)
      by (destruct x, w, r; set_solver);
    destruct (osprot_replace_memprot_at old _ i Hin Hi) as (v & Hv & ->)
  end.
  rewrite (osprot_to_memprot_at _ v _ Hv
             (strip_qualifiers_lor c v old (page_value_unqualified c ok _ v Hv))).
  destruct (prot_is_copyonwrite c old), x, w, r;
    try reflexivity; discriminate Hread; auto.
Qed.

(** X2.  The two parts of the value [osprot_replace_memprot] returns.  The
    qualifier bits are those of the old protection.  Without them the value is
    what [memprot_to_osprot] gives, except that a copy-on-write page which is to
    be writable stays copy-on-write. *)
Theorem osprot_replace_memprot_parts (old memprot : Z) :
  Z.land (osprot_replace_memprot c old memprot) Q = Z.land old Q /\
  strip_qualifiers c (osprot_replace_memprot c old memprot) =
  if prot_is_copyonwrite c old && TEST c.(MEMPROT_WRITE) memprot &&
     (TEST c.(MEMPROT_READ) memprot || TEST c.(MEMPROT_EXEC) memprot)
  then if TEST c.(MEMPROT_EXEC) memprot
       then c.(PAGE_EXECUTE_WRITECOPY) else c.(PAGE_WRITECOPY)
  else memprot_to_osprot c memprot.
Proof.
  destruct (memprot_to_osprot_page memprot) as (i & Hin & Hi).
  destruct (osprot_replace_memprot_at old _ i Hin Hi) as (v & Hv & ->).
  split.
  { rewrite Z.land_lor_distr_l,
      (unqualified_land c v (page_value_unqualified c ok _ v Hv)), Z.lor_0_l.
    now rewrite <- Z.land_assoc, Z.land_diag. }
  rewrite (strip_qualifiers_lor c v old (page_value_unqualified c ok _ v Hv)).
  revert Hi Hv. unfold memprot_to_osprot.
  destruct (prot_is_copyonwrite c old),
    (TEST (MEMPROT_EXEC c) memprot), (TEST (MEMPROT_WRITE c) memprot),
    (TEST (MEMPROT_READ c) memprot); simpl; intros Hi Hv;
    set_unfold in Hin;
    destruct Hin as [->|[->|[->|[->|[->|[]]]]]]; simpl in Hv;
    try (injection Hv as <-; reflexivity);
    try (injection Hv as <-; injection Hi as E; exact (eq_sym E));
    exfalso;
    match type of Hi with
    | page_values c !! ?i = Some ?b =>
        at_index ltac:(fun j =>
          pose proof (page_values_eqb c ok i j _ b Hi eq_refl) as D)
    end; simpl in D; rewrite Z.eqb_refl in D; discriminate D.
Qed.

(** X3.  The ASSERT_NOT_REACHED of [osprot_add_writecopy] is not reached from
    [osprot_replace_memprot]. *)
Theorem osprot_replace_memprot_asserts_hold (old memprot : Z) :
  osprot_replace_memprot_asserts c old memprot = true.
Proof.
  unfold osprot_replace_memprot_asserts.
  destruct (memprot_to_osprot_page memprot) as (i & Hin & Hi).
  destruct (prot_is_at i _ _ Hi (page_value_unqualified c ok i _ Hi))
    as (_ & W & _).
  destruct (osprot_add_writecopy_at i _ Hi) as (_ & A).
  rewrite W, A. destruct (prot_is_copyonwrite c old); [simpl|reflexivity].
  set_unfold in Hin.
  destruct Hin as [->|[->|[->|[->|[->|[]]]]]]; reflexivity.
Qed.


(** X4.  The letters of [prot_string] against the three predicates: w and x are
    shown exactly when [prot_is_writable] and [prot_is_executable] hold, c for
    the two copy-on-write values, and r when [prot_is_readable] holds except for
    PAGE_EXECUTE, which is logged as not readable.  Anything that is not one of
    the eight PAGE_ values is logged as an error. *)
Theorem prot_string_letters (prot : Z) :
  (forall i v,
     page_values c !! i = Some v -> strip_qualifiers c prot = v ->
     prot_string c prot =
     (if prot_is_readable c prot && negb (v =? c.(PAGE_EXECUTE))
      then "r" else "-") +:+
     (if prot_is_writable c prot then "w" else "-") +:+
     (if prot_is_executable c prot then "x" else "-") +:+
     (if (v =? c.(PAGE_WRITECOPY)) || (v =? c.(PAGE_EXECUTE_WRITECOPY))
      then "c" else "-")) /\
  (strip_qualifiers c prot ∉ page_values c ->
   prot_string c prot = "(error)").
Proof.
  split.
  - intros i v Hi Hp. destruct (prot_is_at i v prot Hi Hp) as (R & W & X).
    rewrite R, W, X. unfold prot_string. rewrite Hp. clear Hp R W X.
    do 8 (destruct i as [|i];
          [injection Hi as <-; page_eqb c ok; reflexivity|]).
    discriminate Hi.
  - intros Hnot. unfold prot_string.
    repeat match goal with
           | |- context [?a =? ?b] =>
               destruct (Z.eqb_spec a b) as [E|_];
               [exfalso; apply Hnot; rewrite E; unfold page_values;
                set_solver|]
           end.
    reflexivity.
Qed.

(** X5.  [osprot_add_writecopy] on a 32-bit protection whose value without
    qualifiers is PAGE_READWRITE or PAGE_EXECUTE_READWRITE (what its assertion
    asks for): the value becomes the copy-on-write one, the qualifier bits stay,
    and the protection reads back as the same MEMPROT_ bits. *)
Theorem osprot_add_writecopy_keeps_qualifiers (prot : Z) :
  0 <= prot < 2 ^ 32 ->
  osprot_add_writecopy_asserts c prot = true ->
  strip_qualifiers c (osprot_add_writecopy c prot) =
    (if strip_qualifiers c prot =? c.(PAGE_READWRITE)
     then c.(PAGE_WRITECOPY) else c.(PAGE_EXECUTE_WRITECOPY)) /\
  Z.land (osprot_add_writecopy c prot) Q = Z.land prot Q /\
  osprot_to_memprot c (osprot_add_writecopy c prot) =
    osprot_to_memprot c prot.
Proof.
  intros Hrange Hassert.
  pose proof (page_value_unqualified c ok 3 _ eq_refl) as U3.
  pose proof (page_value_unqualified c ok 7 _ eq_refl) as U7.
  assert (Hstrip : forall w, strip_qualifiers c w = w ->
            strip_qualifiers c
              (Z.lor (Z.land prot (uint_not (strip_qualifiers c prot))) w) = w).
  { intros w Hw. now rewrite strip_qualifiers_new_flags. }
  pose proof (land_new_flags c prot) as Hland.
  specialize (fun w => Hland w Hrange).
  unfold osprot_add_writecopy_asserts in Hassert.
  unfold osprot_add_writecopy.
  destruct (Z.eqb_spec (strip_qualifiers c prot) (PAGE_READWRITE c)) as [E|_].
  - split; [|split]; [apply Hstrip, U3 | apply Hland, U3 |].
    rewrite (osprot_to_memprot_at 3 _ _ eq_refl (Hstrip _ U3)).
    now rewrite (osprot_to_memprot_at 2 _ _ eq_refl E).
  - simpl in Hassert. rewrite Hassert. apply Z.eqb_eq in Hassert.
    split; [|split]; [apply Hstrip, U7 | apply Hland, U7 |].
    rewrite (osprot_to_memprot_at 7 _ _ eq_refl (Hstrip _ U7)).
    now rewrite (osprot_to_memprot_at 6 _ _ eq_refl Hassert).
Qed.

End WithConstants.

(** On Windows: a copy-on-write guard page (PAGE_WRITECOPY | PAGE_GUARD)
    that is given read+write stays copy-on-write and guarded, and reads
    back as read+write. *)
Lemma osprot_replace_memprot_keeps_memprot_win32 :
  osprot_replace_memprot win32 0x108 3 = 0x108 /\
  osprot_to_memprot win32 (osprot_replace_memprot win32 0x108 3) = 3.
Proof.
  split; [reflexivity|].
  apply (osprot_replace_memprot_keeps_memprot
           win32 win32_constants_ok 0x108 true true false).
  intros _. reflexivity.
Defined.

(** An executable copy-on-write guard page that is given all three bits
    stays copy-on-write and guarded. *)
Lemma osprot_replace_memprot_parts_win32 :
  osprot_replace_memprot win32 0x180 7 = 0x180 /\
  Z.land (osprot_replace_memprot win32 0x180 7) 0x700 = 0x100 /\
  strip_qualifiers win32 (osprot_replace_memprot win32 0x180 7) = 0x80.
Proof.
  split; [reflexivity|].
  exact (osprot_replace_memprot_parts win32 win32_constants_ok 0x180 7).
Defined.

Lemma osprot_replace_memprot_asserts_hold_win32 :
  osprot_replace_memprot_asserts win32 0x08 2 = true.
Proof.
  exact (osprot_replace_memprot_asserts_hold win32 win32_constants_ok 0x08 2).
Defined.

(** PAGE_EXECUTE counts as readable for [prot_is_readable] and is logged
    without the r. *)
Lemma prot_string_letters_win32 :
  prot_is_readable win32 0x10 = true /\ prot_string win32 0x10 = "--x-".
Proof.
  split; [reflexivity|].
  exact (proj1 (prot_string_letters win32 win32_constants_ok 0x10)
           4%nat 0x10 eq_refl eq_refl).
Defined.

Lemma osprot_add_writecopy_keeps_qualifiers_win32 :
  osprot_add_writecopy win32 0x240 = 0x280 /\
  Z.land (osprot_add_writecopy win32 0x240) 0x700 = 0x200.
Proof.
  split; [reflexivity|].
  apply (osprot_add_writecopy_keeps_qualifiers win32 win32_constants_ok 0x240);
    [lia | reflexivity].
Defined.

End WritecopyFacts.

(** ** Changing page protections *)

Module ChangeProtectionFacts.
Import Macros MacrosFacts Prot ProtFacts Writecopy WritecopyFacts Mem
  ChangeProtection.

Section WithConstants.
Variable c : Prot.constants.
Hypothesis ok : constants_ok c.

(** Where the relative mode goes from the i-th PAGE_ value: it skips the
    block when the block is writable already (made writable) or not
    writable (made unwritable), and otherwise picks the value with the
    write access flipped, the copy-on-write one if [cow]. *)
Lemma relative_flags_at (writable cow : bool) (i : nat) (v : Z) :
  page_values c !! i = Some v ->
  match relative_flags c writable cow v with
  | None => bool_decide (i ∈ [2; 3; 6; 7]%nat) = writable
  | Some new_flags =>
      bool_decide (i ∈ [2; 3; 6; 7]%nat) = negb writable /\
      page_values c !!
        (if writable
         then (if bool_decide (i < 4)%nat then 2 else 6) +
              (if cow then 1 else 0)
         else if bool_decide (i < 4)%nat then 1 else 5)%nat = Some new_flags
  end.
Proof.
  intros Hi. unfold relative_flags.
  destruct writable.
  - do 8 (destruct i as [|i];
          [injection Hi as <-; page_eqb c ok; simpl;
           first [ reflexivity
                 | split; [reflexivity|];
                   destruct cow; [|reflexivity];
                   first [ exact (proj1 (osprot_add_writecopy_at
                                           c ok 2 _ eq_refl))
                         | exact (proj1 (osprot_add_writecopy_at
                                           c ok 6 _ eq_refl)) ] ]
          |]).
    discriminate Hi.
  - do 8 (destruct i as [|i];
          [injection Hi as <-; page_eqb c ok; simpl;
           first [reflexivity | split; reflexivity]|]).
    discriminate Hi.
Qed.

(** Only the eight PAGE_ values get new flags. *)
Lemma relative_flags_page (writable cow : bool) (flags new_flags : Z) :
  relative_flags c writable cow flags = Some new_flags ->
  exists i, page_values c !! i = Some flags.
Proof.
  unfold relative_flags. intros H.
  destruct (Z.eqb_spec flags (PAGE_NOACCESS c)) as [->|_]; [now exists 0%nat|].
  destruct (Z.eqb_spec flags (PAGE_READONLY c)) as [->|_]; [now exists 1%nat|].
  destruct (Z.eqb_spec flags (PAGE_READWRITE c)) as [->|_]; [now exists 2%nat|].
  destruct (Z.eqb_spec flags (PAGE_WRITECOPY c)) as [->|_]; [now exists 3%nat|].
  destruct (Z.eqb_spec flags (PAGE_EXECUTE c)) as [->|_]; [now exists 4%nat|].
  destruct (Z.eqb_spec flags (PAGE_EXECUTE_READ c)) as [->|_];
    [now exists 5%nat|].
  destruct (Z.eqb_spec flags (PAGE_EXECUTE_READWRITE c)) as [->|_];
    [now exists 6%nat|].
  destruct (Z.eqb_spec flags (PAGE_EXECUTE_WRITECOPY c)) as [->|_];
    [now exists 7%nat|].
  destruct writable; discriminate H.
Qed.

(** The flags a block gets in relative mode are writable exactly when the
    caller asked for write access. *)
Lemma new_flags_for_writable (writable cow : bool) (new_prot protect f : Z) :
  new_flags_for c false writable cow new_prot protect = Some f ->
  prot_is_writable c f = writable.
Proof.
  unfold new_flags_for.
  destruct (relative_flags c writable cow (strip_qualifiers c protect))
    as [new_flags|] eqn:E; [|discriminate].
  intros [= <-].
  destruct (relative_flags_page _ _ _ _ E) as (i & Hi).
  pose proof (relative_flags_at writable cow i _ Hi) as H.
  rewrite E in H. destruct H as (_ & Hj).
  match type of Hj with _ !! ?j = _ =>
    destruct (prot_is_at c ok j new_flags
                (Z.lor (Z.land protect
                          (uint_not (strip_qualifiers c protect))) new_flags)
                Hj) as (_ & W & _)
  end.
  { rewrite strip_qualifiers_new_flags.
    eapply page_value_unqualified; eauto. }
  rewrite W. destruct writable, cow, (bool_decide (i < 4)%nat); reflexivity.
Qed.


(** X6.  In relative mode a block with one of the eight protections ends up
    writable exactly when write access was asked for, and keeps whether it is
    executable and which qualifiers it has; a block made writable is readable
    too.  The block is skipped exactly when its write access is the one asked
    for already. *)
Theorem relative_mode_sets_write_access
    (writable cow : bool) (new_prot protect : Z) (i : nat) :
  0 <= protect < 2 ^ 32 ->
  page_values c !! i = Some (strip_qualifiers c protect) ->
  let after :=
    default protect (new_flags_for c false writable cow new_prot protect) in
  prot_is_writable c after = writable /\
  prot_is_executable c after = prot_is_executable c protect /\
  prot_is_readable c after = writable || prot_is_readable c protect /\
  Z.land after c.(PAGE_PROTECTION_QUALIFIERS) =
    Z.land protect c.(PAGE_PROTECTION_QUALIFIERS) /\
  (new_flags_for c false writable cow new_prot protect = None <->
   prot_is_writable c protect = writable).
Proof.
  intros Hrange Hi after. subst after.
  destruct (prot_is_at c ok i _ protect Hi eq_refl) as (R & W & X).
  pose proof (relative_flags_at writable cow i _ Hi) as H.
  unfold new_flags_for.
  destruct (relative_flags c writable cow (strip_qualifiers c protect))
    as [new_flags|]; simpl.
  - destruct H as (Hw & Hj).
    match type of Hj with _ !! ?j = _ =>
      pose proof (page_value_unqualified c ok j _ Hj) as U;
      destruct (prot_is_at c ok j new_flags
                  (Z.lor (Z.land protect
                            (uint_not (strip_qualifiers c protect))) new_flags)
                  Hj) as (R' & W' & X')
    end.
    { now rewrite strip_qualifiers_new_flags. }
    rewrite R', W', X', R, W, X, Hw, (land_new_flags c protect _ Hrange U).
    assert (Hlt : (i < 8)%nat)
      by (apply lookup_lt_Some in Hi; exact Hi).
    clear -Hw Hlt.
    do 8 (destruct i as [|i];
          [destruct writable, cow; vm_compute in Hw; try discriminate Hw;
           (split; [|split; [|split; [|split; [|split]]]]);
           first [ reflexivity | discriminate
                 | vm_compute; discriminate ]
          |]).
    lia.
  - rewrite R, W, X.
    assert (Hlt : (i < 8)%nat)
      by (apply lookup_lt_Some in Hi; exact Hi).
    clear -H Hlt.
    do 8 (destruct i as [|i];
          [destruct writable; vm_compute in H; try discriminate H;
           repeat split; reflexivity
          |]).
    lia.
Qed.


Section WithKernel.
Variable k : Mem.constants.
Variable os : Type.
Variable query_virtual_memory : os -> Z -> option MEMORY_BASIC_INFORMATION.
Variable protect_virtual_memory : os -> Z -> Z -> Z -> bool * os.

Abbreviation region :=
  (region c k os query_virtual_memory protect_virtual_memory).
Abbreviation regions :=
  (regions c k os query_virtual_memory protect_virtual_memory).
Abbreviation internal_change_protection :=
  (internal_change_protection c k os query_virtual_memory
     protect_virtual_memory).
Abbreviation progress := (progress os).
Abbreviation protect := (protect os protect_virtual_memory).

(** What one pass does to the list of protect calls: nothing, or one call
    at the current [pc] with the flags chosen for the block found there. *)
Lemma region_calls (set writable cow : bool) (new_prot : Z) (s : progress) :
  let s' := match region set writable cow new_prot s with
            | inl s' | inr s' => s'
            end in
  protect_calls os s' = protect_calls os s \/
  exists mbi new_flags,
    query_virtual_memory (memory os s) (pc os s) = Some mbi /\
    new_flags_for c set writable cow new_prot mbi.(Protect) = Some new_flags /\
    protect_calls os s' =
      protect_calls os s ++
      [{| call_pc := pc os s;
          call_size := subregion_size_of k os mbi s;
          call_flags := new_flags |}].
Proof.
  unfold ChangeProtection.region.
  destruct (query_virtual_memory _ _) as [mbi|] eqn:Eq; [|now left].
  destruct (State mbi =? MEM_RESERVE k); [now left|].
  destruct (State mbi =? MEM_FREE k); [now left|].
  destruct (new_flags_for _ _ _ _ _ _) as [new_flags|] eqn:En; [|now left].
  right. exists mbi, new_flags. split; [reflexivity|]. split; [exact En|].
  unfold skip, ChangeProtection.protect; simpl.
  destruct (protect_virtual_memory _ _ _ _); reflexivity.
Qed.

(** A property of protect calls that every pass keeps is kept by the
    loop. *)
Lemma regions_calls (P : protect_call -> Prop)
    (set writable cow : bool) (new_prot : Z) :
  (forall protect f,
     new_flags_for c set writable cow new_prot protect = Some f ->
     forall p n, P {| call_pc := p; call_size := n; call_flags := f |}) ->
  forall fuel s s',
    regions fuel set writable cow new_prot s = Some s' ->
    Forall P (protect_calls os s) -> Forall P (protect_calls os s').
Proof.
  intros HP. induction fuel as [|fuel IH]; intros s s' Hrun Hs; [discriminate|].
  simpl in Hrun.
  pose proof (region_calls set writable cow new_prot s) as Hstep.
  assert (Hmid : forall t, protect_calls os t = protect_calls os s \/
             (exists mbi new_flags,
                query_virtual_memory (memory os s) (pc os s) = Some mbi /\
                new_flags_for c set writable cow new_prot mbi.(Protect)
                  = Some new_flags /\
                protect_calls os t =
                  protect_calls os s ++
                  [{| call_pc := pc os s;
                      call_size := subregion_size_of k os mbi s;
                      call_flags := new_flags |}]) ->
             Forall P (protect_calls os t)).
  { intros t [->|(mbi & f & _ & Hf & ->)]; [exact Hs|].
    apply Forall_app. split; [exact Hs|].
    apply List.Forall_cons; [|apply List.Forall_nil]. eapply HP; eauto. }
  destruct (region set writable cow new_prot s) as [t|t].
  - injection Hrun as <-. now apply Hmid.
  - destruct (0 <? remaining_size os t).
    + eapply IH; eauto.
    + injection Hrun as <-. now apply Hmid.
Qed.

(** The same for the loop cut off after any number of passes. *)
Lemma regions_upto_calls (P : protect_call -> Prop)
    (set writable cow : bool) (new_prot : Z) :
  (forall protect f,
     new_flags_for c set writable cow new_prot protect = Some f ->
     forall p n, P {| call_pc := p; call_size := n; call_flags := f |}) ->
  forall fuel s,
    Forall P (protect_calls os s) ->
    Forall P (protect_calls os
                (regions_upto c k os query_virtual_memory
                   protect_virtual_memory fuel set writable cow new_prot s)).
Proof.
  intros HP. induction fuel as [|fuel IH]; intros s Hs; [exact Hs|].
  simpl.
  pose proof (region_calls set writable cow new_prot s) as Hstep.
  assert (Hmid : Forall P
            (protect_calls os
               match region set writable cow new_prot s with
               | inl s' | inr s' => s'
               end)).
  { destruct Hstep as [->|(mbi & f & _ & Hf & ->)]; [exact Hs|].
    apply Forall_app. split; [exact Hs|].
    apply List.Forall_cons; [|apply List.Forall_nil]. eapply HP; eauto. }
  destruct (region set writable cow new_prot s) as [t|t]; [exact Hmid|].
  destruct (0 <? remaining_size os t); [now apply IH | exact Hmid].
Qed.

(** A loop that finishes within [fuel] passes ends in the state
    [regions_upto] gives. *)
Lemma regions_upto_finished (set writable cow : bool) (new_prot : Z) :
  forall fuel s s',
    regions fuel set writable cow new_prot s = Some s' ->
    regions_upto c k os query_virtual_memory protect_virtual_memory
      fuel set writable cow new_prot s = s'.
Proof.
  induction fuel as [|fuel IH]; intros s s' Hrun; [discriminate|].
  simpl in *.
  destruct (region set writable cow new_prot s) as [t|t].
  - now injection Hrun.
  - destruct (0 <? remaining_size os t); [now apply IH | now injection Hrun].
Qed.

(** X7.  Every call of [protect_virtual_memory] that
    [internal_change_protection] makes in relative mode asks for a
    protection that is writable exactly when the caller asked for write
    access: this holds of the calls made by the end of any number of
    passes of the loop, whatever the kernel answers and whether the loop
    ever finishes, and so of the calls of a run that returns. *)
Theorem internal_change_protection_calls_writable
    (fuel : nat) (m : os) (start requested_size : Z)
    (writable cow : bool) (new_prot : Z) :
  Forall (fun call => prot_is_writable c call.(call_flags) = writable)
    (calls_upto c k os query_virtual_memory protect_virtual_memory
       fuel m start requested_size false writable cow new_prot) /\
  (forall r,
     internal_change_protection fuel m start requested_size
       false writable cow new_prot = Some r ->
     r.(calls_made os)
     = calls_upto c k os query_virtual_memory protect_virtual_memory
         fuel m start requested_size false writable cow new_prot).
Proof.
  split.
  - unfold calls_upto.
    apply (regions_upto_calls _ false writable cow new_prot).
    + intros protect f Hf p n. simpl.
      eapply new_flags_for_writable; eauto.
    + apply List.Forall_nil.
  - intros r. unfold ChangeProtection.internal_change_protection, calls_upto.
    destruct (regions _ _ _ _ _ _) as [s|] eqn:Hrun; [|discriminate].
    intros [= <-]. simpl.
    now rewrite (regions_upto_finished _ _ _ _ _ _ _ Hrun).
Qed.


Lemma StronglySorted_app_last {A : Type} (R : A -> A -> Prop) (l : list A) (x : A) :
  StronglySorted R l -> Forall (fun a => R a x) l ->
  StronglySorted R (l ++ [x]).
Proof.
  induction 1 as [|a l Hl IH Ha]; intros Hx; simpl.
  - constructor; constructor.
  - inversion Hx; subst. constructor; [now apply IH|].
    apply Forall_app. split; [exact Ha|]. now constructor.
Qed.

Section Termination.
Variables start requested_size : Z.
Hypothesis kernel : forall st a mbi,
  query_virtual_memory st a = Some mbi -> block_contains k a mbi.
Hypothesis start_range : 0 <= start.
Hypothesis size_range : 0 < requested_size.
Hypothesis end_range : start + requested_size <= k.(POINTER_MAX) + 1.

(** What holds of the loop's variables after every pass. *)
Let inv (s : progress) : Prop :=
  0 <= remaining_size os s <= requested_size /\
  (0 < remaining_size os s ->
   pc os s = start + requested_size - remaining_size os s) /\
  Forall (call_within start (start + requested_size - remaining_size os s))
    (protect_calls os s) /\
  StronglySorted call_before (protect_calls os s) /\
  (changed_permissions os s = true <-> protect_calls os s <> []).

Lemma subregion_size_of_range (mbi : MEMORY_BASIC_INFORMATION) (s : progress) :
  block_contains k (pc os s) mbi -> 0 < remaining_size os s ->
  0 < subregion_size_of k os mbi s <= remaining_size os s.
Proof.
  intros ((Hlo & Hhi) & Hsz) Hrem. unfold subregion_size_of, wrap.
  rewrite Z.mod_small by lia.
  destruct (Z.ltb_spec (RegionSize mbi - (pc os s - BaseAddress mbi))
              (remaining_size os s)); lia.
Qed.

Lemma skip_inv (n : Z) (s : progress) :
  inv s -> 0 < remaining_size os s -> 0 < n <= remaining_size os s ->
  inv (skip k os n s) /\
  remaining_size os (skip k os n s) < remaining_size os s.
Proof.
  intros (Hrem & Hpc & Hcalls & Hsorted & Hchanged) Hpos Hn.
  specialize (Hpc Hpos).
  assert (Hr : wrap k (remaining_size os s - n) = remaining_size os s - n)
    by (unfold wrap; apply Z.mod_small; lia).
  unfold inv, skip; simpl. rewrite Hr.
  split; [|lia]. split; [lia|]. split; [|split; [|split]]; try assumption.
  - intros Hpos'. unfold wrap. rewrite Z.mod_small by lia. lia.
  - eapply List.Forall_impl; [|exact Hcalls].
    unfold call_within. intros call. lia.
Qed.

Lemma protect_inv (n new_flags : Z) (s : progress) :
  inv s -> 0 < remaining_size os s -> 0 < n <= remaining_size os s ->
  inv (skip k os n (protect n new_flags s)) /\
  remaining_size os (skip k os n (protect n new_flags s)) <
    remaining_size os s.
Proof.
  intros (Hrem & Hpc & Hcalls & Hsorted & Hchanged) Hpos Hn.
  specialize (Hpc Hpos).
  assert (Hr : wrap k (remaining_size os s - n) = remaining_size os s - n)
    by (unfold wrap; apply Z.mod_small; lia).
  unfold inv, skip, ChangeProtection.protect.
  destruct (protect_virtual_memory _ _ _ _) as [res after]; simpl.
  rewrite Hr.
  split; [|lia]. split; [lia|]. split; [|split; [|split]].
  - intros Hpos'. unfold wrap. rewrite Z.mod_small by lia. lia.
  - apply Forall_app. split.
    + eapply List.Forall_impl; [|exact Hcalls].
      unfold call_within. intros call. lia.
    + constructor; [|constructor]. unfold call_within; simpl. lia.
  - apply StronglySorted_app_last; [exact Hsorted|].
    eapply List.Forall_impl; [|exact Hcalls].
    unfold call_within, call_before; simpl. intros call. lia.
  - split; [intros _|reflexivity]. now destruct (protect_calls os s).
Qed.

Lemma region_inv (set writable cow : bool) (new_prot : Z) (s : progress) :
  inv s -> 0 < remaining_size os s ->
  match region set writable cow new_prot s with
  | inl s' => inv s'
  | inr s' => inv s' /\ remaining_size os s' < remaining_size os s
  end.
Proof.
  intros Hinv Hpos. unfold ChangeProtection.region.
  destruct (query_virtual_memory _ _) as [mbi|] eqn:Eq; [|exact Hinv].
  pose proof (subregion_size_of_range mbi s (kernel _ _ _ Eq) Hpos) as Hn.
  destruct (State mbi =? MEM_RESERVE k); [now apply skip_inv|].
  destruct (State mbi =? MEM_FREE k); [exact Hinv|].
  destruct (new_flags_for _ _ _ _ _ _); [now apply protect_inv|].
  now apply skip_inv.
Qed.

Lemma regions_inv (set writable cow : bool) (new_prot : Z) (fuel : nat) :
  forall s, inv s -> 0 < remaining_size os s ->
            (Z.to_nat (remaining_size os s) <= fuel)%nat ->
            exists s', regions fuel set writable cow new_prot s = Some s' /\
                       inv s'.
Proof.
  induction fuel as [|fuel IH]; intros s Hinv Hpos Hfuel; [lia|].
  simpl. pose proof (region_inv set writable cow new_prot s Hinv Hpos) as H.
  destruct (region set writable cow new_prot s) as [t|t]; [eauto|].
  destruct H as (Ht & Hlt).
  destruct (Z.ltb_spec 0 (remaining_size os t)); [|eauto].
  apply IH; [assumption|assumption|lia].
Qed.

(** X8.  When the kernel reports for every address a block that contains it,
    [internal_change_protection] comes to an end within [requested_size] passes.
    Its protect calls lie inside the range it was given, in ascending order
    without overlap, and [*changed_protection] tells whether there was one. *)
Theorem internal_change_protection_terminates
    (fuel : nat) (m : os) (set writable cow : bool) (new_prot : Z) :
  (Z.to_nat requested_size <= fuel)%nat ->
  exists r,
    internal_change_protection fuel m start requested_size
      set writable cow new_prot = Some r /\
    Forall (call_within start (start + requested_size)) r.(calls_made os) /\
    StronglySorted call_before r.(calls_made os) /\
    (r.(changed_protection os) = true <-> r.(calls_made os) <> []).
Proof.
  intros Hfuel. unfold ChangeProtection.internal_change_protection.
  destruct (regions_inv set writable cow new_prot fuel
              {| pc := start; remaining_size := requested_size;
                 changed_permissions := false; subregions_failed := false;
                 memory := m; protect_calls := [] |})
    as (s & -> & Hrem & _ & Hcalls & Hsorted & Hchanged); simpl; try lia.
  { unfold inv; simpl. split; [lia|]. split; [lia|].
    split; [constructor|]. split; [constructor|].
    split; [discriminate | congruence]. }
  eexists. split; [reflexivity|]. simpl.
  split; [|split; assumption].
  eapply List.Forall_impl; [|exact Hcalls].
  unfold call_within. intros call. lia.
Qed.

End Termination.

End WithKernel.

End WithConstants.

(** A read-only guard page made writable on Windows: PAGE_READWRITE with
    the guard bit kept. *)
Lemma relative_mode_sets_write_access_win32 :
  new_flags_for Prot.win32 false true false 0 0x102 = Some 0x104 /\
  prot_is_writable Prot.win32 0x104 = true /\
  Z.land 0x104 0x700 = Z.land 0x102 0x700.
Proof.
  split; [reflexivity|].
  pose proof (relative_mode_sets_write_access Prot.win32 win32_constants_ok
                true false 0 0x102 1%nat) as H.
  destruct H as (W & _ & _ & L & _); [lia | reflexivity |].
  split; [exact W | exact L].
Defined.

(** On the sample address space [make_unwritable] over the first
    allocation protects the read-write pages and the guard page, and both
    calls ask for a protection without write access. *)
Lemma internal_change_protection_calls_writable_sample :
  calls_upto Prot.win32 Mem.win32 _ (block_at Mem.win32) protect_blocks
    4 sample_blocks 0x10000 0x4000 false false false 0 =
    [ {| call_pc := 0x11000; call_size := 0x2000; call_flags := 0x02 |};
      {| call_pc := 0x13000; call_size := 0x1000; call_flags := 0x102 |} ] /\
  Forall (fun call => prot_is_writable Prot.win32 call.(call_flags) = false)
    (calls_upto Prot.win32 Mem.win32 _ (block_at Mem.win32) protect_blocks
       4 sample_blocks 0x10000 0x4000 false false false 0) /\
  Forall (fun call => prot_is_writable Prot.win32 call.(call_flags) = false)
    (calls_upto Prot.win32 Mem.win32 _ (block_at Mem.win32) protect_blocks
       2 sample_blocks 0x10000 0x4000 false false false 0).
Proof.
  split; [vm_compute; reflexivity|]. split.
  - apply (internal_change_protection_calls_writable
             Prot.win32 win32_constants_ok Mem.win32 _
             (block_at Mem.win32) protect_blocks
             4 sample_blocks 0x10000 0x4000 false false 0).
  - apply (internal_change_protection_calls_writable
             Prot.win32 win32_constants_ok Mem.win32 _
             (block_at Mem.win32) protect_blocks
             2 sample_blocks 0x10000 0x4000 false false 0).
Defined.

(** The sample kernel answers with a block that holds the address. *)
Lemma block_at_contains (blocks : list MEMORY_BASIC_INFORMATION) (a : Z)
    (mbi : MEMORY_BASIC_INFORMATION) :
  block_at Mem.win32 blocks a = Some mbi -> block_contains Mem.win32 a mbi.
Proof.
  unfold block_at. intros H. apply find_some in H as [_ H].
  apply andb_true_iff in H as [H Hsize].
  apply andb_true_iff in H as [Hlo Hhi].
  unfold block_contains. lia.
Qed.

(** On the sample address space the loop ends within the size asked for,
    whatever the mode. *)
Lemma internal_change_protection_terminates_sample :
  exists r,
    make_writable Prot.win32 Mem.win32 _ (block_at Mem.win32) protect_blocks
      (Z.to_nat 0x4000) sample_blocks 0x10000 0x4000 = Some r /\
    Forall (call_within 0x10000 (0x10000 + 0x4000)) (calls_made _ r) /\
    StronglySorted call_before (calls_made _ r) /\
    (changed_protection _ r = true <-> calls_made _ r <> []).
Proof.
  apply (internal_change_protection_terminates
           Prot.win32 Mem.win32 _ (block_at Mem.win32) protect_blocks
           0x10000 0x4000).
  - intros st a mbi. apply block_at_contains.
  - lia.
  - lia.
  - vm_compute. discriminate.
  - apply Nat.le_refl.
Defined.

End ChangeProtectionFacts.

(** ** Queries about the address space *)

Module QueryFacts.
Import Macros MacrosFacts Prot ProtFacts Writecopy WritecopyFacts Mem Query.

Section WithKernel.
Variable c : Prot.constants.
Variable k : Mem.constants.
Variable query_virtual_memory : Z -> option MEMORY_BASIC_INFORMATION.
Variable ALIGN_BACKWARD : Z -> Z -> Z.

Abbreviation page_is_readable := (page_is_readable c k query_virtual_memory).
Abbreviation readable_pages := (readable_pages c k query_virtual_memory).
Abbreviation unreadable_pages := (unreadable_pages c k query_virtual_memory).

(** X9.  The base [get_allocation_size] stores through [base_pc] is the one
    [get_allocation_base] returns for the same address. *)
Theorem get_allocation_size_base (pc : Z) :
  snd (get_allocation_size k query_virtual_memory pc) =
  get_allocation_base k query_virtual_memory pc.
Proof.
  unfold get_allocation_size, get_allocation_base.
  destruct (query_virtual_memory pc) as [mbi|]; [|reflexivity].
  destruct (State mbi =? MEM_FREE k); reflexivity.
Qed.

Lemma unreadable_pages_of_readable (pc size : Z) (fuel : nat) :
  k.(MEM_COMMIT) <> k.(MEM_FREE) ->
  forall check_pc,
    readable_pages fuel pc size check_pc = Some true ->
    unreadable_pages (S fuel) pc size check_pc = Some false.
Proof.
  intros Hstate. induction fuel as [|fuel IH]; intros check_pc H;
    [discriminate|].
  cbn [Query.readable_pages] in H.
  change (Query.unreadable_pages c k query_virtual_memory (S (S fuel))
            pc size check_pc)
    with (if negb (check_pc =? 0) && (check_pc <? wrap k (pc + size)) then
            match query_virtual_memory check_pc with
            | None => Some true
            | Some mbi =>
                if mbi.(State) =? k.(MEM_FREE) then Some true
                else if negb (prot_is_readable c mbi.(Protect)) then Some true
                else unreadable_pages (S fuel) pc size
                       (wrap k (check_pc + k.(PAGE_SIZE)))
            end
          else Some false).
  destruct (negb (check_pc =? 0) && (check_pc <? wrap k (pc + size)));
    [|reflexivity].
  unfold Query.page_is_readable in H.
  destruct (query_virtual_memory check_pc) as [mbi|]; [|discriminate H].
  destruct (Z.eqb_spec (State mbi) (MEM_COMMIT k)) as [E|_];
    [|discriminate H].
  destruct (Z.eqb_spec (State mbi) (MEM_FREE k)) as [E'|_]; [congruence|].
  destruct (TEST (PAGE_GUARD k) (Protect mbi)); [discriminate H|].
  destruct (prot_is_readable c (Protect mbi)); [|discriminate H].
  cbn [negb orb] in H |- *.
  destruct (negb (wrap k (check_pc + PAGE_SIZE k) =? 0) &&
            (wrap k (check_pc + PAGE_SIZE k) <? wrap k (pc + size))) eqn:Ec.
  - now apply IH.
  - cbn [Query.unreadable_pages]. now rewrite Ec.
Qed.

(** X10.  What [query_is_readable_without_exception] accepts, [not_readable]
    does not call unreadable: when the first answers true, the second answers
    false. *)
Theorem not_readable_of_query_is_readable (fuel : nat) (pc size : Z) :
  k.(MEM_COMMIT) <> k.(MEM_FREE) ->
  query_is_readable_without_exception c k query_virtual_memory ALIGN_BACKWARD
    fuel pc size = Some true ->
  not_readable c k query_virtual_memory ALIGN_BACKWARD (S fuel) pc size
    = Some false.
Proof.
  intros Hstate. unfold query_is_readable_without_exception, not_readable.
  now apply unreadable_pages_of_readable.
Qed.

(** X11.  [get_memory_info] and [get_current_protection] agree: the MEMPROT_
    bits of the first are those of the protection the second returns, and where
    the first fails the second answers PAGE_NOACCESS, which has none of the
    bits. *)
Theorem get_memory_info_of_get_current_protection (pc : Z) :
  constants_ok c ->
  osprot_to_memprot c (get_current_protection c k query_virtual_memory pc) =
  match get_memory_info c k query_virtual_memory pc with
  | Some (_, _, prot) => prot
  | None => 0
  end.
Proof.
  intros ok. unfold get_current_protection, get_memory_info.
  pose proof (osprot_to_memprot_at c ok 0 _ _ eq_refl
                (page_value_unqualified c ok 0 _ eq_refl)) as H0.
  destruct (query_virtual_memory pc) as [mbi|]; [|exact H0].
  destruct (State mbi =? MEM_FREE k); [exact H0 | reflexivity].
Qed.


Section Readable.
Variables pc size : Z.
Hypothesis page_size : 0 < k.(PAGE_SIZE).
Hypothesis top : (k.(PAGE_SIZE) | k.(POINTER_MAX) + 1).
Hypothesis pc_range : 0 <= pc <= k.(POINTER_MAX).
Hypothesis size_range : 0 <= size.

Lemma clamp_size_min : clamp_size k pc size = Z.min size (k.(POINTER_MAX) - pc).
Proof.
  unfold clamp_size, wrap. rewrite Z.mod_small by lia.
  destruct (Z.ltb_spec (POINTER_MAX k - pc) size); lia.
Qed.

Lemma readable_pages_spec (size' : Z) (fuel : nat) :
  0 <= size' -> pc + size' <= k.(POINTER_MAX) ->
  forall check_pc,
    (k.(PAGE_SIZE) | check_pc) -> 0 <= check_pc <= k.(POINTER_MAX) ->
    check_pc <= pc + size' ->
    pc + size' - check_pc < k.(PAGE_SIZE) * Z.of_nat fuel ->
    exists b,
      readable_pages fuel pc size' check_pc = Some b /\
      (b = true <->
       forall j, 0 <= j ->
                 j = 0 \/ check_pc + k.(PAGE_SIZE) * j < pc + size' ->
                 page_is_readable (check_pc + k.(PAGE_SIZE) * j) = true).
Proof.
  intros Hsize Hend. destruct top as [N HN].
  induction fuel as [|fuel IH]; intros cp Hal Hcp Hle Hfuel; [lia|].
  assert (Hnext : cp + PAGE_SIZE k <= POINTER_MAX k + 1).
  { destruct Hal as [a ->].
    assert (a < N) by (apply (Z.mul_lt_mono_pos_r (PAGE_SIZE k)); lia).
    assert ((a + 1) * PAGE_SIZE k <= N * PAGE_SIZE k)
      by (apply Z.mul_le_mono_nonneg_r; lia).
    lia. }
  assert (Hend' : wrap k (pc + size') = pc + size')
    by (unfold wrap; apply Z.mod_small; lia).
  cbn [Query.readable_pages].
  destruct (page_is_readable cp) eqn:Hok; cbn [negb].
  - assert (Hstop : forall j, 0 <= j -> pc + size' <= cp + PAGE_SIZE k ->
              j = 0 \/ cp + PAGE_SIZE k * j < pc + size' ->
              page_is_readable (cp + PAGE_SIZE k * j) = true).
    { intros j Hj Hge Hcond.
      assert (j = 0) as ->; [|now rewrite Z.mul_0_r, Z.add_0_r].
      destruct Hcond as [|Hlt]; [assumption|].
      destruct (Z.eq_dec j 0); [assumption|].
      assert (PAGE_SIZE k * 1 <= PAGE_SIZE k * j)
        by (apply Z.mul_le_mono_nonneg_l; lia).
      lia. }
    destruct (Z.eq_dec (cp + PAGE_SIZE k) (POINTER_MAX k + 1)) as [Etop|Ntop].
    + assert (Hw : wrap k (cp + PAGE_SIZE k) = 0)
        by (unfold wrap; rewrite Etop; apply Z_mod_same_full).
      rewrite Hw. simpl. exists true. split; [reflexivity|].
      split; [intros _|reflexivity]. intros j Hj. apply Hstop; lia.
    + assert (Hw : wrap k (cp + PAGE_SIZE k) = cp + PAGE_SIZE k)
        by (unfold wrap; apply Z.mod_small; lia).
      rewrite Hw, Hend'.
      destruct (Z.eqb_spec (cp + PAGE_SIZE k) 0) as [|_]; [lia|].
      cbn [negb andb].
      destruct (Z.ltb_spec (cp + PAGE_SIZE k) (pc + size')) as [Hlt|Hge].
      * destruct (IH (cp + PAGE_SIZE k)) as (b & Hb & Hiff); try lia.
        { apply Z.divide_add_r; [exact Hal | apply Z.divide_refl]. }
        exists b. split; [exact Hb|]. rewrite Hiff. split.
        -- intros H j Hj Hcond.
           destruct (Z.eq_dec j 0) as [->|Hj0].
           ++ now rewrite Z.mul_0_r, Z.add_0_r.
           ++ replace (cp + PAGE_SIZE k * j)
                with (cp + PAGE_SIZE k + PAGE_SIZE k * (j - 1)) by ring.
              apply H; [lia|]. right.
              replace (cp + PAGE_SIZE k + PAGE_SIZE k * (j - 1))
                with (cp + PAGE_SIZE k * j) by ring.
              lia.
        -- intros H j Hj Hcond.
           replace (cp + PAGE_SIZE k + PAGE_SIZE k * j)
             with (cp + PAGE_SIZE k * (j + 1)) by ring.
           apply H; [lia|]. right.
           replace (cp + PAGE_SIZE k * (j + 1))
             with (cp + PAGE_SIZE k + PAGE_SIZE k * j) by ring.
           destruct Hcond as [->|]; lia.
      * exists true. split; [reflexivity|].
        split; [intros _|reflexivity]. intros j Hj. apply Hstop; lia.
  - exists false. split; [reflexivity|]. split; [discriminate|].
    intros H. specialize (H 0). rewrite Z.mul_0_r, Z.add_0_r in H.
    rewrite H in Hok by (lia || now left). discriminate Hok.
Qed.

(** X12.  With a page size that divides the address space and ALIGN_BACKWARD
    giving the start of the page of [pc], [query_is_readable_without_exception]
    comes to an end, and it answers true exactly when every page is readable
    from the page of [pc] up to the last byte asked for (the size being cut at
    POINTER_MAX).  The page of [pc] is looked at also when [size] is 0. *)
Theorem query_is_readable_without_exception_spec (fuel : nat) :
  let first_page := ALIGN_BACKWARD pc k.(PAGE_SIZE) in
  (k.(PAGE_SIZE) | first_page) ->
  first_page <= pc < first_page + k.(PAGE_SIZE) ->
  size + k.(PAGE_SIZE) <= k.(PAGE_SIZE) * Z.of_nat fuel ->
  exists b,
    query_is_readable_without_exception c k query_virtual_memory
      ALIGN_BACKWARD fuel pc size = Some b /\
    (b = true <->
     forall j, 0 <= j ->
               j = 0 \/
               first_page + k.(PAGE_SIZE) * j <
                 pc + Z.min size (k.(POINTER_MAX) - pc) ->
               page_is_readable (first_page + k.(PAGE_SIZE) * j) = true).
Proof.
  intros first_page Hal Hpage Hfuel.
  unfold query_is_readable_without_exception. fold first_page.
  rewrite clamp_size_min.
  assert (0 <= first_page).
  { destruct Hal as [a Ha].
    assert (-1 < a) by (apply (Z.mul_lt_mono_pos_r (PAGE_SIZE k)); lia).
    rewrite Ha. apply Z.mul_nonneg_nonneg; lia. }
  apply readable_pages_spec; try lia; assumption.
Qed.

End Readable.


Section Allocation.
Hypothesis pointer_max : 0 <= k.(POINTER_MAX).
(** An allocated block lies inside the address space, above the base of its
    allocation, and holds the address it was asked for. *)
Hypothesis kernel : forall a mbi,
  query_virtual_memory a = Some mbi -> mbi.(State) <> k.(MEM_FREE) ->
  0 <= mbi.(AllocationBase) <= mbi.(BaseAddress) /\
  mbi.(BaseAddress) <= a < mbi.(BaseAddress) + mbi.(RegionSize) /\
  mbi.(BaseAddress) + mbi.(RegionSize) <= k.(POINTER_MAX) + 1.
(** The block found at the end of an allocated block begins there. *)
Hypothesis contiguous : forall a mbi mbi',
  query_virtual_memory a = Some mbi -> mbi.(State) <> k.(MEM_FREE) ->
  query_virtual_memory (mbi.(BaseAddress) + mbi.(RegionSize)) = Some mbi' ->
  mbi'.(State) <> k.(MEM_FREE) ->
  mbi'.(BaseAddress) = mbi.(BaseAddress) + mbi.(RegionSize).
(** Nothing is allocated at address 0. *)
Hypothesis null_free : forall mbi,
  query_virtual_memory 0 = Some mbi -> mbi.(State) = k.(MEM_FREE).

Lemma wrap_add_wrap (a b : Z) : wrap k (a + wrap k (b - a)) = wrap k b.
Proof.
  unfold wrap. rewrite Zplus_mod_idemp_r. f_equal. ring.
Qed.

Lemma allocation_blocks_end (pc region_base : Z) (blocks_left : nat) :
  0 <= pc -> 0 <= region_base ->
  forall pb size,
    (pc < pb <= k.(POINTER_MAX) /\ region_base <= pb /\
     size = pb - region_base /\
     exists a mbi, query_virtual_memory a = Some mbi /\
                   mbi.(State) <> k.(MEM_FREE) /\
                   pb = mbi.(BaseAddress) + mbi.(RegionSize)) \/
    (pb = 0 /\ wrap k (region_base + size) = 0) ->
    let size' :=
      allocation_blocks k query_virtual_memory blocks_left region_base pb size
    in
    pc < wrap k (region_base + size') \/ wrap k (region_base + size') = 0.
Proof.
  intros Hpc Hbase.
  induction blocks_left as [|n IH]; intros pb size Hinv; cbn zeta.
  - simpl. destruct Hinv as [(Hpb & Hle & -> & _)|(_ & Hz)]; [left|now right].
    unfold wrap. rewrite Z.mod_small by lia. lia.
  - assert (Hstop : pc < wrap k (region_base + size) \/
                    wrap k (region_base + size) = 0).
    { destruct Hinv as [(Hpb & Hle & -> & _)|(_ & Hz)]; [left|now right].
      unfold wrap. rewrite Z.mod_small by lia. lia. }
    cbn [allocation_blocks].
    destruct (query_virtual_memory pb) as [mbi'|] eqn:Eq; [|exact Hstop].
    destruct (Z.eqb_spec (State mbi') (MEM_FREE k)) as [|Hused];
      [exact Hstop|].
    destruct (Z.eqb_spec (AllocationBase mbi') region_base) as [Ealloc|];
      [|exact Hstop].
    cbn [orb negb].
    destruct Hinv as [(Hpb & Hle & -> & a & mbi & Ha & Hst & Hend)|(-> & Hz)].
    + subst pb.
      pose proof (contiguous a mbi mbi' Ha Hst Eq Hused) as Hstart.
      destruct (kernel _ _ Eq Hused) as (_ & Hin & Htop).
      rewrite Hstart in Hin, Htop.
      set (pb := BaseAddress mbi + RegionSize mbi) in *.
      replace (pb - region_base + RegionSize mbi')
        with (pb + RegionSize mbi' - region_base) by ring.
      destruct (Z.eq_dec (pb + RegionSize mbi') (POINTER_MAX k + 1))
        as [Etop|Ntop].
      * assert (Hw : wrap k (pb + RegionSize mbi') = 0)
          by (unfold wrap; rewrite Etop; apply Z_mod_same_full).
        rewrite Hw. destruct (Z.ltb_spec 0 pb); [|lia].
        right. now rewrite wrap_add_wrap.
      * assert (Hw : wrap k (pb + RegionSize mbi') = pb + RegionSize mbi')
          by (unfold wrap; apply Z.mod_small; lia).
        rewrite Hw. destruct (Z.ltb_spec (pb + RegionSize mbi') pb); [lia|].
        apply IH. left. split; [lia|]. split; [lia|]. split.
        -- unfold wrap. apply Z.mod_small. lia.
        -- exists pb, mbi'. rewrite Hstart. auto.
    + rewrite (null_free _ Eq) in Hused. contradiction.
Qed.

(** X13.  When allocated blocks lie inside the address space and follow one
    another without a gap, the ASSERT that closes [get_allocation_size] holds:
    the region that was measured ends above [pc], or at the very top of the
    address space (where the sum wraps to NULL). *)
Theorem get_allocation_size_asserts_hold (pc : Z) :
  0 <= pc <= k.(POINTER_MAX) ->
  get_allocation_size_asserts k query_virtual_memory pc = true.
Proof.
  intros Hpc. unfold get_allocation_size_asserts, get_allocation_size.
  destruct (query_virtual_memory pc) as [mbi|] eqn:Eq; [|reflexivity].
  destruct (Z.eqb_spec (State mbi) (MEM_FREE k)) as [|Hused]; [reflexivity|].
  destruct (kernel _ _ Eq Hused) as (Hbase & Hin & Htop).
  apply orb_true_iff. rewrite Z.ltb_lt, Z.eqb_eq.
  apply allocation_blocks_end; [lia|lia|].
  destruct (Z.eq_dec (BaseAddress mbi + RegionSize mbi) (POINTER_MAX k + 1))
    as [Etop|Ntop].
  - right.
    assert (Hw : wrap k (BaseAddress mbi + RegionSize mbi) = 0)
      by (unfold wrap; rewrite Etop; apply Z_mod_same_full).
    rewrite Hw. split; [reflexivity|].
    rewrite wrap_add_wrap. unfold wrap. apply Z.mod_0_l. lia.
  - left.
    assert (Hw : wrap k (BaseAddress mbi + RegionSize mbi) =
                 BaseAddress mbi + RegionSize mbi)
      by (unfold wrap; apply Z.mod_small; lia).
    rewrite Hw. split; [lia|]. split; [lia|]. split.
    + unfold wrap. apply Z.mod_small. lia.
    + exists pc, mbi. auto.
Qed.

End Allocation.

End WithKernel.

(** On the sample address space: sixteen bytes across the boundary between
    the read-only page and the first read-write page are readable for both
    functions. *)
Lemma not_readable_of_query_is_readable_sample :
  query_is_readable_without_exception Prot.win32 Mem.win32
    (block_at Mem.win32 sample_blocks) align_backward 2 0x10ff8 0x10
    = Some true /\
  not_readable Prot.win32 Mem.win32
    (block_at Mem.win32 sample_blocks) align_backward 3 0x10ff8 0x10
    = Some false.
Proof.
  split; [vm_compute; reflexivity|].
  apply (not_readable_of_query_is_readable Prot.win32 Mem.win32
           (block_at Mem.win32 sample_blocks) align_backward 2 0x10ff8 0x10).
  - discriminate.
  - vm_compute. reflexivity.
Defined.

(** The converse fails on the guard page: it is not readable without an
    exception, and [not_readable] does not object to it. *)
Example guard_page_is_not_not_readable :
  query_is_readable_without_exception Prot.win32 Mem.win32
    (block_at Mem.win32 sample_blocks) align_backward 2 0x13000 0x10
    = Some false /\
  not_readable Prot.win32 Mem.win32
    (block_at Mem.win32 sample_blocks) align_backward 2 0x13000 0x10
    = Some false.
Proof. split; vm_compute; reflexivity. Qed.

(** In the free block at 0x21000 [get_memory_info] fails and
    [get_current_protection] answers PAGE_NOACCESS. *)
Lemma get_memory_info_of_get_current_protection_sample :
  get_memory_info Prot.win32 Mem.win32 (block_at Mem.win32 sample_blocks)
    0x30000 = None /\
  osprot_to_memprot Prot.win32
    (get_current_protection Prot.win32 Mem.win32
       (block_at Mem.win32 sample_blocks) 0x30000) = 0.
Proof.
  split; [reflexivity|].
  exact (get_memory_info_of_get_current_protection Prot.win32 Mem.win32
           (block_at Mem.win32 sample_blocks) 0x30000 win32_constants_ok).
Defined.

Lemma query_is_readable_without_exception_spec_sample :
  exists b,
    query_is_readable_without_exception Prot.win32 Mem.win32
      (block_at Mem.win32 sample_blocks) align_backward 2 0x10ff8 0x10
      = Some b /\
    (b = true <->
     forall j, 0 <= j ->
               j = 0 \/ 0x10000 + 4096 * j < 0x10ff8 + 0x10 ->
               page_is_readable Prot.win32 Mem.win32
                 (block_at Mem.win32 sample_blocks) (0x10000 + 4096 * j)
               = true).
Proof.
  apply (query_is_readable_without_exception_spec Prot.win32 Mem.win32
           (block_at Mem.win32 sample_blocks) align_backward 0x10ff8 0x10).
  - reflexivity.
  - exists (2 ^ 20). reflexivity.
  - split; discriminate.
  - discriminate.
  - exists 16. reflexivity.
  - split; [discriminate | reflexivity].
  - discriminate.
Defined.

(** The allocated blocks of the sample address space: a query that does
    not land in free memory finds one of these five. *)
Lemma sample_blocks_used (a : Z) (mbi : MEMORY_BASIC_INFORMATION) :
  block_at Mem.win32 sample_blocks a = Some mbi ->
  mbi.(State) <> Mem.win32.(MEM_FREE) ->
  mbi ∈ [ {| BaseAddress := 0x10000; AllocationBase := 0x10000;
             RegionSize := 0x1000; State := 0x1000; Protect := 0x02 |};
          {| BaseAddress := 0x11000; AllocationBase := 0x10000;
             RegionSize := 0x2000; State := 0x1000; Protect := 0x04 |};
          {| BaseAddress := 0x13000; AllocationBase := 0x10000;
             RegionSize := 0x1000; State := 0x1000; Protect := 0x104 |};
          {| BaseAddress := 0x14000; AllocationBase := 0x10000;
             RegionSize := 0xC000; State := 0x2000; Protect := 0 |};
          {| BaseAddress := 0x20000; AllocationBase := 0x20000;
             RegionSize := 0x1000; State := 0x1000; Protect := 0x20 |} ] /\
  mbi.(BaseAddress) <= a < mbi.(BaseAddress) + mbi.(RegionSize).
Proof.
  unfold block_at. intros H Hused.
  apply find_some in H as [Hin H].
  apply andb_true_iff in H as [H _].
  apply andb_true_iff in H as [Hlo Hhi].
  split; [|lia].
  unfold sample_blocks in Hin. simpl in Hin.
  destruct Hin as [<-|[<-|[<-|[<-|[<-|[<-|[<-|[]]]]]]]];
    first [ exfalso; apply Hused; reflexivity | set_solver ].
Qed.

Lemma get_allocation_size_asserts_hold_sample :
  get_allocation_size Mem.win32 (block_at Mem.win32 sample_blocks) 0x11800
    = (0x10000, 0x10000) /\
  get_allocation_size_asserts Mem.win32 (block_at Mem.win32 sample_blocks)
    0x11800 = true.
Proof.
  split; [vm_compute; reflexivity|].
  apply (get_allocation_size_asserts_hold Mem.win32
           (block_at Mem.win32 sample_blocks)).
  - discriminate.
  - intros a mbi H Hused.
    destruct (sample_blocks_used a mbi H Hused) as (Hin & Ha).
    set_unfold in Hin.
    destruct Hin as [->|[->|[->|[->|[->|[]]]]]]; simpl in *; lia.
  - intros a mbi mbi' H Hused H' Hused'.
    destruct (sample_blocks_used a mbi H Hused) as (Hin & _).
    set_unfold in Hin.
    destruct Hin as [->|[->|[->|[->|[->|[]]]]]];
      vm_compute in H'; injection H' as <-;
      first [reflexivity | exfalso; apply Hused'; reflexivity].
  - intros mbi H. vm_compute in H. injection H as <-. reflexivity.
  - split; discriminate.
Defined.

End QueryFacts.

(** ** Detach, from inside and with allow_detach *)

Module DetachInternalFacts.
Import Detach DetachInternal.

Section WithRemainder.
Variables LOCK_FREE_STATE LOCK_SET_STATE : Z.
Variable CLIENT_INTERFACE : bool.
Variable detach_remainder : Z -> engine -> engine.

Abbreviation detach_helper :=
  (detach_helper LOCK_FREE_STATE LOCK_SET_STATE CLIENT_INTERFACE
     detach_remainder).

(** The engine as [detach_helper] hands it to the rest of the function. *)
Lemma detach_helper_goes_on (detach_type : Z) (s : engine) :
  s.(dynamo_initialized) = true -> s.(dynamo_exited) = false ->
  s.(my_dcontext) <> 0 -> s.(dynamo_detaching_flag) = LOCK_FREE_STATE ->
  s.(internal_detach) || s.(allow_detach) = true ->
  detach_helper detach_type s =
  detach_remainder detach_type
    {| dynamo_initialized := true;
       dynamo_exited := false;
       my_dcontext := s.(my_dcontext);
       dynamo_detaching_flag := LOCK_SET_STATE;
       doing_detach := true;
       internal_detach := s.(internal_detach);
       allow_detach := s.(allow_detach);
       init_apc_go_native_pause := true;
       init_apc_go_native := true;
       calls := s.(calls) ++
                [ENTERING_DR; SELF_UNPROTECT_DATASEC; SYSLOG_INFO_DETACHING;
                 enter_threadexit; thread_yield] ++
                (if CLIENT_INTERFACE then [wait_for_outstanding_nudges]
                 else []) ++
                [synch_with_all_threads] |}.
Proof.
  destruct s as [ini exi dc flag doing int allow pause native made].
  cbn [dynamo_initialized dynamo_exited my_dcontext dynamo_detaching_flag
         internal_detach allow_detach calls init_apc_go_native_pause
         init_apc_go_native doing_detach].
  intros -> -> Hdc -> Hgate. apply Z.eqb_neq in Hdc.
  unfold Detach.detach_helper, atomic_compare_exchange.
  destruct int, allow; try discriminate Hgate;
    cbv -[Z.eqb app]; rewrite Hdc, Z.eqb_refl;
    cbv -[Z.eqb app]; rewrite ?Hdc;
    destruct CLIENT_INTERFACE; do 2 f_equal;
    rewrite <- ?app_assoc; reflexivity.
Qed.

(** X14.  A detach request that is generated internally or made with the
    allow_detach option set, and that finds the engine up and no detach under
    way, goes through: it takes the detach flag, sets [doing_detach] and the two
    go-native flags (the pause first), and reaches the rest of the function
    after the calls that stop the other threads. *)
Theorem detach_helper_with_allow_detach_or_internal
    (detach_type : Z) (s : engine) :
  s.(dynamo_initialized) = true -> s.(dynamo_exited) = false ->
  s.(my_dcontext) <> 0 -> s.(dynamo_detaching_flag) = LOCK_FREE_STATE ->
  s.(internal_detach) || s.(allow_detach) = true ->
  exists s',
    detach_helper detach_type s = detach_remainder detach_type s' /\
    s'.(dynamo_detaching_flag) = LOCK_SET_STATE /\
    s'.(doing_detach) = true /\
    s'.(init_apc_go_native_pause) = true /\
    s'.(init_apc_go_native) = true /\
    exists made, s'.(calls) = s.(calls) ++ made /\
                 last made = Some synch_with_all_threads /\
                 SYSLOG_INTERNAL_ERROR
                   "Detach called without the allow_detach option set"
                 ∉ made.
Proof.
  intros Hini Hexi Hdc Hflag Hgate.
  eexists. split; [now apply detach_helper_goes_on|]. simpl.
  repeat (split; [reflexivity|]).
  eexists. split; [reflexivity|].
  destruct CLIENT_INTERFACE; simpl; split; try reflexivity;
    rewrite !elem_of_cons, elem_of_nil; intros H;
    repeat destruct H as [H|H]; try discriminate H; exact H.
Qed.

(** While a detach is under way (the flag is taken) a further request
    does nothing but enter and leave: no global changes and the rest of
    the function is not run. *)
Lemma detach_helper_while_detaching (detach_type : Z) (s : engine) :
  s.(dynamo_detaching_flag) <> LOCK_FREE_STATE ->
  detach_helper detach_type s = s \/
  detach_helper detach_type s = call EXITING_DR (call ENTERING_DR s).
Proof.
  intros Hflag. unfold Detach.detach_helper, atomic_compare_exchange.
  destruct (negb _ || _ || _); [now left|]. right.
  cbn [call dynamo_detaching_flag].
  apply Z.eqb_neq in Hflag. now rewrite Hflag.
Qed.

(** X15.  [detach_internal] marks the request as internal before it nudges: when
    the nudge runs [detach_helper] on an engine that is up, the detach goes
    through although allow_detach is not set. *)
Theorem detach_internal_goes_through (detach_type : Z) (s : engine) :
  s.(dynamo_initialized) = true -> s.(dynamo_exited) = false ->
  s.(my_dcontext) <> 0 -> s.(dynamo_detaching_flag) = LOCK_FREE_STATE ->
  s.(allow_detach) = false ->
  exists s',
    detach_internal (detach_helper detach_type) s =
      detach_remainder detach_type s' /\
    s'.(internal_detach) = true /\
    s'.(doing_detach) = true /\
    s'.(calls) =
      s.(calls) ++
      [SELF_UNPROTECT_DATASEC; SELF_PROTECT_DATASEC;
       ENTERING_DR; SELF_UNPROTECT_DATASEC; SYSLOG_INFO_DETACHING;
       enter_threadexit; thread_yield] ++
      (if CLIENT_INTERFACE then [wait_for_outstanding_nudges] else []) ++
      [synch_with_all_threads].
Proof.
  intros Hini Hexi Hdc Hflag Hallow.
  unfold detach_internal. eexists. split.
  - apply detach_helper_goes_on; simpl; auto.
  - simpl. repeat (split; [reflexivity|]).
    now rewrite <- !app_assoc.
Qed.

End WithRemainder.

(** An internal request on the engine that does not allow detach. *)
Lemma detach_helper_with_allow_detach_or_internal_sample :
  exists s',
    detach_helper (-1) 0 true tear_down 1
      (set_internal_detach true running_engine) = tear_down 1 s' /\
    s'.(dynamo_detaching_flag) = 0 /\
    s'.(doing_detach) = true /\
    s'.(init_apc_go_native_pause) = true /\
    s'.(init_apc_go_native) = true /\
    exists made, s'.(calls) = [] ++ made /\
                 last made = Some synch_with_all_threads /\
                 SYSLOG_INTERNAL_ERROR
                   "Detach called without the allow_detach option set"
                 ∉ made.
Proof.
  apply (detach_helper_with_allow_detach_or_internal (-1) 0 true tear_down 1
           (set_internal_detach true running_engine));
    first [reflexivity | discriminate].
Defined.

Lemma detach_internal_goes_through_sample :
  exists s',
    detach_internal (detach_helper (-1) 0 true tear_down 1) running_engine =
      tear_down 1 s' /\
    s'.(internal_detach) = true /\
    s'.(doing_detach) = true /\
    s'.(calls) =
      [] ++
      [SELF_UNPROTECT_DATASEC; SELF_PROTECT_DATASEC;
       ENTERING_DR; SELF_UNPROTECT_DATASEC; SYSLOG_INFO_DETACHING;
       enter_threadexit; thread_yield] ++
      [wait_for_outstanding_nudges] ++ [synch_with_all_threads].
Proof.
  apply (detach_internal_goes_through (-1) 0 true tear_down 1 running_engine);
    first [reflexivity | discriminate].
Defined.

End DetachInternalFacts.

(** ** Injecting into a child process *)

Module InjectChildFacts.
Import Macros MacrosFacts Inject InjectFacts InjectChild.

(** A mask with all the bits of [e | t] has a bit of [t], unless [t] has
    none. *)
Lemma TESTALL_lor_TEST (e t m : Z) :
  TESTALL (Z.lor e t) m = true -> t <> 0 -> TEST t m = true.
Proof.
  unfold TESTALL. rewrite Z.eqb_eq, TEST_true. intros Hall Ht H0.
  apply Ht. apply Z.bits_inj'. intros n Hn. rewrite Z.bits_0.
  assert (Hb : Z.testbit (Z.land (Z.lor e t) m) n = Z.testbit (Z.lor e t) n)
    by now rewrite Hall.
  assert (H0b : Z.testbit (Z.land t m) n = false)
    by (rewrite H0; apply Z.bits_0).
  rewrite Z.land_spec, Z.lor_spec in Hb. rewrite Z.land_spec in H0b.
  destruct (Z.testbit t n), (Z.testbit e n), (Z.testbit m n);
    simpl in *; congruence.
Qed.

Section WithEnvironment.
Variable k : Inject.constants.
Variable codes : parameter_codes.
Variable env : Inject.environment.
Variable opts : injection_options.
Variable os : kernel.
Variable dbg : debug_state.

Abbreviation maybe_inject_into_process :=
  (maybe_inject_into_process k codes env opts os).
Abbreviation inject_into_process := (inject_into_process k codes opts os).

(** X16.  Without any of the follow options [maybe_inject_into_process] calls
    nothing: no injection, no rebase, no run-once check. *)
Theorem maybe_inject_into_process_not_following
    (process_handle : Z) (cxt : option Z) :
  env.(dynamo_options).(follow_children) = false ->
  env.(dynamo_options).(follow_explicit_children) = false ->
  env.(dynamo_options).(follow_systemwide) = false ->
  maybe_inject_into_process process_handle cxt = [].
Proof.
  intros Hc He Hs. unfold InjectChild.maybe_inject_into_process.
  destruct (at_inject_point opts os process_handle cxt); [|reflexivity].
  unfold should_inject_into_process. now rewrite Hc, He, Hs.
Qed.

(** What [inject_into_process] calls: a rebase or none, then one
    injection, then the error log exactly when it returns false. *)
Lemma inject_into_process_calls
    (process_handle : Z) (cxt : option Z) (should_inject : Z) :
  exists rebase call,
    (rebase = [] \/ rebase = [aslr_force_dynamorio_rebase process_handle]) /\
    is_injection call = true /\
    (is_wow64_process os process_handle = true ->
     forall library, call <> inject_into_new_process_call process_handle library) /\
    inject_into_process process_handle cxt should_inject =
      if fst (inject_into_process process_handle cxt should_inject)
      then (true, rebase ++ [call])
      else (false,
            rebase ++ [call; SYSLOG_INTERNAL_ERROR
                               "ERROR: injection into child process failed"]).
Proof.
  unfold InjectChild.inject_into_process.
  set (library := library_for k codes os process_handle should_inject).
  set (rebase := if aslr_dr opts && _ && _ then _ else _).
  exists rebase.
  destruct (early_inject opts && negb (is_wow64_process os process_handle))
    eqn:Eearly.
  - exists (inject_into_new_process_call process_handle library).
    split; [subst rebase; destruct (_ && _ && _); auto|].
    split; [reflexivity|]. split.
    + intros Hwow. rewrite Hwow, andb_false_r in Eearly. discriminate.
    + destruct (inject_into_new_process os process_handle library);
        reflexivity.
  - exists (inject_into_thread_call process_handle library).
    split; [subst rebase; destruct (_ && _ && _); auto|].
    split; [reflexivity|]. split; [discriminate|].
    destruct (inject_into_thread os process_handle library); reflexivity.
Qed.

(** The same with the answer of the injection routine: the error log
    follows exactly when the routine answered false. *)
Lemma inject_into_process_result
    (process_handle : Z) (cxt : option Z) (should_inject : Z) :
  exists rebase call library,
    (rebase = [] \/ rebase = [aslr_force_dynamorio_rebase process_handle]) /\
    (call = inject_into_new_process_call process_handle library \/
     call = inject_into_thread_call process_handle library) /\
    inject_into_process process_handle cxt should_inject =
      if injection_result os call
      then (true, rebase ++ [call])
      else (false,
            rebase ++ [call; SYSLOG_INTERNAL_ERROR
                               "ERROR: injection into child process failed"]).
Proof.
  unfold InjectChild.inject_into_process.
  set (library := library_for k codes os process_handle should_inject).
  set (rebase := if aslr_dr opts && _ && _ then _ else _).
  exists rebase.
  destruct (early_inject opts && negb (is_wow64_process os process_handle)).
  - exists (inject_into_new_process_call process_handle library), library.
    split; [subst rebase; destruct (_ && _ && _); auto|].
    split; [now left|]. cbn [injection_result].
    destruct (inject_into_new_process os process_handle library);
      reflexivity.
  - exists (inject_into_thread_call process_handle library), library.
    split; [subst rebase; destruct (_ && _ && _); auto|].
    split; [now right|]. cbn [injection_result].
    destruct (inject_into_thread os process_handle library); reflexivity.
Qed.

(** X17.  [maybe_inject_into_process] either calls nothing, or makes one
    rebase call at most, then one injection call on the child, and then
    [check_for_run_once] when the injection routine answered true and the
    error log when it answered false. *)
Theorem maybe_inject_into_process_calls
    (process_handle : Z) (cxt : option Z) :
  maybe_inject_into_process process_handle cxt = [] \/
  exists rebase call library,
    (rebase = [] \/ rebase = [aslr_force_dynamorio_rebase process_handle]) /\
    (call = inject_into_new_process_call process_handle library \/
     call = inject_into_thread_call process_handle library) /\
    maybe_inject_into_process process_handle cxt =
      rebase ++
      [call;
       if injection_result os call
       then check_for_run_once process_handle
              (os.(rununder_mask) process_handle)
       else SYSLOG_INTERNAL_ERROR
              "ERROR: injection into child process failed"].
Proof.
  unfold InjectChild.maybe_inject_into_process.
  destruct (at_inject_point opts os process_handle cxt); [|now left].
  destruct (should_inject_into_process k env process_handle true)
    as [[|] settings]; [|now left].
  right.
  destruct (inject_into_process_result process_handle cxt
              (default 0 settings))
    as (rebase & call & library & Hrebase & Hcall & Heq).
  exists rebase, call, library.
  split; [exact Hrebase|]. split; [exact Hcall|].
  rewrite Heq.
  destruct (injection_result os call); [|reflexivity].
  now rewrite <- app_assoc.
Qed.

(** X18.  A WOW64 child is never injected into through
    [inject_into_new_process], and not at all at process creation (when [cxt] is
    NULL). *)
Theorem maybe_inject_into_process_wow64
    (process_handle : Z) (cxt : option Z) (library : string) :
  os.(is_wow64_process) process_handle = true ->
  (inject_into_new_process_call process_handle library ∉
     maybe_inject_into_process process_handle cxt) /\
  maybe_inject_into_process process_handle None = [].
Proof.
  intros Hwow. split.
  - unfold InjectChild.maybe_inject_into_process.
    destruct (at_inject_point opts os process_handle cxt);
      [|apply not_elem_of_nil].
    destruct (should_inject_into_process k env process_handle true)
      as [[|] settings]; [|apply not_elem_of_nil].
    destruct (inject_into_process_calls process_handle cxt
                (default 0 settings))
      as (rebase & call & Hrebase & Hcall & Hnew & Heq).
    specialize (Hnew Hwow library).
    rewrite Heq.
    destruct (fst (inject_into_process process_handle cxt (default 0 settings)));
      destruct Hrebase as [->| ->];
      rewrite ?elem_of_app, !elem_of_cons, !elem_of_nil;
      intros H; repeat destruct H as [H|H];
      first [ discriminate H | congruence | exact H ].
  - unfold InjectChild.maybe_inject_into_process, at_inject_point.
    now rewrite Hwow, andb_false_r.
Qed.

(** X19.  Of the ASSERTs a call of [maybe_inject_into_process] runs, in
    [should_inject_into_process], in itself, in [inject_into_process] and
    in [is_child_in_thin_client], four can never fail when injection at
    process creation is switched on together with early injection only:
    [ASSERT(!DYNAMO_OPTION(follow_systemwide))],
    [ASSERT(cxt != NULL || DYNAMO_OPTION(early_inject))],
    [ASSERT(DYNAMO_OPTION(follow_children))] and [ASSERT(cxt != NULL)].
    All the ASSERTs hold exactly when the call does not inject or the
    conditions decided outside these functions hold ([asserts_left]). *)
Theorem maybe_inject_into_process_asserts_hold
    (process_handle : Z) (cxt : option Z) :
  k.(INJECT_TRUE) <> 0 ->
  (opts.(inject_at_create_process) = true -> opts.(early_inject) = true) ->
  (opts.(vista_inject_at_create_process) = true ->
   opts.(early_inject) = true) ->
  maybe_inject_into_process_asserts k codes env opts os dbg process_handle cxt
  = if at_inject_point opts os process_handle cxt &&
       fst (should_inject_into_process k env process_handle true)
    then asserts_left k codes env opts os dbg process_handle cxt
    else true.
Proof.
  intros Htrue Hcreate Hvista.
  unfold maybe_inject_into_process_asserts.
  destruct (at_inject_point opts os process_handle cxt) eqn:Epoint;
    [|reflexivity].
  cbn [andb].
  pose proof (should_inject_into_process_ret k env process_handle true) as Hret.
  pose proof (should_inject_into_process_settings k env process_handle true)
    as Hset.
  set (m := systemwide_should_inject env process_handle) in *.
  (* the ASSERT where injection is left to the preinjector never fails *)
  assert (Hshould : should_inject_into_process_asserts k env process_handle
                    = if fst (should_inject_into_process k env process_handle
                                true)
                      then negb (TEST (INJECT_EXCLUDED k) m) else true).
  { unfold should_inject_into_process_asserts. fold m.
    rewrite Hret. cbv zeta. unfold child_excluded, left_to_preinjector.
    fold m.
    destruct (dynamo_options env) as [fc fe fs]; cbn;
      destruct fc, fe, fs; cbn;
      repeat match goal with
             | |- context [TEST ?a ?b] => destruct (TEST a b); cbn
             | |- context [TESTALL ?a ?b] => destruct (TESTALL a b); cbn
             | |- context [systemwide_inject_enabled env] =>
                 destruct (systemwide_inject_enabled env); cbn
             end; reflexivity. }
  rewrite Hshould. clear Hshould.
  destruct (should_inject_into_process k env process_handle true)
    as [[|] settings]; cbn [fst snd andb] in *; [|reflexivity].
  subst settings. cbn [default from_option id]. fold m.
  assert (Hearly : cxt = None ->
            early_inject opts && negb (is_wow64_process os process_handle)
            = true).
  { intros ->. cbn [at_inject_point] in Epoint.
    apply andb_true_iff in Epoint as [Hon ->].
    rewrite andb_true_r. apply orb_true_iff in Hon as [Hon|Hon]; [auto|].
    apply andb_true_iff in Hon as [_ Hon]. auto. }
  (* the parent's library is chosen under -follow_children only *)
  assert (Hfollow : TEST (INJECT_TRUE k) m = false ->
                    follow_children (dynamo_options env) = true).
  { intros Hnot.
    assert (Hall : TESTALL (Z.lor (INJECT_EXPLICIT k) (INJECT_TRUE k)) m
                   = false).
    { destruct (TESTALL _ m) eqn:Hall; [|reflexivity].
      rewrite (TESTALL_lor_TEST _ _ _ Hall Htrue) in Hnot.
      discriminate Hnot. }
    cbv zeta in Hret. fold m in Hret.
    rewrite Hnot, Hall, !andb_false_r in Hret. simpl in Hret.
    symmetry in Hret. apply andb_true_iff in Hret as [Hret _].
    now apply andb_true_iff in Hret as [-> _]. }
  assert (Hcxt : bool_decide (cxt <> None) || early_inject opts = true).
  { destruct cxt; [reflexivity|].
    specialize (Hearly eq_refl). apply andb_true_iff in Hearly as [-> _].
    apply orb_true_r. }
  rewrite Hcxt. cbn [andb].
  unfold asserts_left, inject_into_process_asserts, parameter_code_known.
  fold m.
  set (err := fst (get_process_parameter os process_handle)).
  set (thin := if aslr_dr opts && negb (process_handle =? 0) then _ else true).
  set (res := fst (InjectChild.inject_into_process k codes opts os
                     process_handle cxt m)).
  assert (Hswitch :
            (if err =? GET_PARAMETER_SUCCESS codes then true
             else if err =? GET_PARAMETER_NOAPPSPECIFIC codes then
               if negb (TEST (INJECT_TRUE k) m)
               then follow_children (dynamo_options env) else true
             else if (err =? GET_PARAMETER_BUF_TOO_SMALL codes) ||
                     (err =? GET_PARAMETER_FAILURE codes)
             then true else false)
            = (err =? GET_PARAMETER_SUCCESS codes) ||
              (err =? GET_PARAMETER_NOAPPSPECIFIC codes) ||
              (err =? GET_PARAMETER_BUF_TOO_SMALL codes) ||
              (err =? GET_PARAMETER_FAILURE codes)).
  { destruct (err =? GET_PARAMETER_SUCCESS codes); [reflexivity|].
    destruct (err =? GET_PARAMETER_NOAPPSPECIFIC codes); cbn [orb].
    - destruct (TEST (INJECT_TRUE k) m) eqn:Hnot; [reflexivity|].
      cbn [negb]. now apply Hfollow.
    - destruct (err =? GET_PARAMETER_BUF_TOO_SMALL codes),
        (err =? GET_PARAMETER_FAILURE codes); reflexivity. }
  rewrite Hswitch. clear Hswitch.
  assert (Hbefore :
            (if early_inject opts &&
                negb (is_wow64_process os process_handle)
             then negb (early_inject_address dbg =? 0)
             else bool_decide (cxt <> None))
            = (if early_inject opts &&
                  negb (is_wow64_process os process_handle)
               then negb (early_inject_address dbg =? 0) else true)).
  { destruct (early_inject opts &&
              negb (is_wow64_process os process_handle)) eqn:E;
      [reflexivity|].
    destruct cxt; [reflexivity|]. specialize (Hearly eq_refl). congruence. }
  rewrite Hbefore, !andb_assoc. reflexivity.
Qed.

End WithEnvironment.

Lemma maybe_inject_into_process_not_following_sample :
  maybe_inject_into_process sample_constants sample_codes not_following
    sample_options sample_kernel 7 None = [].
Proof.
  apply (maybe_inject_into_process_not_following sample_constants sample_codes
           not_following sample_options sample_kernel 7 None);
    reflexivity.
Defined.

(** With -follow_children the child 7 is injected into at process creation,
    with the parent's library, and checked for run-once. *)
Example maybe_inject_into_process_following :
  maybe_inject_into_process sample_constants sample_codes sample_environment
    sample_options sample_kernel 7 None =
  [inject_into_new_process_call 7 "parent.dll"; check_for_run_once 7 0].
Proof. reflexivity. Qed.

(** The WOW64 child 9 is left alone at process creation and injected into
    through its first thread. *)
Lemma maybe_inject_into_process_wow64_sample :
  maybe_inject_into_process sample_constants sample_codes sample_environment
    sample_options sample_kernel 9 (Some 0x7ffdf000) =
  [inject_into_thread_call 9 "parent.dll"; check_for_run_once 9 0] /\
  (inject_into_new_process_call 9 "parent.dll" ∉
     maybe_inject_into_process sample_constants sample_codes
       sample_environment sample_options sample_kernel 9 (Some 0x7ffdf000)) /\
  maybe_inject_into_process sample_constants sample_codes sample_environment
    sample_options sample_kernel 9 None = [].
Proof.
  split; [reflexivity|].
  apply (maybe_inject_into_process_wow64 sample_constants sample_codes
           sample_environment sample_options sample_kernel 9
           (Some 0x7ffdf000) "parent.dll").
  reflexivity.
Defined.

Lemma maybe_inject_into_process_asserts_hold_sample :
  maybe_inject_into_process_asserts sample_constants sample_codes
    sample_environment sample_options sample_kernel sample_debug_state
    7 None = true.
Proof.
  rewrite (maybe_inject_into_process_asserts_hold sample_constants
             sample_codes sample_environment sample_options sample_kernel
             sample_debug_state 7 None).
  - reflexivity.
  - discriminate.
  - reflexivity.
  - discriminate.
Defined.

(** An injection that fails trips the last ASSERT, and nothing else: the
    same run with an [inject_into_new_process] that answers false. *)
Example maybe_inject_into_process_asserts_failed_injection :
  let os := {| NT_CURRENT_PROCESS := -1;
               WINDOWS_VERSION_VISTA := 5;
               get_os_version := 3;
               get_process_id := 100;
               process_id_from_handle := fun h => 200 + h;
               get_peb := fun _ => 0x7ffdf000;
               is_wow64_process := fun h => h =? 9;
               get_process_parameter := fun _ => (1, "global.dll");
               get_dynamorio_library_path := "parent.dll";
               get_process_options := fun _ => Some false;
               rununder_mask := fun _ => 0;
               inject_into_new_process := fun _ _ => false;
               inject_into_thread := fun _ _ => true |} in
  maybe_inject_into_process_asserts sample_constants sample_codes
    sample_environment sample_options os sample_debug_state 7 None = false /\
  maybe_inject_into_process sample_constants sample_codes sample_environment
    sample_options os 7 None =
  [inject_into_new_process_call 7 "parent.dll";
   SYSLOG_INTERNAL_ERROR "ERROR: injection into child process failed"].
Proof. split; reflexivity. Qed.

End InjectChildFacts.

(** ** NT file paths *)

Module NtPathFacts.
Import NtPath.

Local Open Scope char_scope.

Lemma backslashes_get (s : string) (i : nat) :
  String.get i (backslashes s) <> Some "/".
Proof.
  revert i. induction s as [|a s IH]; intros i; [destruct i; discriminate|].
  destruct i as [|i]; [|apply IH].
  change (Some (if Ascii.eqb "/" a then "\" else a) <> Some "/").
  destruct (Ascii.eqb_spec "/" a) as [<-|Ha]; [discriminate|].
  intros [= E]. congruence.
Qed.

(** X20.  The path left in [buf] has no forward slash, and with room for five
    elements or more it begins with \??\ . *)
Theorem convert_to_NT_file_path_shape
    (fname : string) (buf_len : nat) (buf : string) :
  convert_to_NT_file_path fname buf_len = Some buf ->
  (forall i, String.get i buf <> Some "/") /\
  ((5 <= buf_len)%nat -> exists rest, buf = ("\??\" +:+ rest)%string).
Proof.
  unfold convert_to_NT_file_path.
  destruct (eat_prefix fname) as [[is_UNC name]|]; [|discriminate].
  intros [= <-]. split.
  - intros i. apply backslashes_get.
  - intros Hlen. destruct buf_len as [|[|[|[|[|n]]]]]; try lia.
    simpl. eauto.
Qed.

(** Push an append with a literal on its left through the literal. *)
Ltac app_literal :=
  repeat first
    [ progress change (String ?a ?s +:+ ?t)%string
        with (String a (s +:+ t)%string)
    | progress change (EmptyString +:+ ?t)%string with t ].

(** X21.  \\server\share, \??\UNC\server\share and \\?\UNC\server\share become
    the same path, \??\UNC\server\share. *)
Theorem convert_to_NT_file_path_UNC (share : string) (buf_len : nat) :
  Ascii.eqb (char_at share 0) "?" = false ->
  let path :=
    Some (backslashes (truncate (buf_len - 1) ("\??\UNC\" +:+ share))) in
  convert_to_NT_file_path ("\\" +:+ share) buf_len = path /\
  convert_to_NT_file_path ("\??\UNC\" +:+ share) buf_len = path /\
  convert_to_NT_file_path ("\\?\UNC\" +:+ share) buf_len = path.
Proof.
  intros Hshare path. subst path.
  unfold convert_to_NT_file_path, eat_prefix, begins_with_UNC.
  app_literal.
  change (char_at (String "\" (String "\" share)) 0) with "\".
  change (advance 1 (String "\" (String "\" share))) with (String "\" share).
  change (char_at (String "\" share) 0) with "\".
  change (char_at (String "\" share) 1) with (char_at share 0).
  rewrite Hshare.
  cbn -[truncate backslashes Nat.sub String.append].
  app_literal. auto.
Qed.

(** X22.  A path that begins neither with a backslash nor with UNC (c:\dir, say)
    becomes the same path with \??\ in front, whether it is given bare, after
    \??\ or after \\?\ . *)
Theorem convert_to_NT_file_path_drive (path : string) (buf_len : nat) :
  Ascii.eqb (char_at path 0) "\" = false ->
  begins_with_UNC path = false ->
  let nt := Some (backslashes (truncate (buf_len - 1) ("\??\" +:+ path))) in
  convert_to_NT_file_path path buf_len = nt /\
  convert_to_NT_file_path ("\??\" +:+ path) buf_len = nt /\
  convert_to_NT_file_path ("\\?\" +:+ path) buf_len = nt.
Proof.
  intros Hslash Hunc nt. subst nt.
  unfold convert_to_NT_file_path, eat_prefix.
  app_literal. rewrite Hslash.
  change (char_at (String "\" (String "\" (String "?" (String "\" path)))) 0)
    with "\".
  change (char_at (String "\" (String "?" (String "?" (String "\" path)))) 0)
    with "\".
  cbn -[truncate backslashes Nat.sub begins_with_UNC String.append].
  rewrite Hunc. auto.
Qed.

(** X23.  The function gives up on short names only: a name of four characters
    or more is converted. *)
Theorem convert_to_NT_file_path_long_names (fname : string) (buf_len : nat) :
  (forall i, String.get i fname <> Some "000") ->
  (4 <= String.length fname)%nat ->
  is_Some (convert_to_NT_file_path fname buf_len).
Proof.
  intros Hnul Hlen. unfold convert_to_NT_file_path.
  destruct fname as [|a [|b [|d [|e rest]]]]; simpl in Hlen; try lia.
  assert (Hb : Ascii.eqb b "000" = false)
    by (apply Ascii.eqb_neq; intros ->; now apply (Hnul 1%nat)).
  assert (Hd : Ascii.eqb d "000" = false)
    by (apply Ascii.eqb_neq; intros ->; now apply (Hnul 2%nat)).
  assert (He : Ascii.eqb e "000" = false)
    by (apply Ascii.eqb_neq; intros ->; now apply (Hnul 3%nat)).
  unfold eat_prefix.
  cbn -[truncate backslashes Nat.sub begins_with_UNC String.append Ascii.eqb].
  rewrite Hb, Hd, He.
  cbn -[truncate backslashes Nat.sub begins_with_UNC String.append Ascii.eqb].
  repeat match goal with
         | |- context [if ?b then _ else _] => destruct b
         end;
    eexists; reflexivity.
Qed.

(** c:/dir/file in a buffer of 64 elements. *)
Lemma convert_to_NT_file_path_shape_sample :
  convert_to_NT_file_path "c:/dir/file" 64 = Some "\??\c:\dir\file"%string /\
  (forall i, String.get i "\??\c:\dir\file" <> Some "/") /\
  ((5 <= 64)%nat ->
   exists rest, "\??\c:\dir\file"%string = ("\??\" +:+ rest)%string).
Proof.
  split; [reflexivity|].
  exact (convert_to_NT_file_path_shape "c:/dir/file" 64 _ eq_refl).
Defined.

Lemma convert_to_NT_file_path_UNC_sample :
  convert_to_NT_file_path "\\server\share" 64
    = Some "\??\UNC\server\share"%string /\
  convert_to_NT_file_path "\??\UNC\server\share" 64
    = Some "\??\UNC\server\share"%string /\
  convert_to_NT_file_path "\\?\UNC\server\share" 64
    = Some "\??\UNC\server\share"%string.
Proof.
  exact (convert_to_NT_file_path_UNC "server\share" 64 eq_refl).
Defined.

Lemma convert_to_NT_file_path_drive_sample :
  convert_to_NT_file_path "c:\dir" 64 = Some "\??\c:\dir"%string /\
  convert_to_NT_file_path "\??\c:\dir" 64 = Some "\??\c:\dir"%string /\
  convert_to_NT_file_path "\\?\c:\dir" 64 = Some "\??\c:\dir"%string.
Proof.
  exact (convert_to_NT_file_path_drive "c:\dir" 64 eq_refl eq_refl).
Defined.

(** \\? is given up on; \\?\ alone is long enough to be converted. *)
Lemma convert_to_NT_file_path_long_names_sample :
  convert_to_NT_file_path "\\?" 64 = None /\
  is_Some (convert_to_NT_file_path "\\?\" 64).
Proof.
  split; [reflexivity|].
  apply (convert_to_NT_file_path_long_names "\\?\" 64).
  - intros [|[|[|[|[|i]]]]]; discriminate.
  - repeat constructor.
Defined.

End NtPathFacts.

(** ** Options against the OS version *)

Module OptionCompatibilityFacts.
Import Macros OptionCompatibility.

Section WithVersion.
Variable get_os_version : Z.
Variable OS_ASLR_DISABLE_PCACHE_ALL : Z.

Abbreviation os_check_option_compatibility :=
  (os_check_option_compatibility get_os_version OS_ASLR_DISABLE_PCACHE_ALL).

(** The function in one piece: nothing happens below the OS version that
    has ASLR (the option read as an [int]) or without the bit in os_aslr; otherwise the three pcache
    options are switched off and the two ASLR options set to 0. *)
Lemma os_check_option_compatibility_eq (o : options) :
  os_check_option_compatibility o =
  if (int_of_uint o.(os_aslr_version) <=? get_os_version) &&
     TEST OS_ASLR_DISABLE_PCACHE_ALL o.(os_aslr)
  then
    let pcache := o.(coarse_enable_freeze) || o.(coarse_freeze_at_unload) ||
                  o.(use_persisted) in
    {| changed_options :=
         pcache || negb (o.(aslr) =? 0) || negb (o.(aslr_cache) =? 0);
       dynamo_options :=
         {| os_aslr_version := o.(os_aslr_version); os_aslr := o.(os_aslr);
            coarse_enable_freeze := false; coarse_freeze_at_unload := false;
            use_persisted := false; aslr := 0; aslr_cache := 0 |};
       warnings :=
         (if pcache
          then [SYSLOG_INTERNAL_WARNING_ONCE
                  "pcache completely disabled, Vista+"]
          else []) ++
         (if negb (o.(aslr) =? 0)
          then [SYSLOG_INTERNAL_WARNING_ONCE
                  "ASLR completely disabled, Vista+"]
          else []) |}
  else {| changed_options := false; dynamo_options := o; warnings := [] |}.
Proof.
  unfold OptionCompatibility.os_check_option_compatibility.
  destruct o as [v a f u p s sc].
  cbn [dynamo_options os_aslr_version os_aslr].
  destruct (int_of_uint v <=? get_os_version); [|reflexivity].
  cbn [negb andb].
  destruct (TEST OS_ASLR_DISABLE_PCACHE_ALL a) eqn:Et;
    [|cbn [dynamo_options os_aslr]; rewrite Et; reflexivity].
  destruct f, u, p; cbn -[Z.eqb int_of_uint]; rewrite Et;
    destruct (Z.eqb_spec s 0), (Z.eqb_spec sc 0); subst; cbn -[Z.eqb int_of_uint];
    rewrite ?Z.eqb_refl;
    repeat match goal with
           | |- context [?x =? 0] => destruct (Z.eqb_spec x 0); [lia|]
           end;
    reflexivity.
Qed.

(** X24.  [os_check_option_compatibility] returns true exactly when it has
    changed the value of an option. *)
Theorem os_check_option_compatibility_ret (o : options) :
  (os_check_option_compatibility o).(changed_options) = true <->
  (os_check_option_compatibility o).(dynamo_options) <> o.
Proof.
  rewrite os_check_option_compatibility_eq.
  destruct o as [v a f u p s sc]; cbn -[Z.eqb int_of_uint].
  destruct ((int_of_uint v <=? get_os_version) &&
            TEST OS_ASLR_DISABLE_PCACHE_ALL a);
    cbn -[Z.eqb int_of_uint].
  - destruct f, u, p, (Z.eqb_spec s 0), (Z.eqb_spec sc 0); subst; simpl;
      (split; [intros H; first [discriminate H | congruence]
              | intros H; first [reflexivity | exfalso; apply H; reflexivity]]).
  - split; [intros H; discriminate H | intros H; exfalso; apply H; reflexivity].
Qed.

(** X25.  A second check finds nothing left to change: it returns false, leaves
    the options as they are and logs nothing. *)
Theorem os_check_option_compatibility_twice (o : options) :
  os_check_option_compatibility
    (os_check_option_compatibility o).(dynamo_options) =
  {| changed_options := false;
     dynamo_options := (os_check_option_compatibility o).(dynamo_options);
     warnings := [] |}.
Proof.
  rewrite !os_check_option_compatibility_eq.
  destruct o as [v a f u p s sc]; cbn -[Z.eqb int_of_uint].
  destruct ((int_of_uint v <=? get_os_version) &&
            TEST OS_ASLR_DISABLE_PCACHE_ALL a)
    eqn:E; cbn -[Z.eqb int_of_uint]; rewrite E; reflexivity.
Qed.

End WithVersion.

(** The version is compared as an [int]: an os_aslr_version of 0xffffffff
    is -1, which every OS version reaches, so the pcache options are
    switched off. *)
Example os_check_option_compatibility_cast :
  os_check_option_compatibility 6 1
    {| os_aslr_version := 0xffffffff; os_aslr := 1;
       coarse_enable_freeze := true; coarse_freeze_at_unload := false;
       use_persisted := false; aslr := 0; aslr_cache := 0 |}
  = {| changed_options := true;
       dynamo_options :=
         {| os_aslr_version := 0xffffffff; os_aslr := 1;
            coarse_enable_freeze := false; coarse_freeze_at_unload := false;
            use_persisted := false; aslr := 0; aslr_cache := 0 |};
       warnings := [SYSLOG_INTERNAL_WARNING_ONCE
                      "pcache completely disabled, Vista+"] |}.
Proof. reflexivity. Qed.

End OptionCompatibilityFacts.

(** ** PC-sampling profiles *)

Module ProfileFacts.
Import Mem Profile.

Lemma uint_small (x : Z) : 0 <= x < 2 ^ 32 -> uint x = x.
Proof. intros H. unfold uint. now apply Z.mod_small. Qed.

Lemma uint_add_l (x y : Z) : uint (uint x + y) = uint (x + y).
Proof. unfold uint. now rewrite Zplus_mod_idemp_l. Qed.

Lemma sum_buckets_spec (counts : list Z) :
  Forall (fun b => 0 <= b < 2 ^ 32) counts ->
  Z.of_nat (length counts) < 2 ^ 32 ->
  forall passes i ret,
    0 <= i -> i + Z.of_nat passes <= Z.of_nat (length counts) ->
    0 <= ret < 2 ^ 32 ->
    sum_buckets counts passes i ret =
    Some (uint (ret + foldr Z.add 0 (take passes (drop (Z.to_nat i) counts)))).
Proof.
  intros Hcounts Hlen.
  induction passes as [|passes IH]; intros i ret Hi Hend Hret.
  - simpl. rewrite Z.add_0_r. now rewrite uint_small.
  - cbn [sum_buckets].
    destruct (lookup_lt_is_Some_2 counts (Z.to_nat i)) as [b Hb]; [lia|].
    rewrite Hb. rewrite (drop_S _ _ _ Hb). cbn [take foldr].
    pose proof (proj1 (Forall_lookup _ _) Hcounts _ _ Hb) as Hrange.
    cbv beta in Hrange.
    rewrite (uint_small (i + 1)) by lia.
    assert (Hret' : (if 0 <? b then uint (ret + b) else ret) = uint (ret + b)).
    { destruct (Z.ltb_spec 0 b); [reflexivity|].
      replace b with 0 by lia. rewrite Z.add_0_r. now rewrite uint_small. }
    rewrite Hret', IH.
    + rewrite uint_add_l. replace (Z.to_nat (i + 1)) with (S (Z.to_nat i))
        by lia.
      do 2 f_equal. ring.
    + lia.
    + lia.
    + unfold uint. apply Z.mod_pos_bound. lia.
Qed.

Section WithKernel.
Variable k : Mem.constants.
Variable nt_create_profile : Z -> Z -> Z -> Z -> Z.
Variables start end_ bucket_shift : Z.
Hypothesis shift_range : 0 <= bucket_shift < 32.
Hypothesis range : 0 <= end_ - start < 2 ^ 32.
Hypothesis last_bucket : Z.shiftr (end_ - start) bucket_shift < 2 ^ 32 - 1.
Hypothesis pointer_max : 2 ^ 32 - 1 <= k.(POINTER_MAX).
Hypothesis size_fits :
  (Z.shiftr (end_ - start) bucket_shift + 1) * sizeof_uint <= k.(POINTER_MAX).

Abbreviation created := (create_profile k nt_create_profile start end_ bucket_shift).

Lemma created_buckets :
  buffer_size created / sizeof_uint =
    Z.shiftr (end_ - start) bucket_shift + 1 /\
  length (buffer created) =
    Z.to_nat (Z.shiftr (end_ - start) bucket_shift + 1) /\
  0 <= Z.shiftr (end_ - start) bucket_shift.
Proof.
  assert (H0 : 0 <= Z.shiftr (end_ - start) bucket_shift)
    by (apply Z.shiftr_nonneg; lia).
  assert (Hsize : buffer_size_of k start end_ bucket_shift =
            (Z.shiftr (end_ - start) bucket_shift + 1) * sizeof_uint).
  { unfold buffer_size_of, wrap.
    rewrite (Z.mod_small (end_ - start)) by lia.
    apply Z.mod_small. unfold sizeof_uint in *. lia. }
  cbn [create_profile buffer_size buffer]. rewrite length_replicate, Hsize.
  rewrite Z.div_mul by discriminate. auto.
Qed.

Lemma sum_profile_indices (counts : list Z) :
  let p := sampled counts created in
  uint (Z.shiftl 1 p.(Profile.bucket_shift)) = 2 ^ bucket_shift /\
  uint (p.(Profile.start) - p.(Profile.start)) /
    uint (Z.shiftl 1 p.(Profile.bucket_shift)) = 0 /\
  uint (p.(Profile.end_) - p.(Profile.start)) /
    uint (Z.shiftl 1 p.(Profile.bucket_shift)) =
    Z.shiftr (end_ - start) bucket_shift.
Proof.
  cbn [sampled create_profile Profile.start Profile.end_ Profile.bucket_shift].
  assert (Hstep : uint (Z.shiftl 1 bucket_shift) = 2 ^ bucket_shift).
  { rewrite Z.shiftl_1_l. apply uint_small. split; [lia|].
    apply Z.pow_lt_mono_r; lia. }
  rewrite Hstep, Z.sub_diag. split; [reflexivity|]. split.
  - reflexivity.
  - rewrite uint_small by lia. symmetry. apply Z.shiftr_div_pow2. lia.
Qed.

(** X26.  A profile made by [create_profile] has a bucket for every index that
    [sum_profile] visits: the ASSERT of [sum_profile_range] holds, no read falls
    outside the buffer, and the result is the sum of all the counts in the
    buffer, modulo 2^32. *)
Theorem sum_profile_sums_every_bucket (counts : list Z) :
  length counts = length (buffer created) ->
  Forall (fun b => 0 <= b < 2 ^ 32) counts ->
  let p := sampled counts created in
  sum_profile_range_asserts p p.(Profile.start) p.(Profile.end_) = true /\
  sum_profile p = Some (uint (foldr Z.add 0 counts)).
Proof.
  intros Hlen Hcounts p.
  destruct created_buckets as (Hsize & Hbuf & H0).
  destruct (sum_profile_indices counts) as (Hstep & Hstart & Hend).
  fold p in Hstep, Hstart, Hend.
  unfold sum_profile, sum_profile_range, sum_profile_range_asserts.
  rewrite Hstart, Hend.
  change (buffer_size p) with (buffer_size created). rewrite Hsize.
  split.
  - apply andb_true_iff. rewrite !Z.ltb_lt. lia.
  - destruct (Z.eqb_spec (Z.shiftr (end_ - start) bucket_shift) (2 ^ 32 - 1));
      [lia|].
    change (buffer p) with counts.
    rewrite sum_buckets_spec;
      try assumption; try (rewrite ?Hlen, ?Hbuf; lia).
    replace (Z.to_nat (Z.shiftr (end_ - start) bucket_shift - 0 + 1))
      with (length counts) by lia.
    change (Z.to_nat 0) with 0%nat. rewrite drop_0, firstn_all.
    reflexivity.
Qed.

(** X27.  A fresh profile and a profile that has been reset sum to 0. *)
Theorem sum_profile_of_reset_profile (counts : list Z) :
  length counts = length (buffer created) ->
  sum_profile created = Some 0 /\
  sum_profile (reset_profile (sampled counts created)) = Some 0.
Proof.
  intros Hlen.
  destruct created_buckets as (Hsize & Hbuf & H0).
  destruct (sum_profile_indices counts) as (Hstep & Hstart & Hend).
  assert (Hzero : forall n, foldr Z.add 0 (replicate n 0) = 0)
    by (induction n; simpl; lia).
  assert (Hsum : forall p,
            Profile.start p = start -> Profile.end_ p = end_ ->
            Profile.bucket_shift p = bucket_shift ->
            buffer p = buffer created ->
            sum_profile p = Some 0).
  { intros p Es Ee Eb Ebuf.
    unfold sum_profile, sum_profile_range.
    cbn [sampled create_profile Profile.start Profile.end_
           Profile.bucket_shift] in Hstart, Hend.
    rewrite Es, Ee, Eb, Hstart, Hend, Ebuf.
    destruct (Z.eqb_spec (Z.shiftr (end_ - start) bucket_shift) (2 ^ 32 - 1));
      [lia|].
    rewrite sum_buckets_spec;
      try (rewrite ?Hbuf; lia);
      try (cbn [create_profile buffer]; apply Forall_replicate; lia).
    cbn [create_profile buffer].
    change (Z.to_nat 0) with 0%nat. rewrite drop_0.
    rewrite take_replicate, Hzero. reflexivity. }
  split; [now apply Hsum|].
  apply Hsum; try reflexivity.
  cbn [reset_profile sampled buffer buffer_size].
  change (buffer_size_of k start end_ bucket_shift)
    with (buffer_size created).
  rewrite drop_ge, app_nil_r; [reflexivity|].
  rewrite Hlen, Hbuf, Hsize. lia.
Qed.

End WithKernel.

(** A profile over 0x400000-0x400fff with 256-byte buckets has sixteen of
    them; the sum takes in the last one. *)
Lemma sum_profile_sums_every_bucket_sample :
  let p := sampled [1; 0; 0; 2; 0; 0; 0; 0; 0; 0; 0; 0; 0; 0; 0; 40]
             (create_profile Mem.win32 (fun _ _ _ _ => 0x44)
                0x400000 0x400fff 8) in
  sum_profile_range_asserts p 0x400000 0x400fff = true /\
  sum_profile p = Some 43.
Proof.
  apply (sum_profile_sums_every_bucket Mem.win32 (fun _ _ _ _ => 0x44)
           0x400000 0x400fff 8).
  - split; [discriminate | reflexivity].
  - split; [discriminate | reflexivity].
  - reflexivity.
  - discriminate.
  - discriminate.
  - reflexivity.
  - repeat (constructor; [split; [discriminate | reflexivity]|]).
    constructor.
Defined.

Lemma sum_profile_of_reset_profile_sample :
  sum_profile (create_profile Mem.win32 (fun _ _ _ _ => 0x44)
                 0x400000 0x400fff 8) = Some 0 /\
  sum_profile
    (reset_profile
       (sampled [1; 0; 0; 2; 0; 0; 0; 0; 0; 0; 0; 0; 0; 0; 0; 40]
          (create_profile Mem.win32 (fun _ _ _ _ => 0x44)
             0x400000 0x400fff 8))) = Some 0.
Proof.
  apply (sum_profile_of_reset_profile Mem.win32 (fun _ _ _ _ => 0x44)
           0x400000 0x400fff 8).
  - split; [discriminate | reflexivity].
  - split; [discriminate | reflexivity].
  - reflexivity.
  - discriminate.
  - discriminate.
  - reflexivity.
Defined.

End ProfileFacts.

(** ** The Windows version *)

Module WindowsVersionFacts.
Import WindowsVersion.

Section WithConstants.
Variable k : constants.
Variable dll : ntdll.

Ltac branches :=
  repeat match goal with
         | |- context [if ?b then _ else _] => destruct b eqn:?
         end.

(** X28.  [windows_version_init] either picks a system call table and sets
    [os_version], or ends in FATAL_USAGE_ERROR with [syscalls] left NULL; and a
    table for 64-bit system call numbers is picked only when ntdll is 64-bit or
    the process runs under WOW64. *)
Theorem windows_version_init_outcome (peb : PEB) :
  let r := windows_version_init k dll peb in
  (r.(fatal_usage_error) = false <-> is_Some r.(syscalls)) /\
  (is_Some r.(syscalls) <-> is_Some r.(os_version)) /\
  (forall table, r.(syscalls) = Some table -> is_x64_table table = true ->
                 dll.(module_is_64bit) || dll.(is_wow64_process) = true).
Proof.
  unfold windows_version_init. branches; cbn;
    (split; [|split]);
    try (split; intros H; first [solve [eauto] | discriminate H
                                | destruct H as [? H]; discriminate H]);
    intros table Htable Hx;
    first [ discriminate Htable
          | injection Htable as <-; first [reflexivity | discriminate Hx] ].
Qed.

(** X29.  The last name of the Windows 95/98 branch is never chosen: the four
    tests before it leave no build number over. *)
Theorem windows_version_init_names (peb : PEB) :
  (windows_version_init k dll peb).(os_name) <>
  "this unknown version of Windows".
Proof.
  unfold windows_version_init.
  set (ver_low := Z.land (OSBuildNumber peb) 255).
  set (ver_high := Z.land (Z.shiftr (OSBuildNumber peb) 8) 255).
  destruct (OSPlatformId peb =? VER_PLATFORM_WIN32_NT k).
  - branches; discriminate.
  - destruct (OSPlatformId peb =? VER_PLATFORM_WIN32_WINDOWS k);
      [|discriminate].
    destruct (Z.leb_spec 90 ver_low); [discriminate|].
    destruct (Z.leb_spec 5 ver_high); [discriminate|].
    cbn [orb].
    destruct (Z.leb_spec 10 ver_low), (Z.ltb_spec ver_low 90);
      try discriminate; try lia.
    cbn [andb].
    destruct (Z.ltb_spec ver_low 5); [discriminate|].
    destruct (Z.ltb_spec ver_low 10); [discriminate|lia].
Qed.

End WithConstants.
End WindowsVersionFacts.

(** ** Reserving address space *)

Module HeapReserveFacts.
Import Mem HeapReserve.

Section WithKernel.
Variable k : Mem.constants.
Variable h : constants.
Variable os : Type.
Variable query_virtual_memory : os -> Z -> option MEMORY_BASIC_INFORMATION.
Variable nt_allocate_virtual_memory : os -> Z -> Z -> Z * Z * os.
Variable NT_SUCCESS : Z -> bool.
Variable ALIGN_FORWARD : Z -> Z -> Z.

Abbreviation reserve_walk :=
  (reserve_walk k h os query_virtual_memory nt_allocate_virtual_memory
     NT_SUCCESS ALIGN_FORWARD).
Abbreviation os_heap_reserve_in_region :=
  (os_heap_reserve_in_region k h os query_virtual_memory
     nt_allocate_virtual_memory NT_SUCCESS ALIGN_FORWARD).
Abbreviation os_heap_reserve :=
  (os_heap_reserve os nt_allocate_virtual_memory NT_SUCCESS).

Section Walk.
Variables start end_ size : Z.
Hypothesis start_range : 0 <= start.
Hypothesis size_range : 0 < size.
(** A block holds the address it is reported for and ends below the top of
    the address space. *)
Hypothesis kernel : forall st a mbi,
  query_virtual_memory st a = Some mbi ->
  0 <= mbi.(BaseAddress) <= a /\
  a < mbi.(BaseAddress) + mbi.(RegionSize) <= k.(POINTER_MAX).
(** An allocation at a given address succeeds there or not at all (the
    ASSERT of [os_heap_reserve]). *)
Hypothesis reserve_at : forall st preferred n,
  os_heap_reserve_asserts os nt_allocate_virtual_memory NT_SUCCESS
    st preferred n = true.
(** Aligning forward does not go back, and stays in the address space or
    wraps to 0. *)
Hypothesis align : forall x,
  0 <= x <= k.(POINTER_MAX) ->
  let y := ALIGN_FORWARD x h.(VM_ALLOCATION_BOUNDARY) in
  y = 0 \/ x <= y <= k.(POINTER_MAX).

Lemma os_heap_reserve_at (st : os) (preferred n : Z) :
  preferred <> 0 ->
  let '(q, _, _) := os_heap_reserve st preferred n in
  q = NULL \/ q = preferred.
Proof.
  intros Hpref. pose proof (reserve_at st preferred n) as H.
  unfold os_heap_reserve_asserts in H. unfold HeapReserve.os_heap_reserve.
  destruct (nt_allocate_virtual_memory st preferred n) as [[err q] st'].
  destruct (NT_SUCCESS err); simpl in *; [|now left].
  apply orb_true_iff in H as [H|H]; apply Z.eqb_eq in H.
  - unfold NULL in H. contradiction.
  - now right.
Qed.

(** The loop: from a place at or above [start] it comes to an end, and
    what it has reserved lies between [start] and [end_]. *)
Lemma reserve_walk_spec (fuel : nat) :
  forall s,
    start <= cur os s <= k.(POINTER_MAX) -> cur os s <> 0 ->
    (p os s <> NULL -> start <= p os s /\ p os s + size <= end_) ->
    k.(POINTER_MAX) + 1 - cur os s <= Z.of_nat fuel ->
    exists s', reserve_walk fuel end_ size s = Some s' /\
               (p os s' <> NULL ->
                start <= p os s' /\ p os s' + size <= end_).
Proof.
  induction fuel as [|fuel IH]; intros s Hcur Hnz Hp Hfuel; [lia|].
  cbn [HeapReserve.reserve_walk].
  destruct (Z.eqb_spec (p os s) NULL) as [Hnull|_]; [|eauto].
  destruct (Z.leb_spec (wrap k (cur os s + size)) end_) as [Hfits|_];
    [|eauto].
  cbn [andb].
  destruct (query_virtual_memory (memory os s) (cur os s)) as [mbi|] eqn:Eq;
    [|eauto].
  destruct (kernel _ _ _ Eq) as (Hin & Htop).
  set (next := ALIGN_FORWARD _ _).
  assert (Hwrap : wrap k (BaseAddress mbi + RegionSize mbi) =
                  BaseAddress mbi + RegionSize mbi)
    by (unfold wrap; apply Z.mod_small; lia).
  assert (Hnext : next = 0 \/
                  BaseAddress mbi + RegionSize mbi <= next <= POINTER_MAX k).
  { subst next. rewrite Hwrap. apply align. lia. }
  set (s1 := if (State mbi =? MEM_FREE k) && _ then _ else s).
  assert (Hs1 : p os s1 <> NULL ->
                start <= p os s1 /\ p os s1 + size <= end_).
  { subst s1.
    destruct (State mbi =? MEM_FREE k); [|exact Hp].
    destruct (Z.leb_spec size
                (wrap k (RegionSize mbi - (cur os s - BaseAddress mbi))))
      as [Hroom|_]; [|exact Hp].
    cbn [andb].
    pose proof (os_heap_reserve_at (memory os s) (cur os s) size Hnz) as Hat.
    destruct (os_heap_reserve (memory os s) (cur os s) size) as [[q e] m'].
    cbn [p]. intros Hq. destruct Hat as [Hat|Hat]; [contradiction|].
    subst q. unfold wrap in Hroom, Hfits.
    rewrite Z.mod_small in Hroom by lia.
    rewrite Z.mod_small in Hfits by lia. lia. }
  cbn [cur p].
  destruct (Z.leb_spec next (BaseAddress mbi)) as [Hback|Hon].
  - eexists. split; [reflexivity|]. exact Hs1.
  - apply IH; cbn [cur p]; first [exact Hs1 | lia].
Qed.

(** X30.  Walking a region whose bounds restrict the location,
    [os_heap_reserve_in_region] comes to an end, and the address it
    returns is NULL or the start of [size] bytes that lie between [start]
    and [end_]. *)
Theorem os_heap_reserve_in_region_bounds (fuel : nat) (m : os) :
  negb ((start =? 0) && (end_ =? k.(POINTER_MAX))) = true ->
  start <= ALIGN_FORWARD start h.(VM_ALLOCATION_BOUNDARY)
        <= k.(POINTER_MAX) ->
  ALIGN_FORWARD start h.(VM_ALLOCATION_BOUNDARY) <> 0 ->
  k.(POINTER_MAX) + 1 - start <= Z.of_nat fuel ->
  exists q error_code m',
    os_heap_reserve_in_region fuel m start end_ size =
      Some (q, error_code, m') /\
    (q <> NULL -> start <= q /\ q + size <= end_).
Proof.
  intros Hrestricted Hfirst Hnz Hfuel.
  unfold HeapReserve.os_heap_reserve_in_region.
  apply negb_true_iff in Hrestricted. rewrite Hrestricted.
  destruct (reserve_walk_spec fuel
              {| cur := ALIGN_FORWARD start h.(VM_ALLOCATION_BOUNDARY);
                 p := NULL;
                 error_code := h.(HEAP_ERROR_CANT_RESERVE_IN_REGION);
                 memory := m |})
    as (s' & -> & Hs'); cbn [cur p];
    first [lia | exact Hnz | now intros H | eauto].
Qed.

End Walk.
End WithKernel.

(** Aligning forward to 64K on 32 bits. *)
Lemma align_forward_64K (x : Z) :
  0 <= x <= 2 ^ 32 - 1 ->
  align_forward x 0x10000 = 0 \/
  x <= align_forward x 0x10000 <= 2 ^ 32 - 1.
Proof.
  intros Hx. unfold align_forward.
  change (0x10000 - 1) with (Z.ones 16).
  rewrite <- Z.ldiff_land, Z.ldiff_ones_r by lia.
  rewrite Z.shiftr_div_pow2, Z.shiftl_mul_pow2 by lia.
  change (2 ^ 16) with 65536. change (Z.ones 16) with 65535.
  destruct (Z_lt_le_dec (x + 65535) (2 ^ 32)) as [Hsmall|Hlarge].
  - right. rewrite Z.mod_small by lia.
    pose proof (Z.div_mod (x + 65535) 65536 ltac:(lia)) as Hd.
    pose proof (Z.mod_pos_bound (x + 65535) 65536 ltac:(lia)) as Hm.
    lia.
  - left.
    replace ((x + 65535) mod 2 ^ 32) with (x + 65535 - 2 ^ 32).
    + rewrite Z.div_small by lia. reflexivity.
    + apply Z.mod_unique with 1; lia.
Qed.

(** The blocks of the sample address space lie below the top of the
    address space. *)
Lemma user_query_contains (a : Z) (mbi : MEMORY_BASIC_INFORMATION) :
  user_query tt a = Some mbi ->
  0 <= mbi.(BaseAddress) <= a /\
  a < mbi.(BaseAddress) + mbi.(RegionSize) <= 2 ^ 32 - 1.
Proof.
  unfold user_query, block_at. intros H.
  apply find_some in H as [Hin H].
  apply andb_true_iff in H as [H _].
  apply andb_true_iff in H as [Hlo Hhi].
  unfold user_blocks, sample_blocks in Hin. simpl in Hin.
  destruct Hin as [<-|[<-|[<-|[<-|[<-|[<-|[<-|[]]]]]]]]; simpl in *; lia.
Qed.

Lemma os_heap_reserve_in_region_bounds_sample :
  exists q error_code m',
    os_heap_reserve_in_region Mem.win32 sample_constants _
      user_query user_reserve (Z.leb 0) align_forward
      (Z.to_nat (2 ^ 32)) tt 0x12000 0x40000 0x1000 =
      Some (q, error_code, m') /\
    (q <> NULL -> 0x12000 <= q /\ q + 0x1000 <= 0x40000).
Proof.
  apply (os_heap_reserve_in_region_bounds Mem.win32 sample_constants _
           user_query user_reserve (Z.leb 0) align_forward
           0x12000 0x40000 0x1000).
  - discriminate.
  - reflexivity.
  - intros [] a mbi. apply user_query_contains.
  - intros [] preferred n.
    unfold os_heap_reserve_asserts, user_reserve.
    destruct (block_at Mem.win32 user_blocks preferred) as [mbi|];
      [destruct (_ && _)|]; simpl; rewrite ?Z.eqb_refl;
      auto using orb_true_r.
  - intros x Hx. apply align_forward_64K. exact Hx.
  - reflexivity.
  - split; discriminate.
  - discriminate.
  - rewrite Z2Nat.id by discriminate. discriminate.
Defined.

(** On that address space the first slot of 0x1000 bytes at a multiple of
    64K between 0x12000 and 0x40000 is at 0x30000. *)
Example os_heap_reserve_in_region_user_blocks :
  os_heap_reserve_in_region Mem.win32 sample_constants _
    user_query user_reserve (Z.leb 0) align_forward
    8 tt 0x12000 0x40000 0x1000 =
  Some (0x30000, 0, tt).
Proof. vm_compute. reflexivity. Qed.

End HeapReserveFacts.
